(** * Flood detection from Sentinel-2 imagery: a shallow embedding

    The development follows the Python sources of the repository:
    - [date_utilize.py]  : [get_date_ranges]
    - [threshold.py]     : [classify_kmeans]
    - [mosaic.py]        : [mosaic_s2]
    - [filter.py]        : [remove_small_area], [mask_clouds]
    - [rename.py]        : [add_layer_name]
    - [opticalflood.py]  : [opticflood_s2]

    Rasters are finite maps from pixel coordinates to rational values (a
    masked pixel is an absent key), image metadata is a finite map from
    property names to values, Python exceptions and Earth Engine evaluation
    errors are the [Raise] branch of a small error monad. *)

From Stdlib Require Import ZArith QArith Qround Qabs Lqa Ascii String List Lia Bool.
From stdpp Require Import base gmap strings list fin_maps.

Local Open Scope Z_scope.

(** ** Exceptions and the error monad *)

Inductive exn :=
| ValueError        (* datetime.strptime on a malformed or impossible date *)
| OverflowError     (* datetime arithmetic leaving [MINYEAR, MAXYEAR] *)
| EEException.      (* a failed (remote) Earth Engine evaluation *)

Inductive result (A : Type) :=
| Ok (a : A)
| Raise (e : exn).
Arguments Ok {A} a.
Arguments Raise {A} e.

Definition bind {A B} (r : result A) (k : A → result B) : result B :=
  match r with
  | Ok a => k a
  | Raise e => Raise e
  end.

Notation "'let*' x ':=' r 'in' k" := (bind r (fun x => k))
  (at level 10, x pattern, r at level 100, k at level 200).

Definition is_ok {A} (r : result A) : bool :=
  match r with Ok _ => true | Raise _ => false end.

#[export] Instance result_fmap : FMap result :=
  λ A B f r, match r with Ok a => Ok (f a) | Raise e => Raise e end.

Fixpoint mapM {A B} (f : A → result B) (l : list A) : result (list B) :=
  match l with
  | [] => Ok []
  | a :: l' => let* b := f a in let* bs := mapM f l' in Ok (b :: bs)
  end.

(** ** [date_utilize.py] *)

Module DateUtilize.

(** A [datetime.datetime] whose time of day is midnight: [strptime] with
    format ['%Y-%m-%d'] produces midnight, [timedelta(days=n)] keeps it and
    [strftime('%Y-%m-%d')] does not print it. *)
Record datetime := mkDate { year : Z; month : Z; day : Z }.

Definition date_eqb (a b : datetime) : bool :=
  (year a =? year b) && (month a =? month b) && (day a =? day b).

Definition MINYEAR : Z := 1.
Definition MAXYEAR : Z := 9999.
Definition MAXORDINAL : Z := 3652059.

Definition is_leap (y : Z) : bool :=
  (y mod 4 =? 0) && (negb (y mod 100 =? 0) || (y mod 400 =? 0)).

Definition DAYS_IN_MONTH (m : Z) : Z :=
  match m with
  | 1 => 31 | 2 => 28 | 3 => 31 | 4 => 30 | 5 => 31 | 6 => 30
  | 7 => 31 | 8 => 31 | 9 => 30 | 10 => 31 | 11 => 30 | 12 => 31
  | _ => -1
  end.

Definition DAYS_BEFORE_MONTH (m : Z) : Z :=
  match m with
  | 1 => 0 | 2 => 31 | 3 => 59 | 4 => 90 | 5 => 120 | 6 => 151
  | 7 => 181 | 8 => 212 | 9 => 243 | 10 => 273 | 11 => 304 | 12 => 334
  | _ => -1
  end.

Definition days_in_month (y m : Z) : Z :=
  if (m =? 2) && is_leap y then 29 else DAYS_IN_MONTH m.

Definition days_before_year (year : Z) : Z :=
  let y := year - 1 in y * 365 + y / 4 - y / 100 + y / 400.

Definition days_before_month (y m : Z) : Z :=
  DAYS_BEFORE_MONTH m + (if (2 <? m) && is_leap y then 1 else 0).

Definition ymd2ord (y m d : Z) : Z :=
  days_before_year y + days_before_month y m + d.

Definition DI400Y : Z := 146097.
Definition DI100Y : Z := 36524.
Definition DI4Y : Z := 1461.

(** [datetime._ord2ymd], with Python's floor [divmod]. *)
Definition ord2ymd (n : Z) : datetime :=
  let n := n - 1 in
  let n400 := n / DI400Y in
  let n := n mod DI400Y in
  let year := n400 * 400 + 1 in
  let n100 := n / DI100Y in
  let n := n mod DI100Y in
  let n4 := n / DI4Y in
  let n := n mod DI4Y in
  let n1 := n / 365 in
  let n := n mod 365 in
  let year := year + n100 * 100 + n4 * 4 + n1 in
  if (n1 =? 4) || (n100 =? 4) then mkDate (year - 1) 12 31
  else
    let leapyear := (n1 =? 3) && (negb (n4 =? 24) || (n100 =? 3)) in
    let month := Z.shiftr (n + 50) 5 in
    let preceding :=
      DAYS_BEFORE_MONTH month + (if (2 <? month) && leapyear then 1 else 0) in
    if n <? preceding then
      let month := month - 1 in
      let preceding :=
        preceding
        - (DAYS_IN_MONTH month + (if (month =? 2) && leapyear then 1 else 0)) in
      mkDate year month (n - preceding + 1)
    else mkDate year month (n - preceding + 1).

Definition toordinal (dt : datetime) : Z := ymd2ord (year dt) (month dt) (day dt).

(** The checks of the [datetime] constructor. *)
Definition valid_date (dt : datetime) : bool :=
  (MINYEAR <=? year dt) && (year dt <=? MAXYEAR)
  && (1 <=? month dt) && (month dt <=? 12)
  && (1 <=? day dt) && (day dt <=? days_in_month (year dt) (month dt)).

(** [dt + timedelta(days=n)]: [OverflowError] when the ordinal of the result
    leaves [1, MAXORDINAL] (this also covers a [timedelta] too large to be
    built). [dt - timedelta(days=n)] is [dt + (-timedelta(days=n))]. *)
Definition add_days (dt : datetime) (n : Z) : result datetime :=
  let o := toordinal dt + n in
  if (0 <? o) && (o <=? MAXORDINAL) then Ok (ord2ymd o) else Raise OverflowError.

Definition sub_days (dt : datetime) (n : Z) : result datetime := add_days dt (- n).

(** *** Parsing: [datetime.strptime(s, '%Y-%m-%d')]

    The format compiles to the regular expression
    [(\d\d\d\d)-(1[0-2]|0[1-9]|[1-9])-(3[0-1]|[1-2]\d|0[1-9]|[1-9]| [1-9])],
    matched at the start of the string; data left after the match is an
    error. Strings are byte strings: only ASCII digits are digits here. *)

Definition digit_val (c : ascii) : option Z :=
  let n := Z.of_nat (nat_of_ascii c) in
  if (48 <=? n) && (n <=? 57) then Some (n - 48) else None.

Definition in_range (lo hi : Z) (c : ascii) : option Z :=
  match digit_val c with
  | Some v => if (lo <=? v) && (v <=? hi) then Some v else None
  | None => None
  end.

(** One alternative of a group: the value it reads and the rest. *)
Definition alt := string → option (Z * string).

Definition two_chars (f : ascii → option Z) (g : ascii → option Z) : alt :=
  fun s =>
    match s with
    | String a (String b r) =>
        match f a, g b with
        | Some x, Some y => Some (10 * x + y, r)
        | _, _ => None
        end
    | _ => None
    end.

Definition one_char (f : ascii → option Z) : alt :=
  fun s =>
    match s with
    | String a r => match f a with Some x => Some (x, r) | None => None end
    | _ => None
    end.

Definition space_then (f : ascii → option Z) : alt :=
  fun s =>
    match s with
    | String a (String b r) =>
        if Ascii.eqb a " "%char
        then match f b with Some x => Some (x, r) | None => None end
        else None
    | _ => None
    end.

Definition month_alts : list alt :=
  [ two_chars (in_range 1 1) (in_range 0 2);
    two_chars (in_range 0 0) (in_range 1 9);
    one_char (in_range 1 9) ].

Definition day_alts : list alt :=
  [ two_chars (in_range 3 3) (in_range 0 1);
    two_chars (in_range 1 2) (in_range 0 9);
    two_chars (in_range 0 0) (in_range 1 9);
    one_char (in_range 1 9);
    space_then (in_range 1 9) ].

(** Ordered alternation with backtracking into the continuation [k]. *)
Fixpoint first_alt {A} (alts : list alt) (k : Z → string → option A) (s : string)
  : option A :=
  match alts with
  | [] => None
  | a :: alts' =>
      match a s with
      | Some (v, r) =>
          match k v r with
          | Some x => Some x
          | None => first_alt alts' k s
          end
      | None => first_alt alts' k s
      end
  end.

Definition hyphen {A} (k : string → option A) (s : string) : option A :=
  match s with
  | String c r => if Ascii.eqb c "-"%char then k r else None
  | _ => None
  end.

Definition four_digits {A} (k : Z → string → option A) (s : string) : option A :=
  match s with
  | String a (String b (String c (String d r))) =>
      match digit_val a, digit_val b, digit_val c, digit_val d with
      | Some x, Some y, Some z, Some w => k (1000 * x + 100 * y + 10 * z + w) r
      | _, _, _, _ => None
      end
  | _ => None
  end.

(** The regular-expression match: year, month, day and the unconverted rest. *)
Definition re_match (s : string) : option (Z * Z * Z * string) :=
  four_digits (fun y =>
    hyphen (first_alt month_alts (fun m =>
      hyphen (first_alt day_alts (fun d r => Some (y, m, d, r)))))) s.

Definition strptime (s : string) : result datetime :=
  match re_match s with
  | None => Raise ValueError                      (* does not match format *)
  | Some (y, m, d, rest) =>
      match rest with
      | String _ _ => Raise ValueError            (* unconverted data remains *)
      | EmptyString =>
          let dt := mkDate y m d in
          if valid_date dt then Ok dt else Raise ValueError
      end
  end.

(** *** Formatting: [dt.strftime('%Y-%m-%d')]

    [%m] and [%d] are zero-padded to two digits. [%Y] is delegated to the C
    library: it is zero-padded to four digits on some platforms and printed
    without padding on others (glibc); [pad_year] selects the platform. *)

Definition digit_char (k : Z) : ascii := ascii_of_nat (Z.to_nat (48 + k)).

Definition zfill2 (n : Z) : string :=
  String (digit_char (n / 10)) (String (digit_char (n mod 10)) EmptyString).

Definition zfill4 (n : Z) : string :=
  String (digit_char (n / 1000))
    (String (digit_char (n / 100 mod 10)) (zfill2 (n mod 100))).

(** Decimal printing without padding, for [0 <= n <= 9999]. *)
Definition decimal (n : Z) : string :=
  if n <? 10 then String (digit_char n) EmptyString
  else if n <? 100 then zfill2 n
  else if n <? 1000 then String (digit_char (n / 100)) (zfill2 (n mod 100))
  else zfill4 n.

Definition strftime (pad_year : bool) (dt : datetime) : string :=
  ((if pad_year then zfill4 (year dt) else decimal (year dt))
     ++ "-" ++ zfill2 (month dt) ++ "-" ++ zfill2 (day dt))%string.

(** *** [get_date_ranges] *)

Definition get_date_ranges_with (pad_year : bool) (event_date_str : string)
    (post_lag days_before_start days_before_end : Z)
  : result (string * string * string * string) :=
  let parse := strptime in
  let format := strftime pad_year in
  let* event_date := parse event_date_str in
  (* Post-flood range *)
  let* d1 := add_days event_date 1 in
  let post_start_date := format d1 in
  let* d2 := add_days event_date post_lag in
  let post_end_date := format d2 in
  (* Reference range *)
  let* d3 := sub_days event_date days_before_start in
  let ref_start_date := format d3 in
  let* d4 := sub_days event_date days_before_end in
  let ref_end_date := format d4 in
  Ok (post_start_date, post_end_date, ref_start_date, ref_end_date).

(** The call with the defaults [days_before_start=30], [days_before_end=1]. *)
Definition get_date_ranges (pad_year : bool) (event_date_str : string) (post_lag : Z) :=
  get_date_ranges_with pad_year event_date_str post_lag 30 1.

(** *** Calendar arithmetic as the specification words it: one day at a time,
    rolling over at the end of a month and of a year. *)

Definition next_day (dt : datetime) : datetime :=
  if day dt <? days_in_month (year dt) (month dt)
  then mkDate (year dt) (month dt) (day dt + 1)
  else if month dt <? 12 then mkDate (year dt) (month dt + 1) 1
  else mkDate (year dt + 1) 1 1.

Definition prev_day (dt : datetime) : datetime :=
  if 1 <? day dt then mkDate (year dt) (month dt) (day dt - 1)
  else if 1 <? month dt
       then mkDate (year dt) (month dt - 1) (days_in_month (year dt) (month dt - 1))
       else mkDate (year dt - 1) 12 31.

(** [E + n] days for [n >= 0] and [E - |n|] days for [n < 0]. *)
Definition calendar_shift (dt : datetime) (n : Z) : datetime :=
  if 0 <=? n then Nat.iter (Z.to_nat n) next_day dt
  else Nat.iter (Z.to_nat (- n)) prev_day dt.

(** The [YYYY-MM-DD] rendering of a date: four, two and two decimal digits. *)
Definition iso_format (dt : datetime) : string :=
  (zfill4 (year dt) ++ "-" ++ zfill2 (month dt) ++ "-" ++ zfill2 (day dt))%string.

(** The same day and month [k] Gregorian cycles (of 400 years) later. *)
Definition shift_year (k : Z) (dt : datetime) : datetime :=
  mkDate (year dt + 400 * k) (month dt) (day dt).

(** Bounded checks, used to settle facts about one Gregorian cycle by
    evaluation: [P] on [lo, lo + fuel). *)
Fixpoint forall_from (fuel : nat) (lo : Z) (P : Z → bool) : bool :=
  match fuel with
  | O => true
  | S f => P lo && forall_from f (lo + 1) P
  end.

Definition roundtrip_at (y m d : Z) : bool :=
  (days_in_month y m <? d) || date_eqb (ord2ymd (ymd2ord y m d)) (mkDate y m d).

(** The dates of the first 400 years, numbered month by month with 31 slots
    per month (slots past the end of a month pass the check). *)
Definition cycle_check (i : Z) : bool :=
  roundtrip_at (1 + i / 372) (1 + (i / 31) mod 12) (1 + i mod 31).

Definition cycle_slots : nat := Z.to_nat 148800.

End DateUtilize.

Import DateUtilize.


(** ** Earth Engine values: rasters, images, collections

    The operations below are the ones the sources call, with the behaviour
    the Earth Engine reference documents for them. *)

Module EE.

(** A pixel of the fixed 10 m grid every raster of the pipeline shares. *)
Abbreviation pixel := (Z * Z)%type.

(** One band: the value of every unmasked pixel. *)
Abbreviation Raster := (gmap pixel Q).

(** Property values: strings and (integer) numbers. *)
Inductive PropVal :=
| PStr (s : string)
| PNum (n : Z).

(** Geometries are kept abstract: the pipeline only merges them, tests
    containment and reduces or clips rasters over them. *)
Class Geometry (G : Type) := {
  geom_empty : G;
  geom_union : G → G → G;
  geom_intersection : G → G → G;
  geom_intersects : G → G → bool;
  (** [g.dissolve()] *)
  dissolve : G → G;
  (** [left.contains(right, ee.ErrorMargin(maxError))] *)
  contains : G → G → Q → bool;
  (** the fraction of a pixel's area inside the geometry, in [0, 1] *)
  coverage : G → pixel → Q;
  (** the pixels of the grid the geometry touches *)
  cells : G → gset pixel;
}.

(** The number of pixels a reduction over the geometry visits. *)
Definition pixel_count {G} `{Geometry G} (g : G) : Z := Z.of_nat (size (cells g)).

Section Images.

Context {G : Type} {geo : Geometry G}.

Record Image := mkImage {
  bands : list (string * Raster);
  props : gmap string PropVal;
  footprint : G;
}.

Abbreviation ImageCollection := (list Image).

(** *** Pixel predicates *)

Definition nonzero (v : option Q) : bool :=
  match v with
  | Some q => negb (Qeq_bool q 0)
  | None => false
  end.

Definition bool_to_Q (b : bool) : Q := if b then 1%Q else 0%Q.

(** *** Raster operations (one band) *)

Definition eq_raster (r : Raster) (c : Q) : Raster :=
  (λ v, bool_to_Q (Qeq_bool v c)) <$> r.

Definition gt_raster (r : Raster) (c : Q) : Raster :=
  (λ v, bool_to_Q (negb (Qle_bool v c))) <$> r.

Definition gte_raster (r : Raster) (c : Q) : Raster :=
  (λ v, bool_to_Q (Qle_bool c v)) <$> r.

(** [r.updateMask(mask)]: a pixel stays unmasked where it was unmasked and
    the mask is unmasked and not zero. *)
Definition updateMask_raster (r mask : Raster) : Raster :=
  map_imap (λ p v, if nonzero (mask !! p) then Some v else None) r.

(** [r.where(test, c)]: the constant [c] where [test] is unmasked and not
    zero, the input elsewhere; a masked input pixel stays masked. *)
Definition where_raster (r test : Raster) (c : Q) : Raster :=
  map_imap (λ p v, Some (if nonzero (test !! p) then c else v)) r.

(** [r.clip(g)]: pixels the geometry does not cover are masked. *)
Definition clip_raster (r : Raster) (g : G) : Raster :=
  map_imap (λ p v, if Qle_bool (coverage g p) 0 then None else Some v) r.

(** [a.Or(b)]: defined where both are, 1 where either is not zero. *)
Definition or_raster (a b : Raster) : Raster :=
  map_imap (λ p v,
    match b !! p with
    | Some w => Some (bool_to_Q (nonzero (Some v) || nonzero (Some w)))
    | None => None
    end) a.

(** [r.unmask(c)]: masked pixels of the domain [dom] take the value [c]. *)
Definition unmask_raster (r : Raster) (c : Q) (dom : gset pixel) : Raster :=
  r ∪ gset_to_gmap c dom.

(** *** Image operations *)

Definition map_bands (f : Raster → Raster) (img : Image) : list (string * Raster) :=
  (λ '(n, r), (n, f r)) <$> bands img.

(** The raster of the first band, the operand of single-band arguments
    (masks, tests); an image without bands is everywhere masked. *)
Definition band0 (img : Image) : Raster :=
  match bands img with
  | (_, r) :: _ => r
  | [] => ∅
  end.

Definition get (img : Image) (key : string) : option PropVal := props img !! key.

(** [img.set(key, value)]; a null value leaves the property null. *)
Definition set (img : Image) (key : string) (value : option PropVal) : Image :=
  match value with
  | Some v => mkImage (bands img) (<[key := v]> (props img)) (footprint img)
  | None => mkImage (bands img) (delete key (props img)) (footprint img)
  end.

(** [img.select(names)] keeps the named bands, in the order asked for, and
    the metadata. *)
Definition select (img : Image) (names : list string) : Image :=
  mkImage (n ← names; filter (λ b, b.1 = n) (bands img)) (props img) (footprint img).

(** [img.rename(name)] on a single-band image. *)
Definition rename (img : Image) (name : string) : Image :=
  mkImage ((λ '(_, r), (name, r)) <$> bands img) (props img) (footprint img).

(** [img.addBands(other)]: the metadata is the first image's. *)
Definition addBands (img other : Image) : Image :=
  mkImage (bands img ++ bands other) (props img) (footprint img).

(** [dest.copyProperties(source, source.propertyNames())] *)
Definition copyProperties (dest source : Image) : Image :=
  mkImage (bands dest) (props source ∪ props dest) (footprint dest).

(** Comparison and boolean operators build a new image: the result carries
    the bands and the footprint of the first operand and none of its
    properties. (The reference states that the metadata is retained for
    [updateMask], [where], [clip] and [selfMask], and that it is not for
    [normalizedDifference]; the sources set ['system:time_start'] again
    after every comparison whose result they return.) *)
Definition eq (img : Image) (c : Q) : Image :=
  mkImage (map_bands (λ r, eq_raster r c) img) ∅ (footprint img).

Definition gt (img : Image) (c : Q) : Image :=
  mkImage (map_bands (λ r, gt_raster r c) img) ∅ (footprint img).

Definition gte (img : Image) (c : Q) : Image :=
  mkImage (map_bands (λ r, gte_raster r c) img) ∅ (footprint img).

Definition Or (a b : Image) : Image :=
  mkImage (map_bands (λ r, or_raster r (band0 b)) a) ∅ (footprint a).

(** [updateMask], [where], [clip], [selfMask] and the casts retain the
    metadata of their input. Where the test of [where] is masked the input
    value is used. *)
Definition updateMask (img mask : Image) : Image :=
  mkImage (map_bands (λ r, updateMask_raster r (band0 mask)) img)
          (props img) (footprint img).

Definition where_ (img test : Image) (c : Q) : Image :=
  mkImage (map_bands (λ r, where_raster r (band0 test) c) img)
          (props img) (footprint img).

Definition clip (img : Image) (g : G) : Image :=
  mkImage (map_bands (λ r, clip_raster r g) img)
          (props img) (geom_intersection (footprint img) g).

Definition selfMask (img : Image) : Image :=
  mkImage (map_bands (λ r, updateMask_raster r r) img) (props img) (footprint img).

Definition toFloat (img : Image) : Image := img.

(** [img.unmask(c)]: within the footprint, masked pixels take the value [c]. *)
Definition unmask (img : Image) (c : Q) : Image :=
  mkImage (map_bands (λ r, unmask_raster r c (cells (footprint img))) img)
          (props img) (footprint img).

(** [img.normalizedDifference([a, b])]: one band ['nd'] holding
    [(a - b) / (a + b)]; a pixel is masked where either input is masked or
    negative or where the sum is zero; the properties of the input are not
    retained. *)
Definition normalizedDifference (img : Image) (a b : string) : Image :=
  let ra := band0 (select img [a]) in
  let rb := band0 (select img [b]) in
  mkImage [("nd"%string,
            map_imap (λ p x,
              match rb !! p with
              | Some y =>
                  if Qle_bool 0 x && Qle_bool 0 y && negb (Qeq_bool (x + y) 0)
                  then Some ((x - y) / (x + y))%Q else None
              | None => None
              end) ra)]
          ∅ (footprint img).

(** *** Connected pixels *)

Definition neighbours (eightConnected : bool) (p : pixel) : list pixel :=
  let '(x, y) := p in
  [(x - 1, y); (x + 1, y); (x, y - 1); (x, y + 1)]
  ++ (if eightConnected
      then [(x - 1, y - 1); (x - 1, y + 1); (x + 1, y - 1); (x + 1, y + 1)]
      else []).

(** Unmasked with the value [v]. *)
Definition same_value (r : Raster) (v : Q) (q : pixel) : bool :=
  match r !! q with
  | Some w => Qeq_bool w v
  | None => false
  end.

(** Flood fill from the pixels of [frontier]: the pixels of value [v]
    reached so far are [seen]. *)
Fixpoint flood_fill (fuel : nat) (r : Raster) (eightConnected : bool) (v : Q)
    (frontier : list pixel) (seen : gset pixel) : gset pixel :=
  match fuel with
  | O => seen
  | S fuel' =>
      match frontier with
      | [] => seen
      | q :: rest =>
          if bool_decide (q ∉ seen) && same_value r v q
          then flood_fill fuel' r eightConnected v
                 (neighbours eightConnected q ++ rest) ({[q]} ∪ seen)
          else flood_fill fuel' r eightConnected v rest seen
      end
  end.

(** The patch of a pixel: the unmasked pixels of the same value connected
    to it. Every pixel is pushed at most once per neighbour. *)
Definition patch (r : Raster) (eightConnected : bool) (p : pixel) : gset pixel :=
  match r !! p with
  | Some v => flood_fill (8 * size r + 2) r eightConnected v [p] ∅
  | None => ∅
  end.

(** Connectivity as a relation: [q] is joined to [p] by a chain of adjacent
    unmasked pixels of value [v]. *)
Inductive connected (r : Raster) (eightConnected : bool) (v : Q) (p : pixel)
  : pixel → Prop :=
| connected_start : same_value r v p = true → connected r eightConnected v p p
| connected_step (q q' : pixel) :
    connected r eightConnected v p q →
    q' ∈ neighbours eightConnected q →
    same_value r v q' = true →
    connected r eightConnected v p q'.

(** What the flood fill from [p] maintains between two steps ... *)
Record fill_invariant (r : Raster) (eightConnected : bool) (v : Q) (p : pixel)
    (frontier : list pixel) (seen : gset pixel) : Prop := {
  seen_connected : ∀ s, s ∈ seen → connected r eightConnected v p s;
  frontier_origin :
    ∀ f, f ∈ frontier → f = p ∨ ∃ s, s ∈ seen ∧ f ∈ neighbours eightConnected s;
  seen_closed :
    ∀ s n, s ∈ seen → n ∈ neighbours eightConnected s → same_value r v n = true →
           n ∈ seen ∨ n ∈ frontier;
  start_pending : p ∈ seen ∨ p ∈ frontier;
}.

(** ... and the steps still to come: one per pending pixel, eight more per
    unmasked pixel not reached yet. *)
Definition fill_measure (r : Raster) (frontier : list pixel) (seen : gset pixel) : nat :=
  (length frontier + 8 * size (dom r ∖ seen))%nat.

Definition patch_size (r : Raster) (eightConnected : bool) (p : pixel) : Z :=
  Z.of_nat (size (patch r eightConnected p)).

(** [img.connectedPixelCount(maxSize, eightConnected)]: every unmasked pixel
    holds the size of its patch, counted up to [maxSize]. *)
Definition connectedPixelCount_raster (r : Raster) (maxSize : Z)
    (eightConnected : bool) : Raster :=
  map_imap (λ p _, Some (inject_Z (Z.min (patch_size r eightConnected p) maxSize))) r.

Definition connectedPixelCount (img : Image) (maxSize : Z) (eightConnected : bool)
  : Image :=
  mkImage (map_bands (λ r, connectedPixelCount_raster r maxSize eightConnected) img)
          ∅ (footprint img).

(** *** Collections *)

(** [collection.geometry()]: the union of the footprints. *)
Definition collection_geometry (c : ImageCollection) : G :=
  foldr (λ img g, geom_union (footprint img) g) geom_empty c.

(** [collection.aggregate_array(key)]: the non-null values of a property. *)
Definition aggregate_array (c : ImageCollection) (key : string) : list PropVal :=
  omap (λ img, get img key) c.

(** The values the images of a collection hold at a pixel of a band. *)
Definition values_at (c : ImageCollection) (band : string) (p : pixel) : list Q :=
  omap (λ img, band0 (select img [band]) !! p) c.

Definition band_domain (c : ImageCollection) (band : string) : gset pixel :=
  ⋃ ((λ img, dom (band0 (select img [band]))) <$> c).

(** A per-pixel reduction of a collection: the bands are those of the first
    image, a pixel is masked where the reducer has no result; the result
    has no properties. *)
Definition reduce_collection (reducer : list Q → option Q) (c : ImageCollection)
  : Image :=
  let names := match c with img :: _ => (bands img).*1 | [] => [] end in
  mkImage ((λ n, (n, map_imap (λ p _, reducer (values_at c n p))
                       (gset_to_gmap tt (band_domain c n)))) <$> names)
          ∅ (collection_geometry c).

(** *** Reducers *)

Definition Qmax (a b : Q) : Q := if Qle_bool a b then b else a.

(** [ee.List(l).reduce(ee.Reducer.max())]: reducers skip null inputs; with
    no input left the result is null. *)
Definition Reducer_max (l : list (option Q)) : option Q :=
  foldl (λ acc x,
           match x, acc with
           | Some v, Some m => Some (Qmax m v)
           | Some v, None => Some v
           | None, _ => acc
           end) None l.

(** [ee.List(l).indexOf(x)]: the position of the first element equal to
    [x], or -1. *)
Fixpoint indexOf (l : list (option Q)) (x : Q) : Z :=
  match l with
  | [] => -1
  | y :: l' =>
      if match y with Some v => Qeq_bool v x | None => false end then 0
      else let i := indexOf l' x in if i <? 0 then -1 else 1 + i
  end.

(** The weighted sum and the total weight of the unmasked pixels of [r]
    that the region covers (the mean reducer is a weighted reducer). *)
Definition weighted_sum (r : Raster) (g : G) : Q * Q :=
  map_fold (λ p v '(s, w),
              let c := coverage g p in
              if Qle_bool c 0 then (s, w) else (s + c * v, w + c)%Q)
           (0%Q, 0%Q) r.

Definition mean_raster (r : Raster) (g : G) : option Q :=
  let '(s, w) := weighted_sum r g in
  if Qeq_bool w 0 then None else Some (s / w)%Q.

(** [img.reduceRegion(ee.Reducer.mean(), geometry, scale, maxPixels).get(band)]:
    the evaluation fails when the region holds more than [maxPixels] pixels;
    the entry of a band without any unmasked pixel in the region is null. *)
Definition reduceRegion_mean (img : Image) (geometry : G) (maxPixels : Z)
    (band : string) : result (option Q) :=
  if maxPixels <? pixel_count geometry then Raise EEException
  else Ok (match bands (select img [band]) with
           | (_, r) :: _ => mean_raster r geometry
           | [] => None
           end).

(** The median of a non-empty list of values (the mean of the two middle
    values when their number is even). *)
Fixpoint insert_sorted (x : Q) (l : list Q) : list Q :=
  match l with
  | [] => [x]
  | y :: l' => if Qle_bool x y then x :: l else y :: insert_sorted x l'
  end.

Definition sort_values (l : list Q) : list Q := foldr insert_sorted [] l.

Definition sum_values (l : list Q) : option Q :=
  match l with
  | [] => None
  | _ => Some (foldr Qplus 0%Q l)
  end.

Definition median_values (l : list Q) : option Q :=
  let s := sort_values l in
  let n := length s in
  if Nat.even n
  then match s !! (n / 2 - 1)%nat, s !! (n / 2)%nat with
       | Some a, Some b => Some ((a + b) / 2)%Q
       | _, _ => None
       end
  else s !! (n / 2)%nat.

(** [collection.median()] and [collection.sum()] *)
Definition median (c : ImageCollection) : Image := reduce_collection median_values c.
Definition sum (c : ImageCollection) : Image := reduce_collection sum_values c.

(** *** Dates *)

(** Milliseconds in a day, and the ordinal of 1970-01-01. *)
Definition MS_PER_DAY : Z := 86400000.
Definition EPOCH_ORDINAL : Z := 719163.

(** [ee.Date(millis).format('YYYY-MM-dd')] *)
Definition Date_format (millis : Z) : string :=
  iso_format (ord2ymd (EPOCH_ORDINAL + millis / MS_PER_DAY)).

(** [ee.Date(s).millis()] for a date string; null when [s] is not a date. *)
Definition Date_millis (s : string) : option Z :=
  match strptime s with
  | Ok dt => Some ((toordinal dt - EPOCH_ORDINAL) * MS_PER_DAY)
  | Raise _ => None
  end.

Definition time_start (img : Image) : option Z :=
  match get img "system:time_start" with
  | Some (PNum t) => Some t
  | _ => None
  end.

End Images.

Arguments Image G : clear implicits.

(** The backend's [ee.Number.round]: the integer nearest to its input. How
    a tie between two integers is broken is the backend's. *)
Class Rounding := {
  round : Q → Z;
  round_nearest : ∀ q : Q, (Qabs (inject_Z (round q) - q) <= 1 # 2)%Q;
  round_proper : ∀ q q' : Q, (q == q')%Q → round q = round q';
}.

(** The remote catalogs the loaders query. *)
Class Catalogs (G : Type) := {
  (** ["COPERNICUS/S2_SR_HARMONIZED"] *)
  S2_SR_HARMONIZED : list (Image G);
  (** ["JRC/GSW1_4/YearlyHistory"] *)
  JRC_YearlyHistory : list (Image G);
}.

(** *** Unsupervised classification, supplied by the backend *)
Class KMeans (G : Type) := {
  Training : Type;
  Clusterer : Type;
  (** [img.sample(region, scale, numPixels, seed)] *)
  sample : Image G → G → Z → Z → Z → Training;
  (** [ee.Clusterer.wekaKMeans(n).train(training)] *)
  wekaKMeans_train : nat → Training → Clusterer;
  (** [img.cluster(clusterer)]: one band of cluster indices *)
  cluster : Image G → Clusterer → Image G;
}.

End EE.

(** ** [threshold.py] *)

Module Threshold.
Import EE.

Section Classify.

Context {G : Type} {geo : Geometry G} {km : KMeans G}.

(** The loop body of [classify_kmeans]: the mean NDWI of cluster [i]. *)
Definition cluster_mean (ndwi_img clustered : Image G) (aoi : G) (i : nat)
  : result (option Q) :=
  let cluster_mask := EE.eq clustered (inject_Z (Z.of_nat i)) in
  let masked_ndwi := updateMask ndwi_img cluster_mask in
  reduceRegion_mean masked_ndwi aoi (10 ^ 8) "NDWI".

Definition cluster_means (ndwi_img clustered : Image G) (aoi : G) (n_clusters : nat)
  : result (list (option Q)) :=
  mapM (cluster_mean ndwi_img clustered aoi) (seq 0 n_clusters).

(** [ee.List(means).indexOf(ee.List(means).reduce(ee.Reducer.max()))]; a
    null maximum is not an argument [indexOf] accepts. *)
Definition flood_cluster_of (means : list (option Q)) : result Z :=
  match Reducer_max means with
  | Some m => Ok (indexOf means m)
  | None => Raise EEException
  end.

Definition clustered_image (ndwi_img : Image G) (aoi : G) (n_clusters : nat) : Image G :=
  let training := sample ndwi_img aoi 10 20000 42 in
  let clusterer := wekaKMeans_train n_clusters training in
  rename (cluster ndwi_img clusterer) "raw_cluster".

Definition classify_kmeans (ndwi_img : Image G) (aoi : G) (n_clusters : nat)
  : result (Image G) :=
  let clustered := clustered_image ndwi_img aoi n_clusters in
  (* Compute mean NDWI per cluster *)
  let* means := cluster_means ndwi_img clustered aoi n_clusters in
  let* flood_cluster := flood_cluster_of means in
  let flood_mask := rename (EE.eq clustered (inject_Z flood_cluster)) "flood_class" in
  Ok (set flood_mask "system:time_start" (get ndwi_img "system:time_start")).

End Classify.

(** The flood mask is the indicator of one cluster index. *)
Definition indicator_of (clustered : Raster) (i : Z) (mask : Raster) : Prop :=
  ∀ p : pixel,
    mask !! p = (λ c, if Qeq_bool c (inject_Z i) then 1%Q else 0%Q) <$> (clustered !! p).

End Threshold.

(** ** [filter.py] *)

Module Filter.
Import EE.

Section RemoveSmallArea.

Context {G : Type} {geo : Geometry G} {rnd : Rounding}.

(** Convert area to pixel count (10 m resolution = 100 m² per pixel):
    [ee.Number(min_area).divide(100).round()]. *)
Definition min_pixels (min_area : Q) : Z := round (min_area / 100).

Definition process_image (roi : G) (min_area : Q) (image : Image G) : Image G :=
  let date := get image "date" in
  let min_pixels := min_pixels min_area in
  (* Count connected pixels in each flood patch *)
  let patch_sizes := connectedPixelCount image 128 true in
  (* Mask out small patches *)
  let cleaned := clip (updateMask image (gte patch_sizes (inject_Z min_pixels))) roi in
  (* Convert flood pixels to depth = 1 *)
  let depth := toFloat (selfMask (rename cleaned "depth")) in
  set depth "date" date.

Definition remove_small_area (mask_collection : list (Image G)) (roi : G) (min_area : Q)
  : list (Image G) :=
  process_image roi min_area <$> mask_collection.

(** Sentinel-2 cloud mask from the scene classification band. *)
Definition mask_clouds (img : Image G) : Image G :=
  let scl := select img ["SCL"%string] in
  let cloud_shadow := EE.eq scl 3 in
  let cloud := EE.eq scl 8 in
  let cirrus := EE.eq scl 9 in
  let cloud_mask := rename (Or (Or cloud_shadow cloud) cirrus) "cloud_mask" in
  copyProperties cloud_mask img.

End RemoveSmallArea.

End Filter.

(** ** [mosaic.py] *)

Module Mosaic.
Import EE.

Section MosaicS2.

Context {G : Type} {geo : Geometry G}.

(** [ee.Date] of a missing timestamp is an evaluation error. *)
Definition add_date (img : Image G) : result (Image G) :=
  match time_start img with
  | Some t => Ok (set img "date" (Some (PStr (Date_format t))))
  | None => Raise EEException
  end.

Definition has_date (date : string) (img : Image G) : bool :=
  match get img "date" with
  | Some (PStr d) => bool_decide (d = date)
  | _ => false
  end.

(** [collection.filter(ee.Filter.eq('date', date))] *)
Definition daily_scenes (collection : list (Image G)) (date : string) : list (Image G) :=
  List.filter (has_date date) collection.

Definition mosaic_on_date (collection : list (Image G)) (roi : G) (date : string)
  : option (Image G) :=
  let daily := daily_scenes collection date in
  let merged_geometry := dissolve (collection_geometry daily) in
  let covers := contains merged_geometry roi 10 in
  let mosaic := clip (median daily) roi in
  let with_metadata :=
    set (set (set (set mosaic
      "date" (Some (PStr date)))
      "system:time_start" (PNum <$> Date_millis date))
      "coverage" (Some (PStr "full")))
      "image_count" (Some (PNum (Z.of_nat (length daily)))) in
  if covers then Some with_metadata else None.

(** [list.distinct()]: every element once, in order of first appearance. *)
Fixpoint distinct_from (seen l : list string) : list string :=
  match l with
  | [] => []
  | x :: l' =>
      if bool_decide (x ∈ seen) then distinct_from seen l'
      else x :: distinct_from (x :: seen) l'
  end.

Definition distinct (l : list string) : list string := distinct_from [] l.

Definition date_strings (collection : list (Image G)) : list string :=
  omap (λ v, match v with PStr d => Some d | PNum _ => None end)
       (aggregate_array collection "date").

Definition unique_dates (collection : list (Image G)) : list string :=
  distinct (date_strings collection).

Definition mosaic_s2 (collection : list (Image G)) (roi : G) : result (list (Image G)) :=
  let* collection := mapM add_date collection in
  let unique_dates := unique_dates collection in
  (* [unique_dates.map(mosaic_on_date)] holds a null for every date without
     full coverage; [removeAll([None])] removes them *)
  let mosaics := omap (mosaic_on_date collection roi) unique_dates in
  Ok mosaics.

(** The acquisition day of a scene, the scenes of one day and the union of
    their footprints, read off the input collection. *)
Definition acquisition_date (img : Image G) : option string :=
  Date_format <$> time_start img.

Definition scenes_on (collection : list (Image G)) (date : string) : list (Image G) :=
  List.filter (λ img, bool_decide (acquisition_date img = Some date)) collection.

Definition union_footprint (collection : list (Image G)) (date : string) : G :=
  collection_geometry (scenes_on collection date).

(** A collection with its ['date'] properties added, scene by scene. *)
Definition dated (collection dated_collection : list (Image G)) : Prop :=
  Forall2 (λ img d, ∃ t, time_start img = Some t
                         ∧ d = set img "date" (Some (PStr (Date_format t))))
          collection dated_collection.

End MosaicS2.

End Mosaic.

(** ** [upload.py] *)

Module Upload.
Import EE.

Section Loaders.

Context {G : Type} {geo : Geometry G} {cat : Catalogs G}.

Definition cloudy_pixel_percentage (img : Image G) : option Z :=
  match get img "CLOUDY_PIXEL_PERCENTAGE" with
  | Some (PNum n) => Some n
  | _ => None
  end.

(** [collection.filterDate(start, end)]: start inclusive, end exclusive. *)
Definition filterDate (c : list (Image G)) (start_ms end_ms : Z) : list (Image G) :=
  List.filter (λ img, match time_start img with
                      | Some t => (start_ms <=? t) && (t <? end_ms)
                      | None => false
                      end) c.

Definition load_s2_collection (aoi : G) (start_date end_date : string)
    (cloud_threshold : Z) : result (list (Image G)) :=
  let bands := ["B3"; "B8"; "SCL"]%string in
  let clip img := copyProperties (clip img aoi) img in
  match Date_millis start_date, Date_millis end_date with
  | Some start_ms, Some end_ms =>
      let in_bounds := List.filter (λ img, geom_intersects (footprint img) aoi)
                                   S2_SR_HARMONIZED in
      let in_dates := filterDate in_bounds start_ms end_ms in
      let clear := List.filter (λ img, match cloudy_pixel_percentage img with
                                       | Some n => n <? cloud_threshold
                                       | None => false
                                       end) in_dates in
      Ok ((λ img, clip (select img bands)) <$> clear)
  | _, _ => Raise EEException
  end.

(** [collection.limit(n, 'system:time_start', False)]: the [n] latest. *)
Fixpoint insert_latest (img : Image G) (l : list (Image G)) : list (Image G) :=
  match l with
  | [] => [img]
  | x :: l' =>
      if match time_start x, time_start img with
         | Some a, Some b => b <=? a
         | _, _ => true
         end
      then x :: insert_latest img l'
      else img :: l
  end.

Definition latest (n : nat) (c : list (Image G)) : list (Image G) :=
  take n (foldr insert_latest [] c).

Definition get_permanent_water (reference_date : string) : result (Image G) :=
  match Date_millis "1985-01-01", Date_millis reference_date with
  | Some start_ms, Some end_ms =>
      let water_history :=
        gt (unmask (sum ((λ img, EE.eq (select img ["waterClass"%string]) 3)
                           <$> latest 5 (filterDate JRC_YearlyHistory start_ms end_ms)))
                   0) 0 in
      Ok (rename water_history "permanent_water")
  | _, _ => Raise EEException
  end.

End Loaders.

End Upload.

(** ** [rename.py] *)

Module Rename.
Import EE.

Section LayerName.

Context {G : Type}.

Definition set_layer_name (prefix : string) (img : Image G) : result (Image G) :=
  match time_start img, get img "source" with
  | Some t, Some (PStr source) =>
      let date_str := Date_format t in
      let layer_name := (prefix ++ date_str ++ " (" ++ source ++ ")")%string in
      Ok (set img "layer_name" (Some (PStr layer_name)))
  | _, _ => Raise EEException
  end.

Definition add_layer_name (collection : list (Image G)) (prefix : string)
  : result (list (Image G)) :=
  mapM (set_layer_name prefix) collection.

End LayerName.

End Rename.

(** ** [opticalflood.py] *)

Module OpticalFlood.
Import EE Filter Threshold Mosaic Upload Rename.

(** What the client does against the backend while the function runs:
    everything else only builds a deferred computation. *)
Inductive Event :=
| GetInfo          (* a synchronous remote evaluation: [ee.Number(1).getInfo()] *)
| Initialize.      (* [ee.Initialize()] *)

Record Session := mkSession {
  initialized : bool;      (* is there an initialised session? *)
  credentials : bool;      (* can [ee.Initialize()] succeed? *)
  log : list Event;        (* the calls made, oldest first *)
}.

(** Small guard to ensure EE is initialized: a trivial server-side
    operation, and [ee.Initialize()] if it throws. *)
Definition ensure_ee_initialized (s : Session) : Session * result unit :=
  let s1 := mkSession (initialized s) (credentials s) (log s ++ [GetInfo]) in
  if initialized s then (s1, Ok tt)
  else
    let s2 := mkSession (credentials s) (credentials s) (log s1 ++ [Initialize]) in
    (s2, if credentials s then Ok tt else Raise EEException).

Section Pipeline.

Context {G : Type} {geo : Geometry G} {km : KMeans G} {rnd : Rounding}
        {cat : Catalogs G}.

(** Keep only flood where the permanent-water mask is not 1. *)
Definition suppress_permanent_water (flood permanent_water : Image G) : Image G :=
  where_ flood (EE.eq permanent_water 1) 0.

(** Keep only flood where the cloud mask is not 1. *)
Definition suppress_clouds (flood cloud_mask_img : Image G) : Image G :=
  where_ flood (EE.eq cloud_mask_img 1) 0.

(** Prepare NDWI + cloud mask *)
Definition prepare (img : Image G) : Image G :=
  let cloud_mask_img := mask_clouds img in
  let ndwi := rename (normalizedDifference img "B3" "B8") "NDWI" in
  copyProperties (addBands ndwi cloud_mask_img) img.

(** Classify + handle clouds & permanent water *)
Definition classify_and_mask (aoi : G) (permanent_water : Image G) (img : Image G)
  : result (Image G) :=
  let ndwi := select img ["NDWI"%string] in
  let cloud_mask_img := select img ["cloud_mask"%string] in
  let* labelled := classify_kmeans ndwi aoi 2 in
  let classified := rename labelled "depth" in
  (* Keep only flood (binary) *)
  let flood := EE.eq classified 1 in
  (* Mask out permanent water entirely (unknown) *)
  let flood := suppress_permanent_water flood permanent_water in
  (* Mask out clouds (unknown) *)
  let flood := suppress_clouds flood cloud_mask_img in
  let cleaned := rename (updateMask flood (EE.eq flood 1)) "depth" in
  let cleaned := set cleaned "system:time_start" (get img "system:time_start") in
  Ok cleaned.

(** Add metadata *)
Definition tag (add_metadata : option (gmap string PropVal)) (img : Image G) : Image G :=
  let meta : gmap string PropVal :=
    <["source" := PStr "S2"]> (<["sensor" := PStr "Sentinel-2"]>
      (<["algorithm" := PStr "kmeans_ndwi_v1"]> ∅)) in
  let meta := match add_metadata with
              | Some extra => if bool_decide (extra = ∅) then meta else extra ∪ meta
              | None => meta
              end in
  mkImage (bands img) (meta ∪ props img) (footprint img).

(** The deferred computation [opticflood_s2] returns: what evaluating the
    collection yields. *)
Definition flood_collection (aoi : G)
    (post_start_date post_end_date ref_start_date ref_end_date : string)
    (cloud_threshold : Z) (min_area : Q) (use_reference_for_permwater : bool)
    (add_metadata : option (gmap string PropVal)) : result (list (Image G)) :=
  (* 2) Load S2 + permanent water *)
  let* s2 := load_s2_collection aoi post_start_date post_end_date cloud_threshold in
  let* permanent_water :=
    if use_reference_for_permwater then get_permanent_water ref_start_date
    else get_permanent_water post_start_date in
  (* 3) Prepare NDWI + cloud mask *)
  let ndwi_collection := prepare <$> s2 in
  (* 4) Mosaic by date *)
  let* mosaicked := mosaic_s2 ndwi_collection aoi in
  (* 5) Classify + handle clouds & permanent water *)
  let* flood_ic := mapM (classify_and_mask aoi permanent_water) mosaicked in
  (* 6) Remove small patches *)
  let flood_ic := remove_small_area flood_ic aoi min_area in
  (* 7) Add metadata and layer names *)
  let flood_ic := tag add_metadata <$> flood_ic in
  add_layer_name flood_ic "Flood extent on ".

(** The call itself: the session after it, and either the exception it
    raised or the deferred collection it returned. *)
Definition opticflood_s2 (s : Session) (aoi : G) (flood_event_date : string) (lag : Z)
    (cloud_threshold : Z) (min_area : Q) (use_reference_for_permwater : bool)
    (add_metadata : option (gmap string PropVal)) (pad_year : bool)
  : Session * result (result (list (Image G))) :=
  let '(s, guard) := ensure_ee_initialized s in
  (s,
   let* _ := guard in
   (* 1) Dates *)
   let* ranges := get_date_ranges pad_year flood_event_date lag in
   let '(post_start_date, post_end_date, ref_start_date, ref_end_date) := ranges in
   Ok (flood_collection aoi post_start_date post_end_date ref_start_date ref_end_date
         cloud_threshold min_area use_reference_for_permwater add_metadata)).

End Pipeline.

End OpticalFlood.

(** ** A small concrete backend, to evaluate the pipeline on examples

    Geometries are finite sets of grid cells; the clusterer splits the
    values at the mean of the sampled ones (cluster 1 above, cluster 0 at or
    below it). *)

Module Fixture.
Import EE.

#[export] Instance cell_geometry : Geometry (gset pixel) := {|
  geom_empty := ∅;
  geom_union := (∪);
  geom_intersection := (∩);
  geom_intersects := λ a b, bool_decide (a ∩ b ≠ ∅);
  dissolve := λ g, g;
  contains := λ a b _, bool_decide (b ⊆ a);
  coverage := λ g p, if bool_decide (p ∈ g) then 1%Q else 0%Q;
  cells := λ g, g;
|}.

Definition sample_values (img : Image (gset pixel)) (region : gset pixel) : list Q :=
  (map_to_list (clip_raster (band0 img) region)).*2.

Definition mean_of (l : list Q) : Q :=
  match l with
  | [] => 0%Q
  | _ => (foldr Qplus 0%Q l / inject_Z (Z.of_nat (length l)))%Q
  end.

Definition split_at (thr : Q) (img : Image (gset pixel)) : Image (gset pixel) :=
  mkImage [("cluster"%string, gt_raster (band0 img) thr)] ∅ (footprint img).

#[export] Instance mean_split : KMeans (gset pixel) := {|
  Training := list Q;
  Clusterer := Q;
  sample := λ img region _ _ _, sample_values img region;
  wekaKMeans_train := λ _ training, mean_of training;
  cluster := λ img thr, split_at thr img;
|}.

(** Two nearest-integer roundings: ties away from minus infinity (Java's
    [Math.round]) and ties to the even integer ([Math.rint]). *)
Definition round_half_up (q : Q) : Z := Qfloor (q + (1 # 2)).

Definition round_half_even (q : Q) : Z :=
  let f := Qfloor q in
  match (q - inject_Z f ?= 1 # 2)%Q with
  | Lt => f
  | Gt => f + 1
  | Eq => if Z.even f then f else f + 1
  end.

Lemma round_half_up_nearest (q : Q) :
  (Qabs (inject_Z (round_half_up q) - q) <= 1 # 2)%Q.
Proof.
  unfold round_half_up. apply Qabs_Qle_condition.
  pose proof (Qfloor_le (q + (1 # 2))) as Hlo.
  pose proof (Qlt_floor (q + (1 # 2))) as Hhi.
  rewrite inject_Z_plus in Hhi. change (inject_Z 1) with 1%Q in Hhi.
  set (f := inject_Z (Qfloor (q + (1 # 2)))) in *. split; lra.
Qed.

Lemma round_half_up_proper (q q' : Q) : (q == q')%Q → round_half_up q = round_half_up q'.
Proof. intros Heq. unfold round_half_up. now rewrite Heq. Qed.

Lemma round_half_even_nearest (q : Q) :
  (Qabs (inject_Z (round_half_even q) - q) <= 1 # 2)%Q.
Proof.
  unfold round_half_even. apply Qabs_Qle_condition.
  pose proof (Qfloor_le q) as Hlo.
  pose proof (Qlt_floor q) as Hhi.
  rewrite inject_Z_plus in Hhi. change (inject_Z 1) with 1%Q in Hhi.
  destruct (q - inject_Z (Qfloor q) ?= 1 # 2)%Q eqn:E.
  - apply Qeq_alt in E. destruct (Z.even (Qfloor q));
      rewrite ?inject_Z_plus; change (inject_Z 1) with 1%Q;
      set (f := inject_Z (Qfloor q)) in *; split; lra.
  - apply Qlt_alt in E. set (f := inject_Z (Qfloor q)) in *. split; lra.
  - apply Qgt_alt in E. rewrite inject_Z_plus. change (inject_Z 1) with 1%Q.
    set (f := inject_Z (Qfloor q)) in *. split; lra.
Qed.

Lemma round_half_even_proper (q q' : Q) :
  (q == q')%Q → round_half_even q = round_half_even q'.
Proof.
  intros Heq. unfold round_half_even. cbv zeta.
  assert (Hf : Qfloor q = Qfloor q') by (now apply Qfloor_comp).
  rewrite Hf.
  assert (Hc : (q - inject_Z (Qfloor q') ?= 1 # 2)%Q
               = (q' - inject_Z (Qfloor q') ?= 1 # 2)%Q).
  { apply Qcompare_comp; [|reflexivity]. now rewrite Heq. }
  now rewrite Hc.
Qed.

#[export] Instance half_up : Rounding := {|
  round := round_half_up;
  round_nearest := round_half_up_nearest;
  round_proper := round_half_up_proper;
|}.

Definition half_even : Rounding := {|
  round := round_half_even;
  round_nearest := round_half_even_nearest;
  round_proper := round_half_even_proper;
|}.

(** A clusterer that labels a pixel by the parity of its column, whatever
    its value. *)
Definition column_parity (img : Image (gset pixel)) : Image (gset pixel) :=
  mkImage [("cluster"%string,
            map_imap (λ p _, Some (inject_Z (p.1 mod 2))) (band0 img))]
          ∅ (footprint img).

Definition column_split : KMeans (gset pixel) := {|
  Training := unit;
  Clusterer := unit;
  sample := λ _ _ _ _ _, tt;
  wekaKMeans_train := λ _ _, tt;
  cluster := λ img _, column_parity img;
|}.

(** The cells of the rectangle [[0, w) x [0, h)]. *)
Definition rect (w h : Z) : gset pixel :=
  list_to_set (p ← seqZ 0 w; (λ y, (p, y)) <$> seqZ 0 h).

Definition constant_raster (region : gset pixel) (v : Q) : Raster :=
  gset_to_gmap v region.

Definition ndwi_image (r : Raster) (region : gset pixel) : Image (gset pixel) :=
  mkImage [("NDWI"%string, r)] ∅ region.

(** A 2 x 2 scene of one uniform water-index value. *)
Definition uniform_ndwi : Image (gset pixel) :=
  ndwi_image (constant_raster (rect 2 2) (1 # 5)) (rect 2 2).

(** A 2 x 2 scene with a wet left column and a dry right column. *)
Definition split_ndwi : Image (gset pixel) :=
  ndwi_image (<[(0, 0) := 3 # 5]> (<[(0, 1) := 1 # 2]>
               (<[(1, 0) := (-1) # 5]> (<[(1, 1) := (-3) # 10]> ∅)))) (rect 2 2).

(** A flood mask with one patch of 13 x 10 = 130 flood pixels. *)
Definition block_mask : Image (gset pixel) :=
  mkImage [("depth"%string, constant_raster (rect 13 10) 1)] ∅ (rect 13 10).

(** *** Catalogs for a 2 x 2 area of interest *)

Definition millis_of (y m d : Z) : Z := (ymd2ord y m d - EPOCH_ORDINAL) * MS_PER_DAY.

Definition raster_of (l : list (pixel * Q)) : Raster := list_to_map l.

Definition scene (y m d : Z) (fp : gset pixel) (cloudy : Z) (b3 b8 scl : Raster)
  : Image (gset pixel) :=
  mkImage [("B3"%string, b3); ("B8"%string, b8); ("SCL"%string, scl);
           ("B11"%string, b8)]
          (<["system:time_start" := PNum (millis_of y m d)]>
             (<["CLOUDY_PIXEL_PERCENTAGE" := PNum cloudy]> ∅))
          fp.

(** Green and near-infrared reflectances: a wet left column, a dry right one;
    the scene classification flags cirrus at (1, 1). *)
Definition green : Raster :=
  raster_of [((0, 0), 3 # 10); ((0, 1), 3 # 10); ((1, 0), 1 # 10); ((1, 1), 1 # 10)].
Definition nir : Raster :=
  raster_of [((0, 0), 1 # 10); ((0, 1), 1 # 10); ((1, 0), 3 # 10); ((1, 1), 3 # 10)].
Definition classes : Raster :=
  raster_of [((0, 0), 6%Q); ((0, 1), 6%Q); ((1, 0), 4%Q); ((1, 1), 9%Q)].

Definition left_column (r : Raster) : Raster := clip_raster r (rect 1 2).

(** 16 July: one scene over the whole area. 18 July: one scene over the left
    column only. 25 July: past the end of a ten-day window. *)
Definition scenes : list (Image (gset pixel)) :=
  [ scene 2023 7 16 (rect 2 2) 10 green nir classes;
    scene 2023 7 18 (rect 1 2) 5 (left_column green) (left_column nir)
          (left_column classes);
    scene 2023 7 25 (rect 2 2) 90 green nir classes ].

(** One yearly water history: permanent water (class 3) at (0, 0). *)
Definition water_2020 : Image (gset pixel) :=
  mkImage [("waterClass"%string,
            raster_of [((0, 0), 3%Q); ((0, 1), 1%Q); ((1, 0), 1%Q); ((1, 1), 2%Q)])]
          (<["system:time_start" := PNum (millis_of 2020 1 1)]> ∅)
          (rect 2 2).

#[export] Instance catalogs : Catalogs (gset pixel) := {|
  S2_SR_HARMONIZED := scenes;
  JRC_YearlyHistory := [water_2020];
|}.

Definition session : OpticalFlood.Session :=
  OpticalFlood.mkSession true true [].

Definition no_image : Image (gset pixel) := mkImage [] ∅ ∅.

Definition first_image (r : result (list (Image (gset pixel)))) : Image (gset pixel) :=
  match r with
  | Ok (img :: _) => img
  | _ => no_image
  end.

(** The mosaic of 16 July, as the pipeline builds it for the event of
    15 July with a lag of 10 days, the permanent-water mask of that run and
    the classified and masked image of the mosaic. *)
Definition mosaic_16 : Image (gset pixel) :=
  first_image
    (let* s2 := Upload.load_s2_collection (rect 2 2) "2023-07-16" "2023-07-25" 60 in
     Mosaic.mosaic_s2 (OpticalFlood.prepare <$> s2) (rect 2 2)).

Definition permanent_water_16 : Image (gset pixel) :=
  match Upload.get_permanent_water "2023-06-15" with
  | Ok img => img
  | Raise _ => no_image
  end.

Definition cleaned_16 : Image (gset pixel) :=
  match OpticalFlood.classify_and_mask (rect 2 2) permanent_water_16 mosaic_16 with
  | Ok img => img
  | Raise _ => no_image
  end.

(** What an evaluated collection shows: per image the ['date'] property, the
    ['layer_name'] property and the unmasked pixels of the first band. *)
Definition summary (c : list (Image (gset pixel)))
  : list (option PropVal * option PropVal * list (pixel * Q)) :=
  (λ img, (get img "date", get img "layer_name", map_to_list (band0 img))) <$> c.

End Fixture.

(** ** Predicates used to state further properties *)

(** The ordinals [get_date_ranges] needs to stay inside [datetime]'s range. *)
Definition offsets_in_range (E : datetime) (post_lag before_start before_end : Z) : Prop :=
  1 ≤ toordinal E + 1 ≤ MAXORDINAL
  ∧ 1 ≤ toordinal E + post_lag ≤ MAXORDINAL
  ∧ 1 ≤ toordinal E - before_start ≤ MAXORDINAL
  ∧ 1 ≤ toordinal E - before_end ≤ MAXORDINAL.

(** What the caller's [add_metadata] holds for a key, and the source name a
    layer ends up with: the caller's when it is a string, ["S2"] when the
    caller gives none. *)
Definition caller_value (add_metadata : option (gmap string EE.PropVal)) (key : string)
  : option EE.PropVal :=
  match add_metadata with
  | Some extra => extra !! key
  | None => None
  end.

Definition source_name (add_metadata : option (gmap string EE.PropVal)) : option string :=
  match caller_value add_metadata "source" with
  | Some (EE.PStr s) => Some s
  | Some (EE.PNum _) => None
  | None => Some "S2"%string
  end.





(** ** Further sample values *)

Module Samples.
Import EE Fixture.

(** The flood mask of the split scene. *)
Definition split_mask : Image (gset pixel) :=
  match Threshold.classify_kmeans split_ndwi (rect 2 2) 2 with
  | Ok img => img
  | Raise _ => no_image
  end.

(** The scenes of the event of 15 July with a lag of 10 days, with their
    water index and cloud mask, as they reach [mosaic_s2]. *)
Definition prepared_scenes : list (Image (gset pixel)) :=
  match Upload.load_s2_collection (rect 2 2) "2023-07-16" "2023-07-25" 60 with
  | Ok s2 => OpticalFlood.prepare <$> s2
  | Raise _ => []
  end.

(** The catalog with the ['date'] of every scene added, and its scene of
    18 July. *)
Definition dated_scenes : list (Image (gset pixel)) :=
  match mapM Mosaic.add_date scenes with
  | Ok l => l
  | Raise _ => []
  end.

Definition scene_18 : Image (gset pixel) :=
  match dated_scenes with
  | _ :: img :: _ => img
  | _ => no_image
  end.

(** The water-index band of the mosaic of 16 July. *)
Definition ndwi_band_16 : string * Raster :=
  match bands mosaic_16 with
  | b :: _ => b
  | [] => (EmptyString, ∅)
  end.

(** The layers of the event of 15 July with a lag of 2 days. *)
Definition flood_layers : list (Image (gset pixel)) :=
  match OpticalFlood.flood_collection (rect 2 2) "2023-07-16" "2023-07-17"
          "2023-06-15" "2023-07-14" 60 100 true None with
  | Ok l => l
  | Raise _ => []
  end.

Definition flood_layer : Image (gset pixel) := first_image (Ok flood_layers).

End Samples.
(** ** Calendar arithmetic: ordinals against day-by-day stepping *)

Ltac zdiv := Z.div_mod_to_equations; lia.

Lemma valid_date_spec dt :
  valid_date dt = true ↔
  1 ≤ year dt ≤ 9999 ∧ 1 ≤ month dt ≤ 12 ∧ 1 ≤ day dt ≤ days_in_month (year dt) (month dt).
Proof. unfold valid_date, MINYEAR, MAXYEAR. rewrite !andb_true_iff, !Z.leb_le. lia. Qed.

Lemma month_cases m : 1 ≤ m ≤ 12 →
  m = 1 ∨ m = 2 ∨ m = 3 ∨ m = 4 ∨ m = 5 ∨ m = 6 ∨ m = 7 ∨ m = 8 ∨ m = 9
  ∨ m = 10 ∨ m = 11 ∨ m = 12.
Proof. lia. Qed.

Ltac each_month m H :=
  destruct (month_cases m H) as [->|[->|[->|[->|[->|[->|[->|[->|[->|[->|[->| ->]]]]]]]]]]].

Lemma is_leap_period y k : is_leap (y + 400 * k) = is_leap y.
Proof.
  unfold is_leap.
  replace ((y + 400 * k) mod 4) with (y mod 4) by zdiv.
  replace ((y + 400 * k) mod 100) with (y mod 100) by zdiv.
  replace ((y + 400 * k) mod 400) with (y mod 400) by zdiv.
  reflexivity.
Qed.

Lemma days_before_year_period y k :
  days_before_year (y + 400 * k) = days_before_year y + DI400Y * k.
Proof. unfold days_before_year, DI400Y. zdiv. Qed.

Lemma ymd2ord_period y m d k :
  ymd2ord (y + 400 * k) m d = ymd2ord y m d + DI400Y * k.
Proof.
  unfold ymd2ord, days_before_month.
  rewrite days_before_year_period, is_leap_period. lia.
Qed.

Lemma ord2ymd_period n k :
  ord2ymd (n + DI400Y * k) = shift_year k (ord2ymd n).
Proof.
  unfold ord2ymd.
  replace ((n + DI400Y * k - 1) / DI400Y) with ((n - 1) / DI400Y + k)
    by (unfold DI400Y; zdiv).
  replace ((n + DI400Y * k - 1) mod DI400Y) with ((n - 1) mod DI400Y)
    by (unfold DI400Y; zdiv).
  set (r := (n - 1) mod DI400Y).
  set (q := (n - 1) / DI400Y).
  repeat match goal with
         | |- context [if ?b then _ else _] => destruct b
         end; unfold shift_year; cbn [year month day]; f_equal; lia.
Qed.

Lemma forall_from_spec fuel lo P :
  forall_from fuel lo P = true → ∀ z, lo ≤ z < lo + Z.of_nat fuel → P z = true.
Proof.
  revert lo. induction fuel as [|f IH]; intros lo H z Hz; [lia|].
  cbn [forall_from] in H. apply andb_true_iff in H as [H0 H1].
  destruct (Z.eq_dec z lo) as [->|Hne]; [exact H0|].
  apply (IH (lo + 1) H1). lia.
Qed.

Lemma date_eqb_eq a b : date_eqb a b = true → a = b.
Proof.
  destruct a, b. unfold date_eqb. cbn [year month day].
  rewrite !andb_true_iff, !Z.eqb_eq. intros [[-> ->] ->]. reflexivity.
Qed.

Lemma cycle_roundtrip_true : forall_from cycle_slots 0 cycle_check = true.
Proof. vm_cast_no_check (eq_refl true). Qed.

Lemma days_in_month_le y m : 1 ≤ m ≤ 12 → 28 ≤ days_in_month y m ≤ 31.
Proof.
  intros H. unfold days_in_month.
  each_month m H; destruct (is_leap y); cbn; lia.
Qed.

Lemma days_in_month_period y m k : days_in_month (y + 400 * k) m = days_in_month y m.
Proof. unfold days_in_month. now rewrite is_leap_period. Qed.

(** Within the first cycle the ordinal of a date converts back to it. *)
Lemma ord2ymd_ymd2ord_cycle y m d :
  1 ≤ y ≤ 400 → 1 ≤ m ≤ 12 → 1 ≤ d ≤ days_in_month y m →
  ord2ymd (ymd2ord y m d) = mkDate y m d.
Proof.
  intros Hy Hm Hd.
  pose proof (days_in_month_le y m Hm) as Hdim.
  set (i := (y - 1) * 372 + (m - 1) * 31 + (d - 1)).
  assert (H : cycle_check i = true).
  { apply (forall_from_spec cycle_slots 0 cycle_check cycle_roundtrip_true).
    unfold cycle_slots, i. lia. }
  unfold cycle_check in H.
  replace (1 + i / 372) with y in H by (unfold i; zdiv).
  replace (1 + (i / 31) mod 12) with m in H by (unfold i; zdiv).
  replace (1 + i mod 31) with d in H by (unfold i; zdiv).
  unfold roundtrip_at in H. apply orb_true_iff in H as [H|H].
  - apply Z.ltb_lt in H. lia.
  - now apply date_eqb_eq.
Qed.

(** [fromordinal (toordinal dt) = dt] for every date the constructor accepts
    (in fact for every year from 1 on). *)
Lemma ord2ymd_toordinal dt :
  1 ≤ year dt → 1 ≤ month dt ≤ 12 → 1 ≤ day dt ≤ days_in_month (year dt) (month dt) →
  ord2ymd (toordinal dt) = dt.
Proof.
  destruct dt as [y m d]. cbn [year month day]. intros Hy Hm Hd.
  unfold toordinal. cbn [year month day].
  set (k := (y - 1) / 400). set (r := (y - 1) mod 400 + 1).
  assert (Hyr : y = r + 400 * k) by (unfold k, r; zdiv).
  assert (Hr : 1 ≤ r ≤ 400) by (unfold r; zdiv).
  rewrite Hyr in Hd |- *. rewrite days_in_month_period in Hd.
  rewrite ymd2ord_period, ord2ymd_period.
  rewrite ord2ymd_ymd2ord_cycle by assumption.
  reflexivity.
Qed.

Lemma days_before_year_succ y :
  days_before_year (y + 1) = days_before_year y + 365 + (if is_leap y then 1 else 0).
Proof.
  unfold days_before_year, is_leap.
  replace (y + 1 - 1) with y by lia.
  destruct (y mod 4 =? 0) eqn:H4; destruct (y mod 100 =? 0) eqn:H100;
    destruct (y mod 400 =? 0) eqn:H400; cbn [negb andb orb];
    rewrite ?Z.eqb_eq, ?Z.eqb_neq in *; zdiv.
Qed.

Lemma days_before_month_succ y m : 1 ≤ m < 12 →
  days_before_month y (m + 1) = days_before_month y m + days_in_month y m.
Proof.
  intros H. unfold days_before_month, days_in_month.
  assert (Hm : 1 ≤ m ≤ 12) by lia.
  each_month m Hm; try lia; destruct (is_leap y); reflexivity.
Qed.

Lemma next_day_ordinal dt :
  valid_date dt = true → toordinal (next_day dt) = toordinal dt + 1.
Proof.
  rewrite valid_date_spec. destruct dt as [y m d]. cbn [year month day].
  intros (Hy & Hm & Hd). unfold next_day, toordinal. cbn [year month day].
  destruct (d <? days_in_month y m) eqn:E1; [cbn [year month day]; unfold ymd2ord; lia|].
  apply Z.ltb_ge in E1. assert (d = days_in_month y m) as -> by lia.
  destruct (m <? 12) eqn:E2; cbn [year month day]; unfold ymd2ord.
  - apply Z.ltb_lt in E2. rewrite days_before_month_succ by lia. lia.
  - apply Z.ltb_ge in E2. assert (m = 12) as -> by lia.
    rewrite days_before_year_succ.
    unfold days_before_month, days_in_month. destruct (is_leap y); cbn; lia.
Qed.

Lemma next_day_valid dt :
  valid_date dt = true → toordinal dt < MAXORDINAL → valid_date (next_day dt) = true.
Proof.
  intros Hv Hlt. pose proof Hv as Hv'. rewrite valid_date_spec in Hv'.
  destruct dt as [y m d]. cbn [year month day] in *.
  destruct Hv' as (Hy & Hm & Hd).
  apply valid_date_spec. unfold next_day. cbn [year month day].
  destruct (d <? days_in_month y m) eqn:E1.
  { apply Z.ltb_lt in E1. cbn [year month day]. lia. }
  destruct (m <? 12) eqn:E2; cbn [year month day].
  - apply Z.ltb_lt in E2.
    pose proof (days_in_month_le y (m + 1)). lia.
  - apply Z.ltb_ge in E1, E2. assert (m = 12) by lia. subst m.
    assert (days_in_month y 12 = 31) as E by (unfold days_in_month; reflexivity).
    assert (days_in_month (y + 1) 1 = 31) by (unfold days_in_month; reflexivity).
    assert (y ≠ 9999); [|lia].
    intros ->. unfold toordinal, MAXORDINAL in Hlt. cbn [year month day] in Hlt.
    assert (d = 31) as -> by lia. vm_compute in Hlt. discriminate.
Qed.

Lemma prev_day_ordinal dt :
  valid_date dt = true → toordinal (prev_day dt) = toordinal dt - 1.
Proof.
  rewrite valid_date_spec. destruct dt as [y m d]. cbn [year month day].
  intros (Hy & Hm & Hd). unfold prev_day, toordinal. cbn [year month day].
  destruct (1 <? d) eqn:E1; [cbn [year month day]; unfold ymd2ord; lia|].
  apply Z.ltb_ge in E1. assert (d = 1) as -> by lia.
  destruct (1 <? m) eqn:E2; cbn [year month day]; unfold ymd2ord.
  - apply Z.ltb_lt in E2.
    pose proof (days_before_month_succ y (m - 1)) as H.
    replace (m - 1 + 1) with m in H by lia. rewrite H by lia. lia.
  - apply Z.ltb_ge in E2. assert (m = 1) as -> by lia.
    pose proof (days_before_year_succ (y - 1)) as H.
    replace (y - 1 + 1) with y in H by lia. rewrite H.
    unfold days_before_month. destruct (is_leap (y - 1)); cbn; lia.
Qed.

Lemma prev_day_valid dt :
  valid_date dt = true → 1 < toordinal dt → valid_date (prev_day dt) = true.
Proof.
  intros Hv Hlt. pose proof Hv as Hv'. rewrite valid_date_spec in Hv'.
  destruct dt as [y m d]. cbn [year month day] in *.
  destruct Hv' as (Hy & Hm & Hd).
  apply valid_date_spec. unfold prev_day. cbn [year month day].
  destruct (1 <? d) eqn:E1.
  { apply Z.ltb_lt in E1. cbn [year month day]. lia. }
  destruct (1 <? m) eqn:E2; cbn [year month day].
  - apply Z.ltb_lt in E2.
    pose proof (days_in_month_le y (m - 1)). lia.
  - apply Z.ltb_ge in E1, E2. assert (m = 1) by lia. subst m.
    assert (days_in_month (y - 1) 12 = 31) by (unfold days_in_month; reflexivity).
    assert (y ≠ 1); [|lia].
    intros ->. unfold toordinal in Hlt. cbn [year month day] in Hlt.
    assert (d = 1) as -> by lia. vm_compute in Hlt. discriminate.
Qed.

Lemma iter_next_day dt (k : nat) :
  valid_date dt = true → toordinal dt + Z.of_nat k ≤ MAXORDINAL →
  valid_date (Nat.iter k next_day dt) = true
  ∧ toordinal (Nat.iter k next_day dt) = toordinal dt + Z.of_nat k.
Proof.
  intros Hv. induction k as [|k IH]; intros Hk.
  - cbn [Nat.iter nat_rect]. split; [assumption|lia].
  - destruct IH as [IHv IHo]; [lia|].
    change (Nat.iter (S k) next_day dt) with (next_day (Nat.iter k next_day dt)). split.
    + apply next_day_valid; [assumption|lia].
    + rewrite next_day_ordinal by assumption. lia.
Qed.

Lemma iter_prev_day dt (k : nat) :
  valid_date dt = true → 1 ≤ toordinal dt - Z.of_nat k →
  valid_date (Nat.iter k prev_day dt) = true
  ∧ toordinal (Nat.iter k prev_day dt) = toordinal dt - Z.of_nat k.
Proof.
  intros Hv. induction k as [|k IH]; intros Hk.
  - cbn [Nat.iter nat_rect]. split; [assumption|lia].
  - destruct IH as [IHv IHo]; [lia|].
    change (Nat.iter (S k) prev_day dt) with (prev_day (Nat.iter k prev_day dt)). split.
    + apply prev_day_valid; [assumption|lia].
    + rewrite prev_day_ordinal by assumption. lia.
Qed.

Lemma calendar_shift_spec dt n :
  valid_date dt = true → 1 ≤ toordinal dt + n ≤ MAXORDINAL →
  valid_date (calendar_shift dt n) = true
  ∧ toordinal (calendar_shift dt n) = toordinal dt + n.
Proof.
  intros Hv Hn. unfold calendar_shift.
  destruct (0 <=? n) eqn:E.
  - apply Z.leb_le in E.
    destruct (iter_next_day dt (Z.to_nat n) Hv) as [H1 H2]; [lia|].
    split; [assumption|]. rewrite H2. lia.
  - apply Z.leb_gt in E.
    destruct (iter_prev_day dt (Z.to_nat (- n)) Hv) as [H1 H2]; [lia|].
    split; [assumption|]. rewrite H2. lia.
Qed.

(** Ordinal arithmetic is day-by-day calendar stepping. *)
Lemma add_days_calendar dt n :
  valid_date dt = true → 1 ≤ toordinal dt + n ≤ MAXORDINAL →
  add_days dt n = Ok (calendar_shift dt n).
Proof.
  intros Hv Hn. unfold add_days.
  destruct (calendar_shift_spec dt n Hv Hn) as [Hv' Ho].
  replace ((0 <? toordinal dt + n) && (toordinal dt + n <=? MAXORDINAL)) with true
    by (symmetry; apply andb_true_iff; rewrite Z.ltb_lt, Z.leb_le; lia).
  f_equal. rewrite <- Ho. apply valid_date_spec in Hv'.
  apply ord2ymd_toordinal; lia.
Qed.

Lemma add_days_overflow dt n :
  ¬ (1 ≤ toordinal dt + n ≤ MAXORDINAL) → add_days dt n = Raise OverflowError.
Proof.
  intros Hn. unfold add_days.
  destruct ((0 <? toordinal dt + n) && (toordinal dt + n <=? MAXORDINAL)) eqn:E;
    [|reflexivity].
  apply andb_true_iff in E. rewrite Z.ltb_lt, Z.leb_le in E. lia.
Qed.

Lemma strptime_valid s dt : strptime s = Ok dt → valid_date dt = true.
Proof.
  unfold strptime. destruct (re_match s) as [[[[y m] d] rest]|]; [|discriminate].
  destruct rest; [|discriminate].
  destruct (valid_date (mkDate y m d)) eqn:E; [|discriminate].
  intros [= <-]. exact E.
Qed.

Lemma days_before_year_mono a b : a ≤ b → days_before_year a ≤ days_before_year b.
Proof. unfold days_before_year. intros H. zdiv. Qed.

Lemma toordinal_year_bounds dt :
  valid_date dt = true →
  days_before_year (year dt) < toordinal dt ≤ days_before_year (year dt + 1).
Proof.
  rewrite valid_date_spec. destruct dt as [y m d]. cbn [year month day].
  intros (Hy & Hm & Hd). unfold toordinal, ymd2ord. cbn [year month day].
  rewrite days_before_year_succ.
  unfold days_before_month, days_in_month in *.
  each_month m Hm; destruct (is_leap y); cbn in *; lia.
Qed.

(** Later dates are not in earlier years. *)
Lemma year_mono a b :
  valid_date a = true → valid_date b = true → toordinal a ≤ toordinal b →
  year a ≤ year b.
Proof.
  intros Ha Hb Hab.
  pose proof (toordinal_year_bounds a Ha) as [Ha1 _].
  pose proof (toordinal_year_bounds b Hb) as [_ Hb2].
  destruct (Z_le_gt_dec (year a) (year b)) as [|Hgt]; [assumption|].
  pose proof (days_before_year_mono (year b + 1) (year a)). lia.
Qed.

Lemma decimal_four_digits n : 1000 ≤ n → decimal n = zfill4 n.
Proof.
  intros H. unfold decimal.
  destruct (n <? 10) eqn:E1; [apply Z.ltb_lt in E1; lia|].
  destruct (n <? 100) eqn:E2; [apply Z.ltb_lt in E2; lia|].
  destruct (n <? 1000) eqn:E3; [apply Z.ltb_lt in E3; lia|].
  reflexivity.
Qed.

Lemma strftime_iso pad dt : pad = true ∨ 1000 ≤ year dt → strftime pad dt = iso_format dt.
Proof.
  intros [-> | H]; unfold strftime, iso_format; [reflexivity|].
  destruct pad; [reflexivity|]. now rewrite decimal_four_digits.
Qed.


(** ** [get_date_ranges]: the four window boundaries *)

Lemma digit_val_digit_char k : 0 ≤ k ≤ 9 → digit_val (digit_char k) = Some k.
Proof.
  intros H.
  assert (k = 0 ∨ k = 1 ∨ k = 2 ∨ k = 3 ∨ k = 4 ∨ k = 5 ∨ k = 6 ∨ k = 7 ∨ k = 8 ∨ k = 9)
    as [->|[->|[->|[->|[->|[->|[->|[->|[->| ->]]]]]]]]] by lia; reflexivity.
Qed.

Lemma month_day_parse (y m d : Z) :
  1 ≤ m ≤ 12 → 1 ≤ d ≤ 31 →
  hyphen (first_alt month_alts (fun m' =>
    hyphen (first_alt day_alts (fun d' r => Some (y, m', d', r)))))
    ("-" ++ zfill2 m ++ "-" ++ zfill2 d)%string
  = Some (y, m, d, EmptyString).
Proof.
  intros Hm Hd.
  assert (Hd' : d = 1 ∨ d = 2 ∨ d = 3 ∨ d = 4 ∨ d = 5 ∨ d = 6 ∨ d = 7 ∨ d = 8
                ∨ d = 9 ∨ d = 10 ∨ 11 ≤ d ≤ 20 ∨ 21 ≤ d ≤ 31) by lia.
  each_month m Hm;
    (destruct Hd' as [->|[->|[->|[->|[->|[->|[->|[->|[->|[->|[Hd'|Hd']]]]]]]]]]];
     [ reflexivity ..
     | assert (d = 11 ∨ d = 12 ∨ d = 13 ∨ d = 14 ∨ d = 15 ∨ d = 16 ∨ d = 17
               ∨ d = 18 ∨ d = 19 ∨ d = 20)
         as [->|[->|[->|[->|[->|[->|[->|[->|[->| ->]]]]]]]]] by lia; reflexivity
     | assert (d = 21 ∨ d = 22 ∨ d = 23 ∨ d = 24 ∨ d = 25 ∨ d = 26 ∨ d = 27
               ∨ d = 28 ∨ d = 29 ∨ d = 30 ∨ d = 31)
         as [->|[->|[->|[->|[->|[->|[->|[->|[->|[->| ->]]]]]]]]]] by lia;
       reflexivity ]).
Qed.

(** What [iso_format] prints is a [YYYY-MM-DD] string: ten characters that
    [strptime] reads back as the same date. *)
Lemma strptime_iso_format dt :
  valid_date dt = true →
  strptime (iso_format dt) = Ok dt ∧ String.length (iso_format dt) = 10%nat.
Proof.
  intros Hv. pose proof Hv as Hv'. apply valid_date_spec in Hv'.
  destruct dt as [y m d]. cbn [year month day] in Hv'.
  destruct Hv' as (Hy & Hm & Hd).
  pose proof (days_in_month_le y m Hm) as Hdim.
  split; [|reflexivity].
  assert (Hfmt : iso_format (mkDate y m d)
          = String (digit_char (y / 1000)) (String (digit_char (y / 100 mod 10))
              (String (digit_char (y mod 100 / 10))
                 (String (digit_char (y mod 100 mod 10))
                    ("-" ++ zfill2 m ++ "-" ++ zfill2 d)%string)))) by reflexivity.
  rewrite Hfmt. unfold strptime, re_match, four_digits.
  rewrite !digit_val_digit_char by zdiv.
  replace (1000 * (y / 1000) + 100 * (y / 100 mod 10)
           + 10 * (y mod 100 / 10) + y mod 100 mod 10) with y by zdiv.
  rewrite month_day_parse by lia.
  now rewrite Hv.
Qed.

(** C4 (amended): for every event-date string that [strptime] accepts as the
    date [E] and every lag [L >= 0], provided the earliest result [E - 30]
    days and the latest result [E + max(1, L)] days stay within the dates
    [datetime] supports (0001-01-01 to 9999-12-31), and provided the
    platform's [%Y] pads the year or no result falls before the year 1000,
    [get_date_ranges] returns the strings [YYYY-MM-DD] of [E + 1] day,
    [E + L] days, [E - 30] days and [E - 1] day, each obtained by stepping
    through the calendar one day at a time with month and year rollover. *)
Theorem get_date_ranges_calendar (pad : bool) (s : string) (E : datetime) (L : Z) :
  strptime s = Ok E →
  0 ≤ L →
  30 < toordinal E →
  toordinal E + Z.max 1 L ≤ MAXORDINAL →
  pad = true ∨ 1000 ≤ year (calendar_shift E (-30)) →
  get_date_ranges pad s L
  = Ok (iso_format (calendar_shift E 1),
        iso_format (calendar_shift E L),
        iso_format (calendar_shift E (-30)),
        iso_format (calendar_shift E (-1))).
Proof.
  intros Hs HL Hlo Hhi Hpad.
  pose proof (strptime_valid s E Hs) as Hv.
  assert (Hord : 1 ≤ toordinal E ≤ MAXORDINAL) by lia.
  unfold get_date_ranges, get_date_ranges_with, sub_days.
  change (- (30)) with (-30). change (- (1)) with (-1).
  rewrite Hs. cbn [bind].
  rewrite (add_days_calendar E 1 Hv) by lia. cbn [bind].
  rewrite (add_days_calendar E L Hv) by lia. cbn [bind].
  rewrite (add_days_calendar E (-30) Hv) by lia. cbn [bind].
  rewrite (add_days_calendar E (-1) Hv) by lia. cbn [bind].
  destruct (calendar_shift_spec E (-30) Hv) as [V0 O0]; [lia|].
  assert (Hyear : ∀ n, -30 ≤ n → toordinal E + n ≤ MAXORDINAL →
            pad = true ∨ 1000 ≤ year (calendar_shift E n)).
  { intros n Hn1 Hn2. destruct Hpad as [-> | Hy]; [now left | right].
    destruct (calendar_shift_spec E n Hv) as [V O]; [lia|].
    pose proof (year_mono _ _ V0 V). lia. }
  rewrite !strftime_iso by (apply Hyear; lia).
  reflexivity.
Qed.

Lemma get_date_ranges_calendar_witness :
  get_date_ranges false "2023-12-25" 10
  = Ok ("2023-12-26", "2024-01-04", "2023-11-25", "2023-12-24")%string.
Proof.
  refine (get_date_ranges_calendar false "2023-12-25" (mkDate 2023 12 25) 10 _ _ _ _ _).
  - reflexivity.
  - lia.
  - vm_compute. reflexivity.
  - vm_compute. discriminate.
  - right. vm_compute. discriminate.
Defined.

(** C4 as stated fails: "0001-01-15" is a date [strptime] accepts and 5 is a
    non-negative lag, yet [E - 30] days precedes [datetime.min] and the call
    raises [OverflowError] instead of returning four dates. *)
Lemma get_date_ranges_not_total :
  ¬ (∀ (pad : bool) (s : string) (E : datetime) (L : Z),
       strptime s = Ok E → 0 ≤ L →
       get_date_ranges pad s L
       = Ok (iso_format (calendar_shift E 1), iso_format (calendar_shift E L),
             iso_format (calendar_shift E (-30)), iso_format (calendar_shift E (-1)))).
Proof.
  intros H.
  specialize (H true "0001-01-15"%string (mkDate 1 1 15) 5 eq_refl ltac:(lia)).
  vm_compute in H. discriminate.
Qed.

Example get_date_ranges_overflow_low :
  get_date_ranges true "0001-01-15" 5 = Raise OverflowError.
Proof. vm_compute. reflexivity. Qed.

Example get_date_ranges_overflow_high :
  get_date_ranges true "9999-12-31" 0 = Raise OverflowError.
Proof. vm_compute. reflexivity. Qed.

Example get_date_ranges_scenario :
  get_date_ranges true "2023-07-15" 10
  = Ok ("2023-07-16", "2023-07-25", "2023-06-15", "2023-07-14")%string.
Proof. vm_compute. reflexivity. Qed.

Example get_date_ranges_leap_day :
  get_date_ranges false "2024-03-01" 0
  = Ok ("2024-03-02", "2024-03-01", "2024-01-31", "2024-02-29")%string.
Proof. vm_compute. reflexivity. Qed.

(** ** Pixelwise behaviour of the image operations *)

Section ImageLemmas.
Import EE.

Context {G : Type} {geo : Geometry G}.

Lemma nonzero_bool_to_Q (b : bool) : nonzero (Some (bool_to_Q b)) = b.
Proof. now destruct b. Qed.

Lemma eq_raster_lookup (r : Raster) (c : Q) (p : pixel) :
  eq_raster r c !! p = (λ v, bool_to_Q (Qeq_bool v c)) <$> (r !! p).
Proof. unfold eq_raster. apply lookup_fmap. Qed.

Lemma gte_raster_lookup (r : Raster) (c : Q) (p : pixel) :
  gte_raster r c !! p = (λ v, bool_to_Q (Qle_bool c v)) <$> (r !! p).
Proof. unfold gte_raster. apply lookup_fmap. Qed.

Lemma eq_raster_nonzero (r : Raster) (c : Q) (p : pixel) :
  nonzero (eq_raster r c !! p) = same_value r c p.
Proof.
  rewrite eq_raster_lookup. unfold same_value.
  destruct (r !! p) as [w|]; cbn [fmap option_fmap option_map]; [|reflexivity].
  apply nonzero_bool_to_Q.
Qed.

Lemma updateMask_raster_lookup (r mask : Raster) (p : pixel) :
  updateMask_raster r mask !! p = if nonzero (mask !! p) then r !! p else None.
Proof.
  unfold updateMask_raster. rewrite map_lookup_imap.
  destruct (r !! p), (nonzero (mask !! p)); reflexivity.
Qed.

Lemma where_raster_lookup (r test : Raster) (c : Q) (p : pixel) :
  where_raster r test c !! p
  = (λ v, if nonzero (test !! p) then c else v) <$> (r !! p).
Proof.
  unfold where_raster. rewrite map_lookup_imap.
  destruct (r !! p); reflexivity.
Qed.

Lemma clip_raster_lookup (r : Raster) (g : G) (p : pixel) :
  clip_raster r g !! p = if Qle_bool (coverage g p) 0 then None else r !! p.
Proof.
  unfold clip_raster. rewrite map_lookup_imap.
  destruct (r !! p), (Qle_bool (coverage g p) 0); reflexivity.
Qed.

Lemma connectedPixelCount_raster_lookup (r : Raster) (maxSize : Z) (eight : bool)
    (p : pixel) :
  connectedPixelCount_raster r maxSize eight !! p
  = (λ _, inject_Z (Z.min (patch_size r eight p) maxSize)) <$> (r !! p).
Proof.
  unfold connectedPixelCount_raster. rewrite map_lookup_imap.
  destruct (r !! p); reflexivity.
Qed.

Lemma map_imap_empty_raster (f : pixel → Q → option Q) : map_imap f (∅ : Raster) = ∅.
Proof. apply map_eq. intros p. now rewrite map_lookup_imap, lookup_empty. Qed.

Lemma band0_map_bands (f : Raster → Raster) (img : Image G) pr (fp : G) :
  f ∅ = ∅ → band0 (mkImage (map_bands f img) pr fp) = f (band0 img).
Proof.
  intros Hf. unfold band0, map_bands. cbn [bands].
  destruct (bands img) as [|[n r] l]; [now rewrite Hf | reflexivity].
Qed.

Lemma band0_rename (img : Image G) name : band0 (rename img name) = band0 img.
Proof.
  unfold band0, rename. cbn [bands].
  destruct (bands img) as [|[n r] l]; reflexivity.
Qed.

Lemma band0_set (img : Image G) key v : band0 (set img key v) = band0 img.
Proof. unfold set. destruct v; reflexivity. Qed.

Lemma band0_eq (img : Image G) c : band0 (EE.eq img c) = eq_raster (band0 img) c.
Proof. apply (band0_map_bands (λ r, eq_raster r c)). apply fmap_empty. Qed.

Lemma band0_gte (img : Image G) c : band0 (gte img c) = gte_raster (band0 img) c.
Proof. apply (band0_map_bands (λ r, gte_raster r c)). apply fmap_empty. Qed.

Lemma band0_where (img t : Image G) (c : Q) :
  band0 (where_ img t c) = where_raster (band0 img) (band0 t) c.
Proof.
  apply (band0_map_bands (λ r, where_raster r (band0 t) c)).
  apply map_imap_empty_raster.
Qed.

Lemma band0_updateMask (img mask : Image G) :
  band0 (updateMask img mask) = updateMask_raster (band0 img) (band0 mask).
Proof.
  apply (band0_map_bands (λ r, updateMask_raster r (band0 mask))).
  apply map_imap_empty_raster.
Qed.

Lemma band0_clip (img : Image G) (g : G) :
  band0 (clip img g) = clip_raster (band0 img) g.
Proof.
  apply (band0_map_bands (λ r, clip_raster r g)). apply map_imap_empty_raster.
Qed.

Lemma band0_selfMask (img : Image G) :
  band0 (selfMask img) = updateMask_raster (band0 img) (band0 img).
Proof.
  unfold selfMask, band0, map_bands. cbn [bands].
  destruct (bands img) as [|[n r] l]; [|reflexivity].
  symmetry. apply map_imap_empty_raster.
Qed.

Lemma band0_connectedPixelCount (img : Image G) (maxSize : Z) (eight : bool) :
  band0 (connectedPixelCount img maxSize eight)
  = connectedPixelCount_raster (band0 img) maxSize eight.
Proof.
  apply (band0_map_bands (λ r, connectedPixelCount_raster r maxSize eight)).
  apply map_imap_empty_raster.
Qed.

Lemma get_set_eq (img : Image G) key v : get (set img key v) key = v.
Proof.
  unfold get, set. destruct v; cbn [props].
  - apply lookup_insert_eq.
  - apply lookup_delete_eq.
Qed.

Lemma get_set_ne (img : Image G) key key' v :
  key ≠ key' → get (set img key v) key' = get img key'.
Proof.
  intros Hne. unfold get, set. destruct v; cbn [props].
  - now apply lookup_insert_ne.
  - now apply lookup_delete_ne.
Qed.

End ImageLemmas.

(** ** [classify_kmeans]: which cluster is the flood cluster *)

Section ThresholdProofs.
Import EE Threshold.

Context {G : Type} {geo : Geometry G} {km : KMeans G}.

Lemma classify_kmeans_unfold (ndwi_img : Image G) aoi n means i :
  cluster_means ndwi_img (clustered_image ndwi_img aoi n) aoi n = Ok means →
  flood_cluster_of means = Ok i →
  ∃ mask, classify_kmeans ndwi_img aoi n = Ok mask
          ∧ indicator_of (band0 (clustered_image ndwi_img aoi n)) i (band0 mask).
Proof.
  intros Hm Hi. unfold classify_kmeans. rewrite Hm. cbn [bind]. rewrite Hi. cbn [bind].
  eexists. split; [reflexivity|].
  intros p. rewrite band0_set, band0_rename, band0_eq.
  unfold eq_raster. rewrite lookup_fmap.
  destruct (band0 (clustered_image ndwi_img aoi n) !! p) as [c|]; cbn; [|reflexivity].
  now destruct (Qeq_bool c (inject_Z i)).
Qed.

Lemma flood_cluster_two (a b : Q) :
  flood_cluster_of [Some a; Some b] = Ok (if Qle_bool b a then 0 else 1).
Proof.
  unfold flood_cluster_of, Reducer_max, Qmax. cbn [foldl indexOf].
  destruct (Qle_bool a b) eqn:Eab.
  - destruct (Qeq_bool a b) eqn:Eq.
    + apply Qeq_bool_iff in Eq.
      assert (Qle_bool b a = true) as -> by (apply Qle_bool_iff; rewrite Eq; apply Qle_refl).
      reflexivity.
    + assert (Qle_bool b a = false) as ->.
      { apply not_true_is_false. intros Hba.
        apply Qle_bool_iff in Hba, Eab.
        apply Qeq_bool_neq in Eq. apply Eq. now apply Qle_antisym. }
      assert (Qeq_bool b b = true) as -> by (apply Qeq_bool_iff; reflexivity).
      reflexivity.
  - assert (Qeq_bool a a = true) as -> by (apply Qeq_bool_iff; reflexivity).
    assert (Qle_bool b a = true) as ->; [|reflexivity].
    apply Qle_bool_iff. destruct (Qlt_le_dec a b) as [Hlt|Hle]; [|assumption].
    apply Qlt_le_weak, Qle_bool_iff in Hlt. congruence.
Qed.

Lemma flood_cluster_second_only (m : Q) : flood_cluster_of [None; Some m] = Ok 1.
Proof.
  unfold flood_cluster_of, Reducer_max. cbn [foldl indexOf].
  assert (Qeq_bool m m = true) as -> by (apply Qeq_bool_iff; reflexivity).
  reflexivity.
Qed.

Lemma flood_cluster_first_only (m : Q) : flood_cluster_of [Some m; None] = Ok 0.
Proof.
  unfold flood_cluster_of, Reducer_max. cbn [foldl indexOf].
  assert (Qeq_bool m m = true) as -> by (apply Qeq_bool_iff; reflexivity).
  reflexivity.
Qed.

(** C1: when the two cluster means are defined and distinct, the flood
    cluster is the one with the greater mean (cluster 1 when [m0 < m1],
    cluster 0 when [m1 < m0]), and the flood mask is, pixel for pixel, the
    indicator of the cluster assignment being that index: 1 there, 0 on the
    other cluster, masked where the assignment is masked. *)
Theorem classify_kmeans_higher_mean (ndwi_img : Image G) (aoi : G) (m0 m1 : Q) :
  cluster_means ndwi_img (clustered_image ndwi_img aoi 2) aoi 2
    = Ok [Some m0; Some m1] →
  ¬ (m0 == m1)%Q →
  ∃ (mask : Image G) (hi : Z),
    classify_kmeans ndwi_img aoi 2 = Ok mask
    ∧ flood_cluster_of [Some m0; Some m1] = Ok hi
    ∧ ((m0 < m1)%Q → hi = 1)
    ∧ ((m1 < m0)%Q → hi = 0)
    ∧ indicator_of (band0 (clustered_image ndwi_img aoi 2)) hi (band0 mask).
Proof.
  intros Hmeans Hne.
  pose proof (flood_cluster_two m0 m1) as Hfc.
  destruct (classify_kmeans_unfold _ _ _ _ _ Hmeans Hfc) as (mask & Hok & Hind).
  exists mask, (if Qle_bool m1 m0 then 0 else 1).
  repeat split; try assumption.
  - intros Hlt. destruct (Qle_bool m1 m0) eqn:E; [|reflexivity].
    apply Qle_bool_iff in E. exfalso. exact (Qlt_not_le _ _ Hlt E).
  - intros Hlt. destruct (Qle_bool m1 m0) eqn:E; [reflexivity|].
    apply Qlt_le_weak, Qle_bool_iff in Hlt. congruence.
Qed.

(** C10: when the two cluster means are exactly equal the selection does not
    fail; the first cluster (index 0) is the flood cluster and the flood mask
    is the indicator of cluster 0. *)
Theorem classify_kmeans_tie (ndwi_img : Image G) (aoi : G) (m0 m1 : Q) :
  cluster_means ndwi_img (clustered_image ndwi_img aoi 2) aoi 2
    = Ok [Some m0; Some m1] →
  (m0 == m1)%Q →
  flood_cluster_of [Some m0; Some m1] = Ok 0
  ∧ ∃ mask : Image G,
      classify_kmeans ndwi_img aoi 2 = Ok mask
      ∧ indicator_of (band0 (clustered_image ndwi_img aoi 2)) 0 (band0 mask).
Proof.
  intros Hmeans Heq.
  assert (Hfc : flood_cluster_of [Some m0; Some m1] = Ok 0).
  { rewrite flood_cluster_two.
    assert (Qle_bool m1 m0 = true) as ->; [|reflexivity].
    apply Qle_bool_iff. rewrite Heq. apply Qle_refl. }
  split; [exact Hfc|].
  exact (classify_kmeans_unfold _ _ _ _ _ Hmeans Hfc).
Qed.

(** C2 (amended): [classify_kmeans] does not check that the cluster means
    are defined. When exactly one of the two means is undefined, no error is
    reported: the maximum is taken over the defined mean alone, and the
    cluster whose mean is defined is the flood cluster. *)
Theorem classify_kmeans_one_mean_undefined
    (ndwi_img : Image G) (aoi : G) (means : list (option Q)) (m : Q) (i : Z) :
  cluster_means ndwi_img (clustered_image ndwi_img aoi 2) aoi 2 = Ok means →
  (means = [None; Some m] ∧ i = 1) ∨ (means = [Some m; None] ∧ i = 0) →
  ∃ mask : Image G,
    classify_kmeans ndwi_img aoi 2 = Ok mask
    ∧ indicator_of (band0 (clustered_image ndwi_img aoi 2)) i (band0 mask).
Proof.
  intros Hmeans [[-> ->] | [-> ->]].
  - exact (classify_kmeans_unfold _ _ _ _ _ Hmeans (flood_cluster_second_only m)).
  - exact (classify_kmeans_unfold _ _ _ _ _ Hmeans (flood_cluster_first_only m)).
Qed.

End ThresholdProofs.

Section ThresholdExamples.
Import EE Threshold Fixture.

Lemma classify_kmeans_higher_mean_witness :
  ∃ (mask : Image (gset pixel)) (hi : Z),
    classify_kmeans split_ndwi (rect 2 2) 2 = Ok mask
    ∧ flood_cluster_of [Some (-25 # 100)%Q; Some (11 # 20)%Q] = Ok hi
    ∧ ((-25 # 100 < 11 # 20)%Q → hi = 1)
    ∧ ((11 # 20 < -25 # 100)%Q → hi = 0)
    ∧ indicator_of (band0 (clustered_image split_ndwi (rect 2 2) 2)) hi (band0 mask).
Proof.
  apply (classify_kmeans_higher_mean split_ndwi (rect 2 2) (-25 # 100) (11 # 20)).
  - vm_compute. reflexivity.
  - intros Heq. vm_compute in Heq. discriminate.
Defined.

Lemma classify_kmeans_tie_witness :
  flood_cluster_of [Some (10 # 50)%Q; Some (10 # 50)%Q] = Ok 0
  ∧ ∃ mask : Image (gset pixel),
      classify_kmeans (km := column_split) uniform_ndwi (rect 2 2) 2 = Ok mask
      ∧ indicator_of
          (band0 (clustered_image (km := column_split) uniform_ndwi (rect 2 2) 2))
          0 (band0 mask).
Proof.
  apply (classify_kmeans_tie (km := column_split) uniform_ndwi (rect 2 2)
           (10 # 50) (10 # 50)).
  - vm_compute. reflexivity.
  - reflexivity.
Defined.

Lemma classify_kmeans_one_mean_undefined_witness :
  ∃ mask : Image (gset pixel),
    classify_kmeans uniform_ndwi (rect 2 2) 2 = Ok mask
    ∧ indicator_of (band0 (clustered_image uniform_ndwi (rect 2 2) 2)) 0 (band0 mask).
Proof.
  apply (classify_kmeans_one_mean_undefined uniform_ndwi (rect 2 2)
           [Some (500 # 2500)%Q; None] (500 # 2500) 0).
  - vm_compute. reflexivity.
  - right. split; reflexivity.
Defined.

(** C2 as stated fails: on a scene of one uniform water-index value the
    second cluster is empty and its mean undefined, yet no error is reported
    and every pixel is classified as flood. *)
Lemma classify_kmeans_undefined_mean_not_reported :
  ¬ (∀ (ndwi_img : Image (gset pixel)) (aoi : gset pixel) (means : list (option Q)),
       cluster_means ndwi_img (clustered_image ndwi_img aoi 2) aoi 2 = Ok means →
       None ∈ means →
       is_ok (classify_kmeans ndwi_img aoi 2) = false).
Proof.
  intros Hclaim.
  assert (Hok : is_ok (classify_kmeans uniform_ndwi (rect 2 2) 2) = true)
    by (vm_compute; reflexivity).
  rewrite (Hclaim uniform_ndwi (rect 2 2) [Some (500 # 2500)%Q; None]) in Hok.
  - discriminate.
  - vm_compute. reflexivity.
  - apply list_elem_of_In. right. left. reflexivity.
Qed.

Example uniform_ndwi_all_flood :
  (λ m, map_to_list (band0 m)) <$> classify_kmeans uniform_ndwi (rect 2 2) 2
  = Ok [((0, 1), 1%Q); ((0, 0), 1%Q); ((1, 0), 1%Q); ((1, 1), 1%Q)].
Proof. vm_compute. reflexivity. Qed.

Example split_ndwi_flood_mask :
  (λ m, map_to_list (band0 m)) <$> classify_kmeans split_ndwi (rect 2 2) 2
  = Ok [((0, 1), 1%Q); ((0, 0), 1%Q); ((1, 0), 0%Q); ((1, 1), 0%Q)].
Proof. vm_compute. reflexivity. Qed.

End ThresholdExamples.


(** ** Permanent-water and cloud suppression *)

Section SuppressionProofs.
Import EE OpticalFlood.

Context {G : Type} {geo : Geometry G}.

Lemma where_raster_comm (r t1 t2 : Raster) (c : Q) :
  where_raster (where_raster r t1 c) t2 c = where_raster (where_raster r t2 c) t1 c.
Proof.
  apply map_eq. intros p. rewrite !where_raster_lookup.
  destruct (r !! p) as [v|]; cbn; [|reflexivity].
  destruct (nonzero (t1 !! p)), (nonzero (t2 !! p)); reflexivity.
Qed.

Lemma where_raster_idemp (r t : Raster) (c : Q) :
  where_raster (where_raster r t c) t c = where_raster r t c.
Proof.
  apply map_eq. intros p. rewrite !where_raster_lookup.
  destruct (r !! p) as [v|]; cbn; [|reflexivity].
  destruct (nonzero (t !! p)); reflexivity.
Qed.

Lemma map_bands_where_where (img : Image G) (t1 t2 : Raster) (c : Q) :
  map_bands (λ r, where_raster r t2 c)
    (mkImage (map_bands (λ r, where_raster r t1 c) img) (props img) (footprint img))
  = (λ '(n, r), (n, where_raster (where_raster r t1 c) t2 c)) <$> bands img.
Proof.
  unfold map_bands. cbn [bands]. rewrite <- list_fmap_compose.
  apply list_fmap_ext. intros _ [n r] _. reflexivity.
Qed.

Lemma where_where (img t1 t2 : Image G) (c : Q) :
  where_ (where_ img t1 c) t2 c
  = mkImage ((λ '(n, r), (n, where_raster (where_raster r (band0 t1) c) (band0 t2) c))
               <$> bands img) (props img) (footprint img).
Proof.
  unfold where_ at 1. cbn [props footprint]. f_equal.
  unfold where_. apply map_bands_where_where.
Qed.

Lemma where_comm (img t1 t2 : Image G) (c : Q) :
  where_ (where_ img t1 c) t2 c = where_ (where_ img t2 c) t1 c.
Proof.
  rewrite !where_where. f_equal.
  apply list_fmap_ext. intros _ [n r] _. now rewrite where_raster_comm.
Qed.

Lemma where_idemp (img t : Image G) (c : Q) :
  where_ (where_ img t c) t c = where_ img t c.
Proof.
  rewrite where_where. unfold where_, map_bands. f_equal.
  apply list_fmap_ext. intros _ [n r] _. now rewrite where_raster_idemp.
Qed.

(** What a suppression does to one pixel of the flood mask: 0 where the
    suppressing mask is 1, unchanged elsewhere. *)
Lemma suppress_pixel (flood mask : Image G) (p : pixel) :
  band0 (where_ flood (EE.eq mask 1) 0) !! p
  = (λ v, if same_value (band0 mask) 1 p then 0%Q else v) <$> (band0 flood !! p).
Proof.
  now rewrite band0_where, where_raster_lookup, band0_eq, eq_raster_nonzero.
Qed.

(** C7: forcing the flood pixels to 0 where the permanent-water mask is 1
    and forcing them to 0 where the cloud mask is 1 commute, and each of the
    two steps applied twice is the step applied once: the resulting flood
    mask is the same image, pixel for pixel. *)
Theorem suppression_order_independent_idempotent
    (flood permanent_water cloud_mask_img : Image G) :
  suppress_clouds (suppress_permanent_water flood permanent_water) cloud_mask_img
  = suppress_permanent_water (suppress_clouds flood cloud_mask_img) permanent_water
  ∧ suppress_permanent_water (suppress_permanent_water flood permanent_water)
      permanent_water
    = suppress_permanent_water flood permanent_water
  ∧ suppress_clouds (suppress_clouds flood cloud_mask_img) cloud_mask_img
    = suppress_clouds flood cloud_mask_img
  ∧ ∀ p : pixel,
      band0 (suppress_clouds (suppress_permanent_water flood permanent_water)
               cloud_mask_img) !! p
      = (λ v, if same_value (band0 permanent_water) 1 p
                 || same_value (band0 cloud_mask_img) 1 p
              then 0%Q else v) <$> (band0 flood !! p).
Proof.
  unfold suppress_clouds, suppress_permanent_water.
  split; [apply where_comm|].
  split; [apply where_idemp|].
  split; [apply where_idemp|].
  intros p. rewrite !suppress_pixel.
  destruct (band0 flood !! p) as [v|]; cbn; [|reflexivity].
  destruct (same_value (band0 permanent_water) 1 p),
    (same_value (band0 cloud_mask_img) 1 p); reflexivity.
Qed.

End SuppressionProofs.

(** ** The flood fill computes the connected patch *)

Section PatchProofs.
Import EE.

Variables (r : Raster) (eight : bool) (v : Q) (p : pixel).
Hypothesis start_value : same_value r v p = true.

Local Abbreviation fill_invariant := (EE.fill_invariant r eight v p).
Local Abbreviation fill_measure := (EE.fill_measure r).

Lemma neighbours_length (q : pixel) : (length (neighbours eight q) ≤ 8)%nat.
Proof. destruct q as [x y]. unfold neighbours. destruct eight; cbn; lia. Qed.

Lemma same_value_dom (q : pixel) : same_value r v q = true → q ∈ dom r.
Proof.
  unfold same_value. destruct (r !! q) eqn:E; [|discriminate].
  intros _. apply elem_of_dom. eauto.
Qed.

Lemma size_unseen_insert (q : pixel) (seen : gset pixel) :
  q ∈ dom r → q ∉ seen →
  S (size (dom r ∖ ({[q]} ∪ seen))) = size (dom r ∖ seen).
Proof.
  intros Hq Hs.
  assert (Heq : dom r ∖ seen = {[q]} ∪ dom r ∖ ({[q]} ∪ seen)).
  { apply set_eq. intros x. rewrite elem_of_union, !elem_of_difference,
      elem_of_union, !elem_of_singleton.
    destruct (decide (x = q)) as [-> | Hne]; tauto. }
  rewrite Heq.
  rewrite (size_union (C := gset pixel) {[q]}).
  - now rewrite size_singleton.
  - intros x. rewrite elem_of_singleton, elem_of_difference, elem_of_union,
      elem_of_singleton. tauto.
Qed.

Lemma fill_invariant_push (q : pixel) rest seen :
  fill_invariant (q :: rest) seen → q ∉ seen → same_value r v q = true →
  fill_invariant (neighbours eight q ++ rest) ({[q]} ∪ seen).
Proof.
  intros [Hconn Horig Hclosed Hstart] Hq Hv.
  assert (Hcq : connected r eight v p q).
  { destruct (Horig q) as [-> | (s & Hs & Hn)]; [now left | now constructor |].
    exact (connected_step _ _ _ _ s q (Hconn s Hs) Hn Hv). }
  assert (Hsub : ∀ s, s ∈ seen → s ∈ {[q]} ∪ seen)
    by (intros s Hs; apply elem_of_union; now right).
  assert (Hqin : q ∈ {[q]} ∪ seen)
    by (apply elem_of_union; left; now apply elem_of_singleton).
  split.
  - intros s. rewrite elem_of_union, elem_of_singleton.
    intros [-> | Hs]; [exact Hcq | now apply Hconn].
  - intros f. rewrite elem_of_app. intros [Hf | Hf].
    + right. exists q. split; [exact Hqin | exact Hf].
    + destruct (Horig f) as [-> | (s & Hs & Hn)]; [now right | now left |].
      right. exists s. split; [now apply Hsub | exact Hn].
  - intros s n. rewrite elem_of_union, elem_of_singleton. intros [-> | Hs] Hn Hnv.
    + right. apply elem_of_app. now left.
    + destruct (Hclosed s n Hs Hn Hnv) as [Hin | Hin]; [left; now apply Hsub|].
      apply elem_of_cons in Hin as [-> | Hin]; [now left|].
      right. apply elem_of_app. now right.
  - destruct Hstart as [Hs | Hs]; [left; now apply Hsub|].
    apply elem_of_cons in Hs as [-> | Hs]; [now left|].
    right. apply elem_of_app. now right.
Qed.

Lemma fill_invariant_pop (q : pixel) rest seen :
  fill_invariant (q :: rest) seen →
  (q ∈ seen ∨ same_value r v q = false) →
  fill_invariant rest seen.
Proof.
  intros [Hconn Horig Hclosed Hstart] Hq.
  assert (Hseen : same_value r v q = true → q ∈ seen).
  { intros Hv. destruct Hq as [Hq | Hq]; [assumption | congruence]. }
  split.
  - exact Hconn.
  - intros f Hf. apply Horig. now right.
  - intros s n Hs Hn Hnv.
    destruct (Hclosed s n Hs Hn Hnv) as [Hin | Hin]; [now left|].
    apply elem_of_cons in Hin as [-> | Hin]; [|now right].
    left. now apply Hseen.
  - destruct Hstart as [Hs | Hs]; [now left|].
    apply elem_of_cons in Hs as [<- | Hs]; [|now right].
    left. now apply Hseen.
Qed.

(** With fuel for every remaining step the fill ends on an empty frontier. *)
Lemma flood_fill_invariant (fuel : nat) :
  ∀ frontier seen,
    fill_invariant frontier seen →
    (fill_measure frontier seen ≤ fuel)%nat →
    fill_invariant [] (flood_fill fuel r eight v frontier seen).
Proof.
  induction fuel as [|fuel IH]; intros frontier seen Hinv Hm.
  - unfold fill_measure in Hm. destruct frontier; [exact Hinv | cbn in Hm; lia].
  - cbn [flood_fill]. destruct frontier as [|q rest]; [exact Hinv|].
    destruct (bool_decide (q ∉ seen) && same_value r v q) eqn:E.
    + apply andb_true_iff in E as [Hq Hv]. apply bool_decide_eq_true in Hq.
      apply IH; [now apply fill_invariant_push|].
      unfold fill_measure in *. rewrite length_app.
      pose proof (neighbours_length q).
      pose proof (size_unseen_insert q seen (same_value_dom q Hv) Hq).
      cbn [length] in Hm. lia.
    + apply IH.
      * apply (fill_invariant_pop q); [assumption|].
        apply andb_false_iff in E as [E | E]; [left | now right].
        apply bool_decide_eq_false in E.
        destruct (decide (q ∈ seen)); [assumption | contradiction].
      * unfold fill_measure in *. cbn [length] in Hm. lia.
Qed.

Lemma closed_contains_connected (seen : gset pixel) (q : pixel) :
  fill_invariant [] seen → connected r eight v p q → q ∈ seen.
Proof.
  intros [_ _ Hclosed Hstart]. induction 1 as [_ | q q' _ IH Hn Hv].
  - destruct Hstart as [Hs | Hs]; [assumption | now apply elem_of_nil in Hs].
  - destruct (Hclosed q q' IH Hn Hv) as [Hs | Hs];
      [assumption | now apply elem_of_nil in Hs].
Qed.

Lemma flood_fill_connected (q : pixel) :
  q ∈ flood_fill (8 * size r + 2) r eight v [p] ∅ ↔ connected r eight v p q.
Proof.
  assert (Hinv : fill_invariant [] (flood_fill (8 * size r + 2) r eight v [p] ∅)).
  { apply flood_fill_invariant.
    - split.
      + intros s Hs. now apply elem_of_empty in Hs.
      + intros f Hf. apply list_elem_of_singleton in Hf. now left.
      + intros s n Hs. now apply elem_of_empty in Hs.
      + right. now apply list_elem_of_singleton.
    - unfold fill_measure. cbn [length].
      assert (dom r ∖ (∅ : gset pixel) = dom r) as ->.
      { apply set_eq. intros x. rewrite elem_of_difference, elem_of_empty. tauto. }
      rewrite size_dom. lia. }
  split.
  - apply (seen_connected _ _ _ _ _ _ Hinv).
  - now apply closed_contains_connected.
Qed.

End PatchProofs.

(** The patch of an unmasked pixel is the set of the pixels connected to it
    through adjacent unmasked pixels of its value; the patch of a masked
    pixel is empty. *)
Lemma patch_connected (r : EE.Raster) (eight : bool) (p q : EE.pixel) :
  q ∈ EE.patch r eight p ↔ ∃ v, r !! p = Some v ∧ EE.connected r eight v p q.
Proof.
  unfold EE.patch. destruct (r !! p) as [v|] eqn:Ep.
  - assert (Hv : EE.same_value r v p = true).
    { unfold EE.same_value. rewrite Ep. apply Qeq_bool_iff. reflexivity. }
    rewrite (flood_fill_connected r eight v p Hv). split.
    + intros Hc. now exists v.
    + intros (w & [= <-] & Hc). exact Hc.
  - split; [intros H; now apply elem_of_empty in H | intros (w & [=] & _)].
Qed.

(** ** [remove_small_area]: threshold and patch filter *)

Section FilterProofs.
Import EE Filter.

Context {G : Type} {geo : Geometry G} {rnd : Rounding}.

Lemma round_integer (q : Q) (z : Z) : (q == inject_Z z)%Q → round q = z.
Proof.
  intros Hq. pose proof (round_nearest q) as Hn.
  apply Qabs_Qle_condition in Hn. destruct Hn as [Hlo Hhi].
  assert (H1 : (inject_Z (round q - z) <= 1 # 2)%Q).
  { unfold Z.sub. rewrite inject_Z_plus, inject_Z_opp.
    set (a := inject_Z (round q)) in *. set (b := inject_Z z) in *. lra. }
  assert (H2 : (- (1 # 2) <= inject_Z (round q - z))%Q).
  { unfold Z.sub. rewrite inject_Z_plus, inject_Z_opp.
    set (a := inject_Z (round q)) in *. set (b := inject_Z z) in *. lra. }
  unfold Qle, inject_Z in H1, H2. cbn in H1, H2. lia.
Qed.

Lemma round_between (q : Q) (z : Z) :
  (inject_Z z < q)%Q → (q < inject_Z z + 1)%Q → round q = z ∨ round q = z + 1.
Proof.
  intros Hlo Hhi. pose proof (round_nearest q) as Hn.
  apply Qabs_Qle_condition in Hn. destruct Hn as [H1 H2].
  assert (Ha : (inject_Z (round q - z) < 3 # 2)%Q).
  { unfold Z.sub. rewrite inject_Z_plus, inject_Z_opp.
    set (a := inject_Z (round q)) in *. set (b := inject_Z z) in *. lra. }
  assert (Hb : (- (1 # 2) < inject_Z (round q - z))%Q).
  { unfold Z.sub. rewrite inject_Z_plus, inject_Z_opp.
    set (a := inject_Z (round q)) in *. set (b := inject_Z z) in *. lra. }
  unfold Qlt, inject_Z in Ha, Hb. cbn in Ha, Hb. lia.
Qed.

(** C8: the threshold is the area divided by 100 m² per pixel, rounded to
    the nearest integer by the backend's one rounding function: 10000 m²
    gives exactly 100 pixels, 250 m² gives 2 or 3 pixels (whichever the
    backend's rule for ties gives, the same at every call), and the result
    is always within one half of [min_area / 100] and depends on the value
    of [min_area] only. *)
Theorem min_pixels_conversion :
  min_pixels 10000 = 100
  ∧ (min_pixels 250 = 2 ∨ min_pixels 250 = 3)
  ∧ (∀ min_area : Q,
       (Qabs (inject_Z (min_pixels min_area) - min_area / 100) <= 1 # 2)%Q)
  ∧ (∀ a b : Q, (a == b)%Q → min_pixels a = min_pixels b).
Proof.
  unfold min_pixels. repeat split.
  - apply round_integer. reflexivity.
  - apply round_between; reflexivity.
  - intros a. apply round_nearest.
  - intros a b Hab. apply round_proper. now rewrite Hab.
Qed.

(** The patch filter, pixel by pixel, for every threshold: a pixel of the
    output is unmasked, with its input value, exactly when it is an unmasked
    non-zero pixel of the input, the region covers it and its patch size
    counted up to 128 reaches the threshold. *)
Lemma process_image_pixel (roi : G) (min_area : Q) (image : Image G) (p : pixel) :
  band0 (process_image roi min_area image) !! p
  = match band0 image !! p with
    | Some v =>
        if negb (Qeq_bool v 0)
           && negb (Qle_bool (coverage roi p) 0)
           && (min_pixels min_area <=? Z.min (patch_size (band0 image) true p) 128)
        then Some v else None
    | None => None
    end.
Proof.
  unfold process_image, toFloat.
  rewrite band0_set, band0_selfMask, band0_rename, band0_clip, band0_updateMask,
    band0_gte, band0_connectedPixelCount.
  rewrite updateMask_raster_lookup, clip_raster_lookup, updateMask_raster_lookup,
    gte_raster_lookup, connectedPixelCount_raster_lookup.
  destruct (band0 image !! p) as [v|] eqn:Ev; cbn [fmap option_fmap option_map].
  - rewrite nonzero_bool_to_Q.
    assert (Hle : Qle_bool (inject_Z (min_pixels min_area))
                    (inject_Z (Z.min (patch_size (band0 image) true p) 128))
                  = (min_pixels min_area <=? Z.min (patch_size (band0 image) true p) 128)).
    { apply eq_true_iff_eq. rewrite Qle_bool_iff, Z.leb_le, Zle_Qle. reflexivity. }
    rewrite Hle.
    destruct (Qle_bool (coverage roi p) 0),
      (min_pixels min_area <=? Z.min (patch_size (band0 image) true p) 128);
      cbn [nonzero negb andb];
      destruct (Qeq_bool v 0); reflexivity.
  - destruct (Qle_bool (coverage roi p) 0); reflexivity.
Qed.

(** C6 (amended): for a pixel threshold of at most 128, the patch filter
    retains (inside the region of interest) exactly the flood pixels whose
    8-connected patch size is at least the threshold, with their value;
    patches larger than the cap of 128 are among them. The patch of a pixel
    is the set of the pixels joined to it by a chain of adjacent (diagonals
    included) unmasked pixels of the same value. *)
Theorem process_image_retains (roi : G) (min_area : Q) (image : Image G) (p : pixel) :
  min_pixels min_area ≤ 128 →
  ∀ v : Q,
    (band0 (process_image roi min_area image) !! p = Some v
     ↔ band0 image !! p = Some v
       ∧ ¬ (v == 0)%Q
       ∧ (0 < coverage roi p)%Q
       ∧ min_pixels min_area ≤ patch_size (band0 image) true p)
    ∧ (band0 image !! p = Some v →
       ∀ q : pixel, q ∈ patch (band0 image) true p
                    ↔ connected (band0 image) true v p q).
Proof.
  intros Hcap v. split.
  2:{ intros Hp q. rewrite patch_connected. split.
      - intros (w & Hw & Hc). now replace v with w by congruence.
      - intros Hc. now exists v. }
  rewrite process_image_pixel.
  destruct (band0 image !! p) as [w|]; [|split; [discriminate | intros [[=] _]]].
  destruct (Qeq_bool w 0) eqn:E0.
  { apply Qeq_bool_iff in E0. cbn [negb andb].
    split; [discriminate|]. intros ([= ->] & Hnz & _). contradiction. }
  apply Qeq_bool_neq in E0.
  destruct (Qle_bool (coverage roi p) 0) eqn:Ec.
  { apply Qle_bool_iff in Ec. cbn [negb andb].
    split; [discriminate|]. intros (_ & _ & Hc & _).
    exfalso. exact (Qlt_not_le _ _ Hc Ec). }
  assert (Hc : (0 < coverage roi p)%Q).
  { apply Qnot_le_lt. intros Hle. apply Qle_bool_iff in Hle. congruence. }
  cbn [negb andb].
  destruct (min_pixels min_area <=? Z.min (patch_size (band0 image) true p) 128) eqn:Em.
  - apply Z.leb_le in Em. split.
    + intros [= ->]. repeat split; try assumption. lia.
    + intros ([= ->] & _). reflexivity.
  - apply Z.leb_gt in Em. split; [discriminate|].
    intros (_ & _ & _ & Hp). lia.
Qed.

End FilterProofs.

Section FilterExamples.
Import EE Filter Fixture.

Lemma process_image_retains_witness :
  band0 (process_image (rect 13 10) 10000 block_mask) !! (0, 0) = Some 1%Q
  ↔ band0 block_mask !! (0, 0) = Some 1%Q
    ∧ ¬ (1 == 0)%Q
    ∧ (0 < coverage (rect 13 10) (0%Z, 0%Z))%Q
    ∧ min_pixels 10000 ≤ patch_size (band0 block_mask) true (0, 0).
Proof.
  apply (process_image_retains (rect 13 10) 10000 block_mask (0, 0)).
  vm_compute. discriminate.
Defined.

(** C6 as stated fails: with a threshold of 200 pixels (20000 m²) a patch of
    130 pixels, larger than the cap of 128, is not retained, although the
    statement treats every patch above the cap as meeting any threshold. *)
Lemma process_image_cap_below_threshold :
  ¬ (∀ (roi : gset pixel) (min_area : Q) (image : Image (gset pixel)) (p : pixel) (v : Q),
       band0 (process_image roi min_area image) !! p = Some v
       ↔ band0 image !! p = Some v
         ∧ ¬ (v == 0)%Q
         ∧ (0 < coverage roi p)%Q
         ∧ (min_pixels min_area ≤ patch_size (band0 image) true p
            ∨ 128 < patch_size (band0 image) true p)).
Proof.
  intros Hclaim.
  destruct (Hclaim (rect 13 10) 20000%Q block_mask (0, 0) 1%Q) as [_ Hback].
  assert (Hout : band0 (process_image (rect 13 10) 20000 block_mask) !! (0, 0) = None)
    by (vm_compute; reflexivity).
  assert (Hin : band0 (process_image (rect 13 10) 20000 block_mask) !! (0, 0)
                = Some 1%Q); [apply Hback | congruence].
  split; [vm_compute; reflexivity|].
  split; [intros H; vm_compute in H; discriminate|].
  split; [vm_compute; reflexivity|].
  right. vm_compute. reflexivity.
Qed.

Example block_patch_size : patch_size (band0 block_mask) true (0, 0) = 130.
Proof. vm_compute. reflexivity. Qed.

Example block_dropped_at_200 :
  min_pixels 20000 = 200
  ∧ size (band0 (process_image (rect 13 10) 20000 block_mask)) = 0%nat.
Proof. split; vm_compute; reflexivity. Qed.

Example block_kept_at_100 :
  min_pixels 10000 = 100
  ∧ size (band0 (process_image (rect 13 10) 10000 block_mask)) = 130%nat.
Proof. split; vm_compute; reflexivity. Qed.

Example min_pixels_default : min_pixels 10000 = 100.
Proof. reflexivity. Qed.

Example min_pixels_tie_half_up : min_pixels (rnd := half_up) 250 = 3.
Proof. reflexivity. Qed.

Example min_pixels_tie_half_even : min_pixels (rnd := half_even) 250 = 2.
Proof. reflexivity. Qed.

End FilterExamples.

(** ** [mosaic_s2]: one mosaic per fully covered date *)

Section MosaicProofs.
Import EE Mosaic.

Context {G : Type} {geo : Geometry G}.

Lemma distinct_from_elem (seen l : list string) (x : string) :
  x ∈ distinct_from seen l ↔ x ∈ l ∧ x ∉ seen.
Proof.
  revert seen. induction l as [|y l IH]; intros seen; cbn [distinct_from].
  - rewrite !elem_of_nil. tauto.
  - case_bool_decide as Hy.
    + rewrite IH, elem_of_cons. split.
      * intros [Hx Hs]. split; [now right | assumption].
      * intros [[-> | Hx] Hs]; [contradiction | now split].
    + rewrite !elem_of_cons, IH, elem_of_cons. split.
      * intros [-> | [Hx Hs]]; [split; [now left | assumption]|].
        split; [now right | tauto].
      * intros [[-> | Hx] Hs]; [now left|].
        destruct (decide (x = y)) as [-> | Hne]; [now left | right].
        split; [assumption | tauto].
Qed.

Lemma distinct_from_NoDup (seen l : list string) : NoDup (distinct_from seen l).
Proof.
  revert seen. induction l as [|y l IH]; intros seen; cbn [distinct_from].
  - constructor.
  - case_bool_decide as Hy; [apply IH|].
    constructor; [|apply IH].
    rewrite distinct_from_elem, elem_of_cons. tauto.
Qed.

Lemma distinct_elem (l : list string) (x : string) : x ∈ distinct l ↔ x ∈ l.
Proof.
  unfold distinct. rewrite distinct_from_elem, elem_of_nil. tauto.
Qed.

Lemma mapM_add_date (collection : list (Image G)) :
  (∀ img, img ∈ collection → is_Some (time_start img)) →
  ∃ dc, mapM add_date collection = Ok dc ∧ dated collection dc.
Proof.
  induction collection as [|img l IH]; intros Hall.
  - exists []. split; [reflexivity | constructor].
  - destruct IH as (dc & Hdc & Hd).
    { intros i Hi. apply Hall. now right. }
    destruct (Hall img) as [t Ht]; [now left|].
    exists (set img "date" (Some (PStr (Date_format t))) :: dc).
    cbn [mapM]. unfold add_date at 1. rewrite Ht. cbn [bind]. rewrite Hdc.
    split; [reflexivity|]. constructor; [|assumption]. now exists t.
Qed.

Lemma mapM_add_date_inv (collection dc : list (Image G)) :
  mapM add_date collection = Ok dc → dated collection dc.
Proof.
  revert dc. induction collection as [|img l IH]; intros dc; cbn [mapM].
  - intros [= <-]. constructor.
  - unfold add_date at 1. destruct (time_start img) as [t|] eqn:Ht; [|discriminate].
    cbn [bind]. destruct (mapM add_date l) as [dl|]; [|discriminate].
    cbn [bind]. intros [= <-]. constructor; [now exists t | now apply IH].
Qed.

Lemma dated_date_strings (collection dc : list (Image G)) :
  dated collection dc → date_strings dc = omap acquisition_date collection.
Proof.
  unfold date_strings, aggregate_array.
  induction 1 as [|img d l dl (t & Ht & ->) _ IH]; [reflexivity|].
  cbn [omap list_omap]. rewrite get_set_eq. cbn.
  unfold acquisition_date at 1. rewrite Ht. cbn. now rewrite IH.
Qed.

Lemma dated_daily_geometry (collection dc : list (Image G)) (date : string) :
  dated collection dc →
  collection_geometry (daily_scenes dc date) = union_footprint collection date.
Proof.
  unfold union_footprint, daily_scenes, scenes_on.
  induction 1 as [|img d l dl (t & Ht & ->) _ IH]; [reflexivity|].
  assert (Ha : acquisition_date img = Some (Date_format t))
    by (unfold acquisition_date; now rewrite Ht).
  cbn [List.filter]. unfold has_date at 1. rewrite get_set_eq.
  destruct (decide (Date_format t = date)) as [Heq | Hne].
  - rewrite !bool_decide_eq_true_2 by congruence.
    unfold collection_geometry in *. cbn [foldr]. now rewrite <- IH.
  - rewrite !bool_decide_eq_false_2 by congruence. exact IH.
Qed.

Lemma mosaic_on_date_spec (dc : list (Image G)) (roi : G) (date : string) :
  match mosaic_on_date dc roi date with
  | Some m => contains (dissolve (collection_geometry (daily_scenes dc date))) roi 10
              = true
              ∧ get m "date" = Some (PStr date)
              ∧ get m "coverage" = Some (PStr "full")
  | None => contains (dissolve (collection_geometry (daily_scenes dc date))) roi 10
            = false
  end.
Proof.
  unfold mosaic_on_date.
  destruct (contains _ roi 10); [|reflexivity].
  split; [reflexivity|]. split.
  - rewrite !get_set_ne by discriminate. apply get_set_eq.
  - rewrite get_set_ne by discriminate. apply get_set_eq.
Qed.

Lemma mosaic_dates_in (dc : list (Image G)) (roi : G) (l : list string) (v : PropVal) :
  v ∈ omap (λ m, get m "date") (omap (mosaic_on_date dc roi) l) →
  ∃ date, v = PStr date ∧ date ∈ l.
Proof.
  rewrite list_elem_of_omap. intros (m & Hm & Hv).
  apply list_elem_of_omap in Hm as (date & Hd & Hmos).
  pose proof (mosaic_on_date_spec dc roi date) as Hs. rewrite Hmos in Hs.
  destruct Hs as (_ & Hdate & _). exists date. split; [congruence | assumption].
Qed.

Lemma mosaic_dates_NoDup (dc : list (Image G)) (roi : G) (l : list string) :
  NoDup l → NoDup (omap (λ m, get m "date") (omap (mosaic_on_date dc roi) l)).
Proof.
  induction 1 as [|x l Hx Hl IH]; [constructor|].
  cbn [omap list_omap].
  pose proof (mosaic_on_date_spec dc roi x) as Hs.
  destruct (mosaic_on_date dc roi x) as [m|]; [|exact IH].
  destruct Hs as (_ & Hdate & _).
  cbn [omap list_omap]. rewrite Hdate. constructor; [|exact IH].
  intros Hin. apply mosaic_dates_in in Hin as (d & [= <-] & Hd). contradiction.
Qed.

(** C3: for a collection of scenes with acquisition timestamps, [mosaic_s2]
    raises nothing, and for every acquisition date of the collection the
    output holds a mosaic of that date if and only if the dissolved union of
    the footprints of that date's scenes contains the region of interest
    (tested with an error margin of 10 m). A date that is not covered has no
    entry at all; no date has two; every mosaic of the output is the mosaic
    of a date of the collection and is tagged with full coverage. *)
Theorem mosaic_s2_full_coverage (collection : list (Image G)) (roi : G) :
  (∀ img, img ∈ collection → is_Some (time_start img)) →
  ∃ mosaics : list (Image G),
    mosaic_s2 collection roi = Ok mosaics
    ∧ (∀ date : string,
         Some date ∈ acquisition_date <$> collection →
         ((∃ m, m ∈ mosaics ∧ get m "date" = Some (PStr date))
          ↔ contains (dissolve (union_footprint collection date)) roi 10 = true))
    ∧ NoDup (omap (λ m, get m "date") mosaics)
    ∧ (∀ m, m ∈ mosaics →
         ∃ date, get m "date" = Some (PStr date)
                 ∧ Some date ∈ acquisition_date <$> collection
                 ∧ get m "coverage" = Some (PStr "full")).
Proof.
  intros Hall.
  destruct (mapM_add_date collection Hall) as (dc & Hdc & Hdated).
  exists (omap (mosaic_on_date dc roi) (unique_dates dc)).
  unfold mosaic_s2. rewrite Hdc. cbn [bind].
  assert (Hdates : ∀ date, date ∈ unique_dates dc
                           ↔ Some date ∈ acquisition_date <$> collection).
  { intros date. unfold unique_dates.
    rewrite distinct_elem, (dated_date_strings _ _ Hdated).
    rewrite list_elem_of_omap, list_elem_of_fmap. split.
    - intros (img & Hin & Ha). exists img. split; [now symmetry | assumption].
    - intros (img & Ha & Hin). exists img. split; [assumption | now symmetry]. }
  split; [reflexivity|]. split; [|split].
  - intros date Hdate. rewrite <- (dated_daily_geometry _ _ _ Hdated).
    pose proof (mosaic_on_date_spec dc roi date) as Hs. split.
    + intros (m & Hm & Hget).
      apply list_elem_of_omap in Hm as (d' & Hd' & Hmos).
      pose proof (mosaic_on_date_spec dc roi d') as Hs'. rewrite Hmos in Hs'.
      destruct Hs' as (Hc & Hdate' & _).
      assert (d' = date) as -> by congruence. exact Hc.
    + intros Hc. destruct (mosaic_on_date dc roi date) as [m|] eqn:Hmos;
        [|congruence].
      exists m. split; [|apply Hs].
      apply list_elem_of_omap. exists date. split; [now apply Hdates | assumption].
  - apply mosaic_dates_NoDup. apply distinct_from_NoDup.
  - intros m Hm. apply list_elem_of_omap in Hm as (date & Hd & Hmos).
    pose proof (mosaic_on_date_spec dc roi date) as Hs. rewrite Hmos in Hs.
    exists date. split; [apply Hs|]. split; [now apply Hdates | apply Hs].
Qed.

End MosaicProofs.

Section MosaicExamples.
Import EE Mosaic Fixture.

Lemma mosaic_s2_full_coverage_witness :
  ∃ mosaics : list (Image (gset pixel)),
    mosaic_s2 scenes (rect 2 2) = Ok mosaics
    ∧ (∀ date : string,
         Some date ∈ acquisition_date <$> scenes →
         ((∃ m, m ∈ mosaics ∧ get m "date" = Some (PStr date))
          ↔ contains (dissolve (union_footprint scenes date)) (rect 2 2) 10 = true))
    ∧ NoDup (omap (λ m, get m "date") mosaics)
    ∧ (∀ m, m ∈ mosaics →
         ∃ date, get m "date" = Some (PStr date)
                 ∧ Some date ∈ acquisition_date <$> scenes
                 ∧ get m "coverage" = Some (PStr "full")).
Proof.
  apply (mosaic_s2_full_coverage scenes (rect 2 2)).
  intros img Hin. unfold scenes in Hin.
  repeat (apply elem_of_cons in Hin as [-> | Hin]); try (eexists; reflexivity).
  now apply elem_of_nil in Hin.
Defined.

(** The scene of 18 July covers the left column only: that date has no
    mosaic, the two fully covered dates have one each. *)
Example scenes_mosaic_dates :
  (λ ms : list (Image (gset pixel)), (λ m, get m "date") <$> ms)
    <$> mosaic_s2 scenes (rect 2 2)
  = Ok [Some (PStr "2023-07-16"); Some (PStr "2023-07-25")].
Proof. vm_compute. reflexivity. Qed.

Example scenes_coverage :
  contains (dissolve (union_footprint scenes "2023-07-16")) (rect 2 2) 10 = true
  ∧ contains (dissolve (union_footprint scenes "2023-07-18")) (rect 2 2) 10 = false.
Proof. vm_compute. split; reflexivity. Qed.

End MosaicExamples.

(** ** [opticflood_s2]: input checks and output metadata *)

Section PipelineProofs.
Import EE Filter Threshold Mosaic OpticalFlood.

Context {G : Type} {geo : Geometry G} {km : KMeans G} {rnd : Rounding}
        {cat : Catalogs G}.

Lemma strptime_raises (s : string) (e : exn) : strptime s = Raise e → e = ValueError.
Proof.
  unfold strptime. destruct (re_match s) as [[[[y m] d] rest]|]; [|congruence].
  destruct rest; [|congruence].
  destruct (valid_date (mkDate y m d)); congruence.
Qed.

Lemma ensure_ee_initialized_probes (s : Session) :
  GetInfo ∈ log (fst (ensure_ee_initialized s)).
Proof.
  unfold ensure_ee_initialized.
  destruct (initialized s); cbn [fst log]; rewrite ?elem_of_app, !elem_of_cons; tauto.
Qed.

(** C5 (amended): a malformed event-date string makes the call fail with the
    parser's [ValueError], raised by [get_date_ranges] right after the
    backend-initialisation guard has run its remote probe and before any
    collection is loaded; the lag and the minimum area are not validated:
    whenever the guard passes and [get_date_ranges] succeeds, whatever the
    sign of the lag and of the minimum area, the call returns its deferred
    collection. *)
Theorem opticflood_s2_input_checks (s : Session) (aoi : G) (flood_event_date : string)
    (lag cloud_threshold : Z) (min_area : Q) (use_reference : bool)
    (add_metadata : option (gmap string PropVal)) (pad_year : bool) :
  snd (ensure_ee_initialized s) = Ok tt →
  let run := opticflood_s2 s aoi flood_event_date lag cloud_threshold min_area
               use_reference add_metadata pad_year in
  log (fst run) = log (fst (ensure_ee_initialized s))
  ∧ GetInfo ∈ log (fst run)
  ∧ (is_ok (strptime flood_event_date) = false → snd run = Raise ValueError)
  ∧ (is_ok (get_date_ranges pad_year flood_event_date lag) = true →
     is_ok (snd run) = true).
Proof.
  intros Hguard run. subst run. unfold opticflood_s2.
  destruct (ensure_ee_initialized s) as [s' guard] eqn:Eg.
  cbn [fst snd] in *. subst guard. cbn [bind].
  split; [reflexivity|]. split.
  - pose proof (ensure_ee_initialized_probes s) as Hp.
    now rewrite Eg in Hp.
  - split.
    + intros Hbad. unfold get_date_ranges, get_date_ranges_with.
      destruct (strptime flood_event_date) as [dt|e] eqn:Es; [discriminate|].
      apply strptime_raises in Es as ->. reflexivity.
    + intros Hok.
      destruct (get_date_ranges pad_year flood_event_date lag)
        as [[[[a b] c] d]|e]; [reflexivity | discriminate].
Qed.

(** The classified and masked image of a mosaic carries the mosaic's
    timestamp and nothing else: the comparison [classified.eq(1)] starts
    from an image without properties and only ['system:time_start'] is set
    again. *)
Lemma classify_and_mask_props (aoi : G) (permanent_water img cleaned : Image G) :
  classify_and_mask aoi permanent_water img = Ok cleaned →
  ∀ key : string, key ≠ "system:time_start"%string → get cleaned key = None.
Proof.
  unfold classify_and_mask.
  destruct (classify_kmeans (select img ["NDWI"%string]) aoi 2) as [labelled|];
    [|discriminate].
  cbn [bind]. intros [= <-] key Hkey.
  rewrite get_set_ne by congruence.
  unfold get, rename, updateMask, suppress_clouds, suppress_permanent_water,
    where_, EE.eq. cbn [props]. apply lookup_empty.
Qed.

(** C9 fails on the code: whatever the mosaic, the image that reaches the
    patch filter has no ['date'] property, and the layer the filter emits
    has none either. *)
Theorem date_not_preserved (aoi roi : G) (permanent_water img cleaned : Image G)
    (min_area : Q) :
  classify_and_mask aoi permanent_water img = Ok cleaned →
  get cleaned "date" = None
  ∧ get (process_image roi min_area cleaned) "date" = None
  ∧ get cleaned "system:time_start" = get img "system:time_start".
Proof.
  intros Hc.
  assert (Hd : get cleaned "date" = None)
    by (apply (classify_and_mask_props _ _ _ _ Hc); discriminate).
  split; [exact Hd|]. split.
  - unfold process_image. rewrite get_set_eq. exact Hd.
  - unfold classify_and_mask in Hc.
    destruct (classify_kmeans (select img ["NDWI"%string]) aoi 2) as [labelled|];
      [|discriminate].
    cbn [bind] in Hc. injection Hc as <-. apply get_set_eq.
Qed.

End PipelineProofs.

Section PipelineExamples.
Import EE Filter Threshold Mosaic Upload OpticalFlood Fixture.

Lemma opticflood_s2_input_checks_witness :
  let run := opticflood_s2 session (rect 2 2) "2023/07/15" 10 60 10000 true None false in
  log (fst run) = log (fst (ensure_ee_initialized session))
  ∧ GetInfo ∈ log (fst run)
  ∧ (is_ok (strptime "2023/07/15") = false → snd run = Raise ValueError)
  ∧ (is_ok (get_date_ranges false "2023/07/15" 10) = true → is_ok (snd run) = true).
Proof.
  apply (opticflood_s2_input_checks session (rect 2 2) "2023/07/15" 10 60 10000
           true None false).
  reflexivity.
Defined.

(** C5 as stated fails: a negative lag and a minimum area of zero are
    accepted, the call returns a deferred collection. *)
Lemma opticflood_s2_accepts_negative_lag :
  ¬ (∀ (s : Session) (flood_event_date : string) (lag : Z) (min_area : Q),
       is_ok (strptime flood_event_date) = false ∨ lag < 0 ∨ (min_area <= 0)%Q →
       let run := opticflood_s2 s (rect 2 2) flood_event_date lag 60 min_area
                    true None false in
       is_ok (snd run) = false ∧ log (fst run) = log s).
Proof.
  intros Hclaim.
  destruct (Hclaim session "2023-07-15"%string (-3) 0%Q) as [Hfail _].
  - right. left. lia.
  - vm_compute in Hfail. discriminate.
Qed.

Example malformed_date_after_probe :
  opticflood_s2 session (rect 2 2) "2023/07/15" 10 60 10000 true None false
  = (mkSession true true [GetInfo], Raise ValueError).
Proof. vm_compute. reflexivity. Qed.

Example negative_lag_returns :
  (λ r : result (list (Image (gset pixel))), summary <$> r)
    <$> snd (opticflood_s2 session (rect 2 2) "2023-07-15" (-3) 60 0 true None false)
  = Ok (Ok []).
Proof. vm_compute. reflexivity. Qed.

Lemma date_not_preserved_witness :
  get cleaned_16 "date" = None
  ∧ get (process_image (rect 2 2) 10000 cleaned_16) "date" = None
  ∧ get cleaned_16 "system:time_start" = get mosaic_16 "system:time_start".
Proof.
  apply (date_not_preserved (rect 2 2) (rect 2 2) permanent_water_16 mosaic_16
           cleaned_16 10000).
  vm_compute. reflexivity.
Defined.

(** End to end, for the event of 15 July 2023 with a lag of 10 days: the
    mosaic of 16 July carries its date, the flood layer emitted for it does
    not (its timestamp and layer name are those of 16 July). *)
Example mosaic_16_date : get mosaic_16 "date" = Some (PStr "2023-07-16").
Proof. vm_compute. reflexivity. Qed.

Example flood_layer_without_date :
  (λ r : result (list (Image (gset pixel))), summary <$> r)
    <$> snd (opticflood_s2 session (rect 2 2) "2023-07-15" 10 60 100 true None false)
  = Ok (Ok [(None, Some (PStr "Flood extent on 2023-07-16 (S2)"),
             [((0, 1), 1%Q)])]).
Proof. vm_compute. reflexivity. Qed.

(** The scenario of the specification: with the default minimum area of
    10000 m² (100 pixels) nothing of a 2 x 2 area survives the filter. *)
Example small_area_fully_dropped :
  (λ r : result (list (Image (gset pixel))), summary <$> r)
    <$> snd (opticflood_s2 session (rect 2 2) "2023-07-15" 10 60 10000 true None false)
  = Ok (Ok [(None, Some (PStr "Flood extent on 2023-07-16 (S2)"), [])]).
Proof. vm_compute. reflexivity. Qed.

End PipelineExamples.

(** ** More on [get_date_ranges]: errors, overrides, reading the results back *)

Lemma add_days_in_range dt n d :
  add_days dt n = Ok d → 1 ≤ toordinal dt + n ≤ MAXORDINAL.
Proof.
  unfold add_days.
  destruct ((0 <? toordinal dt + n) && (toordinal dt + n <=? MAXORDINAL)) eqn:E;
    [|discriminate].
  apply andb_true_iff in E. rewrite Z.ltb_lt, Z.leb_le in E. lia.
Qed.

Lemma date_ranges_shifts (pad : bool) (s : string) (E : datetime)
    (post_lag before_start before_end : Z) :
  strptime s = Ok E →
  offsets_in_range E post_lag before_start before_end →
  get_date_ranges_with pad s post_lag before_start before_end
  = Ok (strftime pad (calendar_shift E 1),
        strftime pad (calendar_shift E post_lag),
        strftime pad (calendar_shift E (- before_start)),
        strftime pad (calendar_shift E (- before_end))).
Proof.
  intros Hs (H1 & H2 & H3 & H4).
  pose proof (strptime_valid s E Hs) as Hv.
  unfold get_date_ranges_with, sub_days. rewrite Hs. cbn [bind].
  rewrite (add_days_calendar E 1 Hv) by lia. cbn [bind].
  rewrite (add_days_calendar E post_lag Hv) by lia. cbn [bind].
  rewrite (add_days_calendar E (- before_start) Hv) by lia. cbn [bind].
  rewrite (add_days_calendar E (- before_end) Hv) by lia. cbn [bind].
  reflexivity.
Qed.

Lemma date_ranges_overflow (pad : bool) (s : string) (E : datetime)
    (post_lag before_start before_end : Z) :
  strptime s = Ok E →
  ¬ offsets_in_range E post_lag before_start before_end →
  get_date_ranges_with pad s post_lag before_start before_end = Raise OverflowError.
Proof.
  intros Hs Hout. pose proof (strptime_valid s E Hs) as Hv.
  unfold get_date_ranges_with, sub_days. rewrite Hs. cbn [bind].
  destruct (Z_le_dec 1 (toordinal E + 1)) as [a1|a1];
    [destruct (Z_le_dec (toordinal E + 1) MAXORDINAL) as [b1|b1]|];
    [|rewrite add_days_overflow by lia; reflexivity ..].
  rewrite (add_days_calendar E 1 Hv) by lia. cbn [bind].
  destruct (Z_le_dec 1 (toordinal E + post_lag)) as [a2|a2];
    [destruct (Z_le_dec (toordinal E + post_lag) MAXORDINAL) as [b2|b2]|];
    [|rewrite add_days_overflow by lia; reflexivity ..].
  rewrite (add_days_calendar E post_lag Hv) by lia. cbn [bind].
  destruct (Z_le_dec 1 (toordinal E - before_start)) as [a3|a3];
    [destruct (Z_le_dec (toordinal E - before_start) MAXORDINAL) as [b3|b3]|];
    [|rewrite add_days_overflow by lia; reflexivity ..].
  rewrite (add_days_calendar E (- before_start) Hv) by lia. cbn [bind].
  rewrite add_days_overflow; [reflexivity|].
  unfold offsets_in_range in Hout. lia.
Qed.

(** X1: what [format] prints, [parse] reads back as the same date: for every
    date [datetime] can hold, on a platform whose [%Y] pads the year or for
    a year of four digits. *)
Theorem parse_format_roundtrip (pad : bool) (dt : datetime) :
  valid_date dt = true →
  pad = true ∨ 1000 ≤ year dt →
  strptime (strftime pad dt) = Ok dt.
Proof.
  intros Hv Hpad. rewrite (strftime_iso pad dt Hpad).
  apply (strptime_iso_format dt Hv).
Qed.

Lemma parse_format_roundtrip_witness :
  strptime (strftime false (mkDate 2024 2 29)) = Ok (mkDate 2024 2 29).
Proof.
  apply (parse_format_roundtrip false (mkDate 2024 2 29)).
  - reflexivity.
  - right. vm_compute. discriminate.
Defined.

(** X2: the errors of [get_date_ranges], with or without overrides of the
    reference offsets: [ValueError] exactly when the event-date string is
    not a date; otherwise [OverflowError] exactly when one of event + 1,
    event + lag, event - start offset, event - end offset leaves the range
    of [datetime]; otherwise four strings. *)
Theorem get_date_ranges_errors (pad : bool) (s : string)
    (post_lag before_start before_end : Z) :
  match strptime s with
  | Raise _ =>
      get_date_ranges_with pad s post_lag before_start before_end = Raise ValueError
  | Ok E =>
      (offsets_in_range E post_lag before_start before_end
       ↔ is_ok (get_date_ranges_with pad s post_lag before_start before_end) = true)
      ∧ (¬ offsets_in_range E post_lag before_start before_end
         ↔ get_date_ranges_with pad s post_lag before_start before_end
           = Raise OverflowError)
  end.
Proof.
  destruct (strptime s) as [E|e] eqn:Hs.
  - assert (Hdec : offsets_in_range E post_lag before_start before_end
                   ∨ ¬ offsets_in_range E post_lag before_start before_end)
      by (unfold offsets_in_range; lia).
    destruct Hdec as [Hin | Hout].
    + rewrite (date_ranges_shifts pad s E _ _ _ Hs Hin). cbn [is_ok].
      split; split; try tauto; discriminate.
    + rewrite (date_ranges_overflow pad s E _ _ _ Hs Hout). cbn [is_ok].
      split; split; try tauto; discriminate.
  - unfold get_date_ranges_with. rewrite Hs. cbn [bind].
    unfold strptime in Hs.
    destruct (re_match s) as [[[[y m] d] rest]|]; [|congruence].
    destruct rest; [|congruence].
    destruct (valid_date (mkDate y m d)); congruence.
Qed.

(** X3: with any lag (negative too) and any reference offsets, inside the
    range of [datetime] the four results are the renderings of the event
    date stepped through the calendar by +1, +lag, -start offset and -end
    offset days. *)
Theorem get_date_ranges_overrides (pad : bool) (s : string) (E : datetime)
    (post_lag before_start before_end : Z) :
  strptime s = Ok E →
  offsets_in_range E post_lag before_start before_end →
  get_date_ranges_with pad s post_lag before_start before_end
  = Ok (strftime pad (calendar_shift E 1),
        strftime pad (calendar_shift E post_lag),
        strftime pad (calendar_shift E (- before_start)),
        strftime pad (calendar_shift E (- before_end)))
  ∧ toordinal (calendar_shift E post_lag) = toordinal E + post_lag
  ∧ toordinal (calendar_shift E (- before_start)) = toordinal E - before_start
  ∧ toordinal (calendar_shift E (- before_end)) = toordinal E - before_end.
Proof.
  intros Hs Hin. split; [exact (date_ranges_shifts pad s E _ _ _ Hs Hin)|].
  pose proof (strptime_valid s E Hs) as Hv.
  destruct Hin as (H1 & H2 & H3 & H4).
  destruct (calendar_shift_spec E post_lag Hv) as [_ ->]; [lia|].
  destruct (calendar_shift_spec E (- before_start) Hv) as [_ ->]; [lia|].
  destruct (calendar_shift_spec E (- before_end) Hv) as [_ ->]; [lia|].
  lia.
Qed.

Lemma get_date_ranges_overrides_witness :
  get_date_ranges_with false "2024-03-01" (-2) 60 7
  = Ok (strftime false (calendar_shift (mkDate 2024 3 1) 1),
        strftime false (calendar_shift (mkDate 2024 3 1) (-2)),
        strftime false (calendar_shift (mkDate 2024 3 1) (- (60))),
        strftime false (calendar_shift (mkDate 2024 3 1) (- (7))))
  ∧ toordinal (calendar_shift (mkDate 2024 3 1) (-2)) = toordinal (mkDate 2024 3 1) + -2
  ∧ toordinal (calendar_shift (mkDate 2024 3 1) (- (60)))
    = toordinal (mkDate 2024 3 1) - 60
  ∧ toordinal (calendar_shift (mkDate 2024 3 1) (- (7)))
    = toordinal (mkDate 2024 3 1) - 7.
Proof.
  apply (get_date_ranges_overrides false "2024-03-01" (mkDate 2024 3 1) (-2) 60 7).
  - reflexivity.
  - vm_compute. repeat split; discriminate.
Defined.

Example get_date_ranges_overrides_values :
  get_date_ranges_with false "2024-03-01" (-2) 60 7
  = Ok ("2024-03-02", "2024-02-28", "2024-01-01", "2024-02-23")%string.
Proof. vm_compute. reflexivity. Qed.

(** X4: the four strings [get_date_ranges] returns read back, through its
    own parser, as dates that lie exactly 1 and [lag] days after the event
    and 30 and 1 days before it; so the reference window ends the day before
    the event, the post window starts the day after, and with a lag of 0 the
    post window ends (on the event day) before it starts. *)
Theorem get_date_ranges_read_back (pad : bool) (s : string) (E : datetime) (lag : Z)
    (a b c d : string) :
  strptime s = Ok E →
  get_date_ranges pad s lag = Ok (a, b, c, d) →
  pad = true ∨ 1000 ≤ year (calendar_shift E (-30)) ∧ 1000 ≤ year (calendar_shift E lag) →
  ∃ A B C D : datetime,
    strptime a = Ok A ∧ strptime b = Ok B ∧ strptime c = Ok C ∧ strptime d = Ok D
    ∧ toordinal A = toordinal E + 1
    ∧ toordinal B = toordinal E + lag
    ∧ toordinal C = toordinal E - 30
    ∧ toordinal D = toordinal E - 1.
Proof.
  intros Hs Hok Hpad. pose proof (strptime_valid s E Hs) as Hv.
  assert (Hdec : offsets_in_range E lag 30 1 ∨ ¬ offsets_in_range E lag 30 1)
    by (unfold offsets_in_range; lia).
  destruct Hdec as [Hin | Hout];
    [|unfold get_date_ranges in Hok;
      rewrite (date_ranges_overflow pad s E _ _ _ Hs Hout) in Hok; discriminate].
  unfold get_date_ranges in Hok.
  rewrite (date_ranges_shifts pad s E _ _ _ Hs Hin) in Hok.
  change (- (30)) with (-30) in Hok. change (- (1)) with (-1) in Hok.
  injection Hok as <- <- <- <-.
  destruct Hin as (H1 & H2 & H3 & H4).
  destruct (calendar_shift_spec E 1 Hv) as [V1 O1]; [lia|].
  destruct (calendar_shift_spec E lag Hv) as [V2 O2]; [lia|].
  destruct (calendar_shift_spec E (-30) Hv) as [V3 O3]; [lia|].
  destruct (calendar_shift_spec E (-1) Hv) as [V4 O4]; [lia|].
  assert (Hy : ∀ X, valid_date X = true → toordinal E - 30 ≤ toordinal X →
                    pad = true ∨ 1000 ≤ year X).
  { intros X VX OX. destruct Hpad as [-> | [Hy _]]; [now left | right].
    pose proof (year_mono _ X V3 VX). lia. }
  exists (calendar_shift E 1), (calendar_shift E lag),
    (calendar_shift E (-30)), (calendar_shift E (-1)).
  repeat split; try lia.
  - rewrite strftime_iso by (apply Hy; [assumption | lia]).
    now apply strptime_iso_format.
  - rewrite strftime_iso by (destruct Hpad as [-> | [_ Hy2]]; [now left | now right]).
    now apply strptime_iso_format.
  - rewrite strftime_iso by (apply Hy; [assumption | lia]).
    now apply strptime_iso_format.
  - rewrite strftime_iso by (apply Hy; [assumption | lia]).
    now apply strptime_iso_format.
Qed.

Lemma get_date_ranges_read_back_witness :
  ∃ A B C D : datetime,
    strptime "2023-07-16" = Ok A ∧ strptime "2023-07-15" = Ok B
    ∧ strptime "2023-06-15" = Ok C ∧ strptime "2023-07-14" = Ok D
    ∧ toordinal A = toordinal (mkDate 2023 7 15) + 1
    ∧ toordinal B = toordinal (mkDate 2023 7 15) + 0
    ∧ toordinal C = toordinal (mkDate 2023 7 15) - 30
    ∧ toordinal D = toordinal (mkDate 2023 7 15) - 1.
Proof.
  apply (get_date_ranges_read_back false "2023-07-15" (mkDate 2023 7 15) 0).
  - reflexivity.
  - vm_compute. reflexivity.
  - right. vm_compute. split; discriminate.
Defined.

(** ** More on [classify_kmeans]: any number of clusters, shape of the result *)

Section ThresholdExtra.
Import EE Threshold.

Context {G : Type} {geo : Geometry G} {km : KMeans G}.

Abbreviation max_step :=
  (λ (acc x : option Q),
     match x, acc with
     | Some v, Some m => Some (Qmax m v)
     | Some v, None => Some v
     | None, _ => acc
     end).

Lemma Qmax_cases (a b : Q) : (Qmax a b = a ∨ Qmax a b = b) ∧ (a <= Qmax a b)%Q ∧ (b <= Qmax a b)%Q.
Proof.
  unfold Qmax. destruct (Qle_bool a b) eqn:E.
  - apply Qle_bool_iff in E. split; [now right|]. split; [exact E | apply Qle_refl].
  - split; [now left|]. split; [apply Qle_refl|].
    destruct (Qlt_le_dec a b) as [Hlt | Hle]; [|exact Hle].
    apply Qlt_le_weak, Qle_bool_iff in Hlt. congruence.
Qed.

Lemma max_fold (l : list (option Q)) (acc : option Q) :
  (∀ a, acc = Some a → ∃ mx, foldl max_step acc l = Some mx ∧ (a <= mx)%Q)
  ∧ (∀ v, Some v ∈ l → ∃ mx, foldl max_step acc l = Some mx ∧ (v <= mx)%Q)
  ∧ (∀ mx, foldl max_step acc l = Some mx → acc = Some mx ∨ Some mx ∈ l).
Proof.
  revert acc. induction l as [|x l IH]; intros acc; cbn [foldl].
  - split; [|split].
    + intros a ->. exists a. split; [reflexivity | apply Qle_refl].
    + intros v Hv. now apply elem_of_nil in Hv.
    + intros mx ->. now left.
  - destruct (IH (max_step acc x)) as (IHa & IHl & IHm).
    split; [|split].
    + intros a ->. destruct x as [v|]; cbn in *.
      * destruct (IHa _ eq_refl) as (mx & Hmx & Hle). exists mx. split; [exact Hmx|].
        destruct (Qmax_cases a v) as (_ & Ha & _). now apply Qle_trans with (Qmax a v).
      * exact (IHa _ eq_refl).
    + intros v Hv. apply elem_of_cons in Hv as [<- | Hv]; [|now apply IHl].
      destruct acc as [a|]; cbn in *.
      * destruct (IHa _ eq_refl) as (mx & Hmx & Hle). exists mx. split; [exact Hmx|].
        destruct (Qmax_cases a v) as (_ & _ & Hv). now apply Qle_trans with (Qmax a v).
      * exact (IHa _ eq_refl).
    + intros mx Hmx. destruct (IHm mx Hmx) as [Hacc | Hin];
        [|right; apply elem_of_cons; now right].
      destruct x as [v|]; [|now left]. destruct acc as [a|]; cbn in Hacc.
      * injection Hacc as Hacc. destruct (Qmax_cases a v) as ([Hq | Hq] & _).
        -- left. congruence.
        -- right. apply elem_of_cons. left. congruence.
      * right. apply elem_of_cons. now left.
Qed.

Lemma indexOf_spec (l : list (option Q)) (x : Q) :
  (∃ v, Some v ∈ l ∧ (v == x)%Q) →
  ∃ (i : nat) (v : Q),
    indexOf l x = Z.of_nat i
    ∧ l !! i = Some (Some v) ∧ (v == x)%Q
    ∧ ∀ (j : nat) (w : Q), (j < i)%nat → l !! j = Some (Some w) → ¬ (w == x)%Q.
Proof.
  induction l as [|y l IH]; intros (v & Hin & Hv).
  - now apply elem_of_nil in Hin.
  - cbn [indexOf].
    destruct (match y with Some u => Qeq_bool u x | None => false end) eqn:E.
    + destruct y as [u|]; [|discriminate]. apply Qeq_bool_iff in E.
      exists 0%nat, u. repeat split; try assumption. intros j w Hj. lia.
    + destruct IH as (i & u & Hi & Hl & Hu & Hfirst).
      { apply elem_of_cons in Hin as [<- | Hin]; [|now exists v].
        apply Qeq_bool_iff in Hv. congruence. }
      exists (S i), u. rewrite Hi.
      assert ((Z.of_nat i <? 0) = false) as -> by (apply Z.ltb_ge; lia).
      split; [lia|]. split; [exact Hl|]. split; [exact Hu|].
      intros [|j] w Hj Hw.
      * cbn in Hw. injection Hw as ->. intros Hx. apply Qeq_bool_iff in Hx. congruence.
      * apply (Hfirst j w); [lia | exact Hw].
Qed.

(** X5: for any number of clusters, as soon as one cluster mean is defined
    the flood cluster is chosen without error: it is the first cluster whose
    mean is the greatest of the defined means (no defined mean is greater,
    every earlier defined mean is strictly smaller). *)
Theorem flood_cluster_argmax (means : list (option Q)) :
  (∃ v, Some v ∈ means) →
  ∃ (i : nat) (m : Q),
    flood_cluster_of means = Ok (Z.of_nat i)
    ∧ means !! i = Some (Some m)
    ∧ (∀ w, Some w ∈ means → (w <= m)%Q)
    ∧ (∀ (j : nat) (w : Q), (j < i)%nat → means !! j = Some (Some w) → (w < m)%Q).
Proof.
  intros (v & Hv). unfold flood_cluster_of, Reducer_max.
  destruct (max_fold means None) as (_ & Hl & Hm).
  destruct (Hl v Hv) as (mx & Hmx & _). rewrite Hmx.
  destruct (Hm mx Hmx) as [Hnone | Hin]; [discriminate|].
  destruct (indexOf_spec means mx) as (i & m & Hi & Hlook & Heq & Hfirst).
  { exists mx. split; [exact Hin | reflexivity]. }
  exists i, m. rewrite Hi. split; [reflexivity|]. split; [exact Hlook|].
  assert (Hge : ∀ w, Some w ∈ means → (w <= m)%Q).
  { intros w Hw. destruct (Hl w Hw) as (mx' & Hmx' & Hle).
    assert (mx' = mx) as -> by congruence. now rewrite Heq. }
  split; [exact Hge|].
  intros j w Hj Hw.
  assert (Hwin : Some w ∈ means) by (apply list_elem_of_lookup; now exists j).
  pose proof (Hge w Hwin) as Hle.
  apply Qle_lteq in Hle as [Hlt | Hweq]; [exact Hlt|].
  exfalso. apply (Hfirst j w Hj Hw). now rewrite Hweq.
Qed.

Lemma flood_cluster_argmax_witness :
  ∃ (i : nat) (m : Q),
    flood_cluster_of [None; Some (1 # 5); Some (3 # 5); None; Some (6 # 10)]
      = Ok (Z.of_nat i)
    ∧ [None; Some (1 # 5); Some (3 # 5); None; Some (6 # 10)] !! i = Some (Some m)
    ∧ (∀ w, Some w ∈ [None; Some (1 # 5); Some (3 # 5); None; Some (6 # 10)] →
            (w <= m)%Q)
    ∧ (∀ (j : nat) (w : Q), (j < i)%nat →
         [None; Some (1 # 5); Some (3 # 5); None; Some (6 # 10)] !! j = Some (Some w) →
         (w < m)%Q).
Proof.
  apply (flood_cluster_argmax [None; Some (1 # 5); Some (3 # 5); None; Some (6 # 10)]).
  exists (1 # 5). apply list_elem_of_In. right. left. reflexivity.
Defined.

Example flood_cluster_five : 
  flood_cluster_of [None; Some (1 # 5); Some (3 # 5); None; Some (6 # 10)] = Ok 2.
Proof. reflexivity. Qed.

(** X6: whenever [classify_kmeans] returns, its result is a binary mask over
    the pixels the clusterer labelled (each 0 or 1), every band is named
    ['flood_class'], and its only property is ['system:time_start'], with
    the value the NDWI image has for it. *)
Theorem classify_kmeans_result_shape (ndwi_img : Image G) (aoi : G) (n : nat)
    (mask : Image G) :
  classify_kmeans ndwi_img aoi n = Ok mask →
  (∀ p v, band0 mask !! p = Some v → v = 0%Q ∨ v = 1%Q)
  ∧ dom (band0 mask) = dom (band0 (clustered_image ndwi_img aoi n))
  ∧ (∀ b, b ∈ bands mask → b.1 = "flood_class"%string)
  ∧ get mask "system:time_start" = get ndwi_img "system:time_start"
  ∧ (∀ key, key ≠ "system:time_start"%string → get mask key = None).
Proof.
  unfold classify_kmeans.
  destruct (cluster_means ndwi_img (clustered_image ndwi_img aoi n) aoi n) as [means|];
    [|discriminate].
  cbn [bind]. destruct (flood_cluster_of means) as [i|]; [|discriminate].
  cbn [bind]. intros [= <-].
  split; [|split; [|split; [|split]]].
  - intros p v. rewrite band0_set, band0_rename, band0_eq, eq_raster_lookup.
    destruct (band0 (clustered_image ndwi_img aoi n) !! p) as [c|]; [|discriminate].
    cbn. intros [= <-]. destruct (Qeq_bool c (inject_Z i)); [now right | now left].
  - rewrite band0_set, band0_rename, band0_eq. unfold eq_raster. apply dom_fmap_L.
  - intros b Hb.
    assert (Hbands : bands (set (rename (EE.eq (clustered_image ndwi_img aoi n)
                                           (inject_Z i)) "flood_class")
                              "system:time_start" (get ndwi_img "system:time_start"))
                     = bands (rename (EE.eq (clustered_image ndwi_img aoi n)
                                        (inject_Z i)) "flood_class"))
      by (unfold set; now destruct (get ndwi_img "system:time_start")).
    rewrite Hbands in Hb. unfold rename in Hb. cbn [bands] in Hb.
    apply list_elem_of_fmap in Hb as ([n0 r0] & -> & _). reflexivity.
  - apply get_set_eq.
  - intros key Hkey. rewrite get_set_ne by congruence.
    unfold get, rename, EE.eq. cbn [props]. apply lookup_empty.
Qed.

End ThresholdExtra.

Section ThresholdExtraExamples.
Import EE Threshold Fixture Samples.

Lemma classify_kmeans_result_shape_witness :
  (∀ p v, band0 split_mask !! p = Some v → v = 0%Q ∨ v = 1%Q)
  ∧ dom (band0 split_mask) = dom (band0 (clustered_image split_ndwi (rect 2 2) 2))
  ∧ (∀ b, b ∈ bands split_mask → b.1 = "flood_class"%string)
  ∧ get split_mask "system:time_start" = get split_ndwi "system:time_start"
  ∧ (∀ key, key ≠ "system:time_start"%string → get split_mask key = None).
Proof.
  apply (classify_kmeans_result_shape split_ndwi (rect 2 2) 2).
  vm_compute. reflexivity.
Defined.

End ThresholdExtraExamples.

(** ** More on [filter.py]: the cloud mask and the patch filter at its edges *)

Section FilterExtra.
Import EE Filter.

Context {G : Type} {geo : Geometry G} {rnd : Rounding}.

Lemma or_raster_lookup (a b : Raster) (p : pixel) :
  or_raster a b !! p
  = match a !! p, b !! p with
    | Some v, Some w => Some (bool_to_Q (nonzero (Some v) || nonzero (Some w)))
    | _, _ => None
    end.
Proof.
  unfold or_raster. rewrite map_lookup_imap.
  destruct (a !! p), (b !! p); reflexivity.
Qed.

Lemma band0_Or (a b : Image G) : band0 (Or a b) = or_raster (band0 a) (band0 b).
Proof.
  apply (band0_map_bands (λ r, or_raster r (band0 b))). apply map_imap_empty_raster.
Qed.

Lemma band0_copyProperties (dest source : Image G) :
  band0 (copyProperties dest source) = band0 dest.
Proof. reflexivity. Qed.

(** X7: the cloud mask depends on the scene classification band alone: a
    pixel is 1 exactly when its class is 3 (cloud shadow), 8 (cloud) or 9
    (cirrus), 0 for any other class, masked where the class is masked; all
    bands are named ['cloud_mask'] and every property of the scene is
    carried over. *)
Theorem mask_clouds_classes (img : Image G) :
  (∀ p : pixel,
     band0 (mask_clouds img) !! p
     = (λ c, if Qeq_bool c 3 || Qeq_bool c 8 || Qeq_bool c 9 then 1%Q else 0%Q)
         <$> (band0 (select img ["SCL"%string]) !! p))
  ∧ (∀ key, get (mask_clouds img) key = get img key)
  ∧ (∀ b, b ∈ bands (mask_clouds img) → b.1 = "cloud_mask"%string).
Proof.
  unfold mask_clouds. split; [|split].
  - intros p. rewrite band0_copyProperties, band0_rename, !band0_Or, !band0_eq.
    rewrite !or_raster_lookup, !eq_raster_lookup.
    destruct (band0 (select img ["SCL"%string]) !! p) as [c|]; [|reflexivity].
    cbn [fmap option_fmap option_map]. rewrite !nonzero_bool_to_Q.
    destruct (Qeq_bool c 3), (Qeq_bool c 8), (Qeq_bool c 9); reflexivity.
  - intros key. unfold get, copyProperties, rename, Or. cbn [props].
    now rewrite (right_id_L ∅ (∪)).
  - intros b Hb. unfold copyProperties, rename in Hb. cbn [bands] in Hb.
    apply list_elem_of_fmap in Hb as ([n0 r0] & -> & _). reflexivity.
Qed.

Lemma round_mono (q q' : Q) : (q <= q')%Q → round q ≤ round q'.
Proof.
  intros Hle. apply Qle_lteq in Hle as [Hlt | Heq];
    [|rewrite (round_proper q q' Heq); lia].
  pose proof (round_nearest q) as H1. pose proof (round_nearest q') as H2.
  apply Qabs_Qle_condition in H1, H2.
  assert (H : (inject_Z (round q - round q') < 1)%Q).
  { unfold Z.sub. rewrite inject_Z_plus, inject_Z_opp.
    set (a := inject_Z (round q)) in *. set (b := inject_Z (round q')) in *. lra. }
  unfold Qlt, inject_Z in H. cbn in H. lia.
Qed.

Lemma min_pixels_mono (a b : Q) : (a <= b)%Q → min_pixels a ≤ min_pixels b.
Proof.
  intros Hab. unfold min_pixels. apply round_mono.
  unfold Qdiv. apply Qmult_le_compat_r; [exact Hab | discriminate].
Qed.

Lemma patch_contains_start (r : Raster) (eight : bool) (p : pixel) (v : Q) :
  r !! p = Some v → p ∈ patch r eight p.
Proof.
  intros Hp. apply patch_connected. exists v. split; [exact Hp|].
  constructor. unfold same_value. rewrite Hp. apply Qeq_bool_iff. reflexivity.
Qed.

Lemma patch_size_pos (r : Raster) (eight : bool) (p : pixel) (v : Q) :
  r !! p = Some v → 1 ≤ patch_size r eight p.
Proof.
  intros Hp. unfold patch_size.
  pose proof (patch_contains_start r eight p v Hp) as Hin.
  destruct (size (patch r eight p)) eqn:Es; [|lia].
  apply size_empty_iff in Es. rewrite Es in Hin. now apply elem_of_empty in Hin.
Qed.

(** X8: a pixel threshold above the cap of 128 empties the layer: no patch,
    whatever its size, passes the filter. *)
Theorem process_image_threshold_above_cap (roi : G) (min_area : Q) (image : Image G) :
  128 < min_pixels min_area →
  band0 (process_image roi min_area image) = ∅.
Proof.
  intros Hcap. apply map_eq. intros p.
  rewrite process_image_pixel, lookup_empty.
  destruct (band0 image !! p) as [v|]; [|reflexivity].
  assert ((min_pixels min_area <=? Z.min (patch_size (band0 image) true p) 128) = false)
    as -> by (apply Z.leb_gt; lia).
  now rewrite andb_false_r.
Qed.

(** X9: a pixel threshold of at most 1 (a minimum area below 150 m², zero
    or negative included) filters nothing by size: the layer holds every
    non-zero pixel of the mask that the region of interest covers. *)
Theorem process_image_threshold_at_most_one (roi : G) (min_area : Q) (image : Image G)
    (p : pixel) (v : Q) :
  min_pixels min_area ≤ 1 →
  band0 (process_image roi min_area image) !! p = Some v
  ↔ band0 image !! p = Some v ∧ ¬ (v == 0)%Q ∧ (0 < coverage roi p)%Q.
Proof.
  intros Hone. rewrite process_image_pixel.
  destruct (band0 image !! p) as [w|] eqn:Ep; [|split; [discriminate | intros [[=] _]]].
  pose proof (patch_size_pos (band0 image) true p w Ep) as Hpos.
  assert ((min_pixels min_area <=? Z.min (patch_size (band0 image) true p) 128) = true)
    as -> by (apply Z.leb_le; lia).
  rewrite andb_true_r.
  destruct (Qeq_bool w 0) eqn:E0; cbn [negb andb].
  { apply Qeq_bool_iff in E0. split; [discriminate|].
    intros ([= ->] & Hnz & _). contradiction. }
  apply Qeq_bool_neq in E0.
  destruct (Qle_bool (coverage roi p) 0) eqn:Ec; cbn [negb].
  - apply Qle_bool_iff in Ec. split; [discriminate|].
    intros (_ & _ & Hc). exfalso. exact (Qlt_not_le _ _ Hc Ec).
  - split.
    + intros [= ->]. repeat split; [assumption|].
      apply Qnot_le_lt. intros Hle. apply Qle_bool_iff in Hle. congruence.
    + intros ([= ->] & _). reflexivity.
Qed.

(** X10: raising the minimum area never adds a flood pixel: the layer for the
    larger area is contained, pixel and value, in the layer for the smaller
    one. *)
Theorem process_image_monotone (roi : G) (a b : Q) (image : Image G) :
  (a <= b)%Q →
  band0 (process_image roi b image) ⊆ band0 (process_image roi a image).
Proof.
  intros Hab. pose proof (min_pixels_mono a b Hab) as Hm.
  apply map_subseteq_spec. intros p v. rewrite !process_image_pixel.
  destruct (band0 image !! p) as [w|]; [|discriminate].
  destruct (negb (Qeq_bool w 0) && negb (Qle_bool (coverage roi p) 0)); [|discriminate].
  cbn [andb].
  destruct (min_pixels b <=? Z.min (patch_size (band0 image) true p) 128) eqn:Eb;
    [|discriminate].
  apply Z.leb_le in Eb.
  assert ((min_pixels a <=? Z.min (patch_size (band0 image) true p) 128) = true)
    as -> by (apply Z.leb_le; lia).
  trivial.
Qed.

(** X11: the patch filter only removes: every pixel of the layer is a pixel
    of the mask with the same, non-zero value; every band of the layer is
    named ['depth']; and the properties of the layer are exactly those of
    the mask (reading ['date'] and setting it again changes nothing). *)
Theorem process_image_only_removes (roi : G) (min_area : Q) (image : Image G) :
  band0 (process_image roi min_area image) ⊆ band0 image
  ∧ (∀ p v, band0 (process_image roi min_area image) !! p = Some v → ¬ (v == 0)%Q)
  ∧ (∀ b, b ∈ bands (process_image roi min_area image) → b.1 = "depth"%string)
  ∧ props (process_image roi min_area image) = props image.
Proof.
  split; [|split; [|split]].
  - apply map_subseteq_spec. intros p v. rewrite process_image_pixel.
    destruct (band0 image !! p) as [w|]; [|discriminate].
    destruct (_ && _); [trivial | discriminate].
  - intros p v. rewrite process_image_pixel.
    destruct (band0 image !! p) as [w|]; [|discriminate].
    destruct (Qeq_bool w 0) eqn:E0; cbn [negb andb]; [discriminate|].
    apply Qeq_bool_neq in E0.
    destruct (_ && _); [|discriminate]. now intros [= <-].
  - intros b. unfold process_image, toFloat.
    assert (Hbands : ∀ (i : Image G) k v, bands (set i k v) = bands i)
      by (intros i k [v|]; reflexivity).
    rewrite Hbands. unfold selfMask, map_bands, rename. cbn [bands].
    rewrite <- !list_fmap_compose. intros Hb.
    apply list_elem_of_fmap in Hb as ([n0 r0] & -> & _). reflexivity.
  - unfold process_image, toFloat, set, get.
    destruct (props image !! "date"%string) as [d|] eqn:Ed; cbn [props].
    + now apply insert_id.
    + now apply delete_id.
Qed.

End FilterExtra.

(** *** Patches are kept or dropped as a whole *)

Section WholePatches.
Import EE Filter.

Lemma neighbours_sym (eight : bool) (p q : pixel) :
  q ∈ neighbours eight p → p ∈ neighbours eight q.
Proof.
  destruct p as [x y], q as [x' y']. unfold neighbours.
  destruct eight; intros H;
    rewrite ?elem_of_app, !elem_of_cons, ?elem_of_nil, !pair_equal_spec in H |- *;
    lia.
Qed.

Lemma connected_same_value r eight v p q :
  connected r eight v p q → same_value r v p = true ∧ same_value r v q = true.
Proof. induction 1 as [Hp | q q' _ [IHp _] _ Hq']; split; assumption. Qed.

Lemma connected_trans r eight v a b c :
  connected r eight v a b → connected r eight v b c → connected r eight v a c.
Proof.
  intros Hab. induction 1 as [_ | q q' _ IH Hn Hv]; [exact Hab|].
  exact (connected_step _ _ _ _ q q' IH Hn Hv).
Qed.

Lemma connected_sym r eight v p q :
  connected r eight v p q → connected r eight v q p.
Proof.
  induction 1 as [Hp | q q' Hc IH Hn Hv]; [now constructor|].
  destruct (connected_same_value _ _ _ _ _ Hc) as [_ Hq].
  apply connected_trans with q; [|exact IH].
  apply (connected_step _ _ _ _ q'); [now constructor | now apply neighbours_sym | exact Hq].
Qed.

Lemma same_value_proper r v w q : (v == w)%Q → same_value r v q = same_value r w q.
Proof.
  intros Hvw. unfold same_value. destruct (r !! q) as [u|]; [|reflexivity].
  apply eq_true_iff_eq. rewrite !Qeq_bool_iff. now rewrite Hvw.
Qed.

Lemma connected_proper r eight v w p q :
  (v == w)%Q → connected r eight v p q → connected r eight w p q.
Proof.
  intros Hvw. induction 1 as [Hp | q q' _ IH Hn Hv].
  - constructor. now rewrite <- (same_value_proper r v w).
  - apply (connected_step _ _ _ _ q q' IH Hn). now rewrite <- (same_value_proper r v w).
Qed.

(** Two pixels of one patch have the same patch. *)
Lemma patch_shared (r : Raster) (eight : bool) (p q : pixel) :
  q ∈ patch r eight p → patch r eight q = patch r eight p.
Proof.
  intros Hq. apply patch_connected in Hq as (v & Hp & Hc).
  destruct (connected_same_value _ _ _ _ _ Hc) as [_ Hqv].
  unfold same_value in Hqv. destruct (r !! q) as [w|] eqn:Eq; [|discriminate].
  apply Qeq_bool_iff in Hqv.
  apply set_eq. intros x. rewrite !patch_connected. split.
  - intros (w' & Hw' & Hx). exists v. split; [exact Hp|].
    assert (w' = w) as -> by congruence.
    apply connected_trans with q; [exact Hc|]. now apply (connected_proper r eight w v).
  - intros (v' & Hv' & Hx). exists w. split; [exact Eq|].
    assert (v' = v) as -> by congruence.
    apply (connected_proper r eight v w); [now symmetry|].
    apply connected_trans with p; [now apply connected_sym | exact Hx].
Qed.

Context {G : Type} {geo : Geometry G} {rnd : Rounding}.

(** X12: the filter treats a patch as a whole: two pixels of the same patch
    that the region of interest covers are both kept or both dropped,
    whatever the threshold. *)
Theorem process_image_whole_patches (roi : G) (min_area : Q) (image : Image G)
    (p q : pixel) :
  q ∈ patch (band0 image) true p →
  (0 < coverage roi p)%Q → (0 < coverage roi q)%Q →
  patch_size (band0 image) true q = patch_size (band0 image) true p
  ∧ (is_Some (band0 (process_image roi min_area image) !! p)
     ↔ is_Some (band0 (process_image roi min_area image) !! q)).
Proof.
  intros Hq Hcp Hcq.
  pose proof (patch_shared _ _ _ _ Hq) as Hpatch.
  assert (Hsize : patch_size (band0 image) true q = patch_size (band0 image) true p)
    by (unfold patch_size; now rewrite Hpatch).
  split; [exact Hsize|].
  apply patch_connected in Hq as (v & Hp & Hc).
  destruct (connected_same_value _ _ _ _ _ Hc) as [_ Hqv].
  unfold same_value in Hqv.
  destruct (band0 image !! q) as [w|] eqn:Eq; [|discriminate].
  apply Qeq_bool_iff in Hqv.
  rewrite !process_image_pixel, Hp, Eq, Hsize.
  assert (Qeq_bool w 0 = Qeq_bool v 0) as ->
    by (apply eq_true_iff_eq; rewrite !Qeq_bool_iff; now rewrite Hqv).
  assert (Qle_bool (coverage roi p) 0 = false) as ->
    by (apply not_true_is_false; intros E; apply Qle_bool_iff in E;
        exact (Qlt_not_le _ _ Hcp E)).
  assert (Qle_bool (coverage roi q) 0 = false) as ->
    by (apply not_true_is_false; intros E; apply Qle_bool_iff in E;
        exact (Qlt_not_le _ _ Hcq E)).
  destruct (_ && _); split; intros [x Hx]; try discriminate; eauto.
Qed.

End WholePatches.

Section FilterExtraExamples.
Import EE Filter Fixture.

Lemma process_image_threshold_above_cap_witness :
  band0 (process_image (rect 13 10) 20000 block_mask) = ∅.
Proof.
  apply (process_image_threshold_above_cap (rect 13 10) 20000 block_mask).
  vm_compute. reflexivity.
Defined.

Lemma process_image_threshold_at_most_one_witness :
  band0 (process_image (rect 13 10) (-5) block_mask) !! (3, 4) = Some 1%Q
  ↔ band0 block_mask !! (3, 4) = Some 1%Q ∧ ¬ (1 == 0)%Q
    ∧ (0 < coverage (rect 13 10) (3%Z, 4%Z))%Q.
Proof.
  apply (process_image_threshold_at_most_one (rect 13 10) (-5) block_mask (3, 4) 1).
  vm_compute. discriminate.
Defined.

Lemma process_image_monotone_witness :
  band0 (process_image (rect 13 10) 20000 block_mask)
  ⊆ band0 (process_image (rect 13 10) 10000 block_mask).
Proof.
  apply (process_image_monotone (rect 13 10) 10000 20000 block_mask).
  vm_compute. discriminate.
Defined.

Lemma process_image_whole_patches_witness :
  patch_size (band0 block_mask) true (12, 9) = patch_size (band0 block_mask) true (0, 0)
  ∧ (is_Some (band0 (process_image (rect 13 10) 10000 block_mask) !! (0, 0))
     ↔ is_Some (band0 (process_image (rect 13 10) 10000 block_mask) !! (12, 9))).
Proof.
  apply (process_image_whole_patches (rect 13 10) 10000 block_mask (0, 0) (12, 9)).
  - vm_compute. reflexivity.
  - vm_compute. reflexivity.
  - vm_compute. reflexivity.
Defined.

End FilterExtraExamples.

(** ** More on [mosaic_s2]: metadata, timestamps, single scenes, clipping *)

Section DateStrings.
Import EE.

Lemma first_day_valid : valid_date (mkDate 1 1 1) = true.
Proof. reflexivity. Qed.

(** Every ordinal of the supported range is the ordinal of the date
    [fromordinal] gives for it. *)
Lemma ord2ymd_valid (o : Z) :
  1 ≤ o ≤ MAXORDINAL → valid_date (ord2ymd o) = true ∧ toordinal (ord2ymd o) = o.
Proof.
  intros Ho.
  assert (H1 : toordinal (mkDate 1 1 1) = 1) by reflexivity.
  destruct (calendar_shift_spec (mkDate 1 1 1) (o - 1) first_day_valid) as [Hv Hord];
    [rewrite H1; lia|].
  rewrite H1 in Hord. replace (1 + (o - 1)) with o in Hord by lia.
  assert (Heq : ord2ymd o = calendar_shift (mkDate 1 1 1) (o - 1)).
  { rewrite <- Hord at 1. apply valid_date_spec in Hv. apply ord2ymd_toordinal; lia. }
  rewrite Heq. split; assumption.
Qed.

(** X13: a mosaic's timestamp is the midnight that starts the acquisition
    day of its scenes, and the day read back from that timestamp (as
    [add_layer_name] does) is the mosaic's date: for a scene timestamp [t]
    within the years 1 to 9999, [ee.Date(ee.Date(t).format('YYYY-MM-dd')).millis()]
    is [t] rounded down to a whole day, and formats to the same date. *)
Theorem date_string_timestamp (t : Z) :
  1 ≤ EPOCH_ORDINAL + t / MS_PER_DAY ≤ MAXORDINAL →
  Date_millis (Date_format t) = Some (t / MS_PER_DAY * MS_PER_DAY)
  ∧ Date_format (t / MS_PER_DAY * MS_PER_DAY) = Date_format t
  ∧ t / MS_PER_DAY * MS_PER_DAY ≤ t < t / MS_PER_DAY * MS_PER_DAY + MS_PER_DAY.
Proof.
  intros Hr. destruct (ord2ymd_valid _ Hr) as [Hv Ho].
  split; [|split].
  - unfold Date_millis, Date_format.
    destruct (strptime_iso_format _ Hv) as [-> _]. rewrite Ho. f_equal. lia.
  - unfold Date_format. do 3 f_equal. unfold MS_PER_DAY.
    rewrite Z.div_mul by discriminate. reflexivity.
  - unfold MS_PER_DAY. Z.div_mod_to_equations. lia.
Qed.

Lemma date_string_timestamp_witness :
  Date_millis (Date_format 1689508800123) = Some (1689508800123 / MS_PER_DAY * MS_PER_DAY)
  ∧ Date_format (1689508800123 / MS_PER_DAY * MS_PER_DAY) = Date_format 1689508800123
  ∧ 1689508800123 / MS_PER_DAY * MS_PER_DAY ≤ 1689508800123
    < 1689508800123 / MS_PER_DAY * MS_PER_DAY + MS_PER_DAY.
Proof.
  apply (date_string_timestamp 1689508800123).
  vm_compute. split; discriminate.
Defined.

Example date_format_example : Date_format 1689508800123 = "2023-07-16"%string.
Proof. vm_compute. reflexivity. Qed.

End DateStrings.

Section MosaicExtra.
Import EE Mosaic.

Context {G : Type} {geo : Geometry G}.

Lemma dated_daily_length (collection dc : list (Image G)) (date : string) :
  dated collection dc →
  length (daily_scenes dc date) = length (scenes_on collection date).
Proof.
  unfold daily_scenes, scenes_on.
  induction 1 as [|img d l dl (t & Ht & ->) _ IH]; [reflexivity|].
  assert (Ha : acquisition_date img = Some (Date_format t))
    by (unfold acquisition_date; now rewrite Ht).
  cbn [List.filter]. unfold has_date at 1. rewrite get_set_eq.
  destruct (decide (Date_format t = date)) as [Heq | Hne].
  - rewrite !bool_decide_eq_true_2 by congruence. cbn [length]. now rewrite IH.
  - rewrite !bool_decide_eq_false_2 by congruence. exact IH.
Qed.

Lemma scenes_on_nonempty (collection : list (Image G)) (date : string) :
  Some date ∈ acquisition_date <$> collection →
  (1 ≤ length (scenes_on collection date))%nat.
Proof.
  unfold scenes_on. induction collection as [|img l IH]; cbn [fmap list_fmap List.filter].
  - intros H. now apply elem_of_nil in H.
  - intros H. apply elem_of_cons in H as [H | H].
    + rewrite bool_decide_eq_true_2 by congruence. cbn [length]. lia.
    + destruct (bool_decide _); cbn [length]; [lia | now apply IH].
Qed.

Lemma mosaic_on_date_metadata (dc : list (Image G)) (roi : G) (date : string)
    (m : Image G) :
  mosaic_on_date dc roi date = Some m →
  get m "image_count" = Some (PNum (Z.of_nat (length (daily_scenes dc date))))
  ∧ get m "system:time_start" = PNum <$> Date_millis date
  ∧ (∀ key, key ∉ ["date"; "system:time_start"; "coverage"; "image_count"]%string →
            get m key = None)
  ∧ bands m = map_bands (λ r, clip_raster r roi) (median (daily_scenes dc date)).
Proof.
  unfold mosaic_on_date. destruct (contains _ roi 10); [|discriminate].
  intros Heq. apply (inj Some) in Heq. subst m.
  split; [apply get_set_eq|]. split; [|split].
  - rewrite !get_set_ne by discriminate. apply get_set_eq.
  - intros key Hkey.
    rewrite !not_elem_of_cons in Hkey. destruct Hkey as (H1 & H2 & H3 & H4 & _).
    rewrite !get_set_ne by congruence.
    unfold get, clip, median, reduce_collection. cbn [props]. apply lookup_empty.
  - assert (Hb : ∀ (i : Image G) k v, bands (set i k v) = bands i)
      by (intros i k [v|]; reflexivity).
    now rewrite !Hb.
Qed.

(** X14: every mosaic of the output records how many scenes of its date went
    into it (at least one) and the timestamp of its date, and carries no
    property beyond ['date'], ['system:time_start'], ['coverage'] and
    ['image_count']: none of the scenes' own properties reaches it. *)
Theorem mosaic_s2_metadata (collection : list (Image G)) (roi : G)
    (mosaics : list (Image G)) (m : Image G) :
  mosaic_s2 collection roi = Ok mosaics →
  m ∈ mosaics →
  ∃ date : string,
    get m "date" = Some (PStr date)
    ∧ get m "image_count"
      = Some (PNum (Z.of_nat (length (scenes_on collection date))))
    ∧ (1 ≤ length (scenes_on collection date))%nat
    ∧ get m "system:time_start" = PNum <$> Date_millis date
    ∧ (∀ key, key ∉ ["date"; "system:time_start"; "coverage"; "image_count"]%string →
              get m key = None).
Proof.
  unfold mosaic_s2. destruct (mapM add_date collection) as [dc|] eqn:Hdc; [|discriminate].
  cbn [bind]. intros [= <-] Hm.
  pose proof (mapM_add_date_inv _ _ Hdc) as Hdated.
  apply list_elem_of_omap in Hm as (date & Hd & Hmos).
  pose proof (mosaic_on_date_spec dc roi date) as Hs. rewrite Hmos in Hs.
  destruct (mosaic_on_date_metadata _ _ _ _ Hmos) as (Hcount & Hts & Hkeys & _).
  exists date. split; [apply Hs|].
  rewrite <- (dated_daily_length _ _ date Hdated). split; [exact Hcount|].
  split; [|split; assumption].
  rewrite (dated_daily_length _ _ date Hdated). apply scenes_on_nonempty.
  unfold unique_dates in Hd. rewrite distinct_elem, (dated_date_strings _ _ Hdated) in Hd.
  apply list_elem_of_omap in Hd as (img & Hin & Ha).
  apply list_elem_of_fmap. exists img. split; [now symmetry | assumption].
Qed.

Lemma median_single (v : Q) : median_values [v] = Some v.
Proof. reflexivity. Qed.

Lemma band0_select_first (img : Image G) (n : string) (r : Raster) rest :
  bands img = (n, r) :: rest → band0 (select img [n]) = r.
Proof.
  intros Hb. unfold band0, select. cbn [bands]. rewrite Hb.
  cbn [mbind list_bind]. rewrite filter_cons. cbn [fst].
  destruct (decide (n = n)); [reflexivity | contradiction].
Qed.

Lemma band0_median_single (img : Image G) : band0 (median [img]) = band0 img.
Proof.
  unfold median, reduce_collection, band0 at 1. cbn [bands].
  destruct (bands img) as [|[n r] rest] eqn:Hb.
  - unfold band0. now rewrite Hb.
  - cbn [fmap list_fmap fst].
    assert (Hr : band0 (select img [n]) = r) by (now apply band0_select_first with rest).
    assert (Hb0 : band0 img = r) by (unfold band0; now rewrite Hb).
    rewrite Hb0. apply map_eq. intros p.
    rewrite map_lookup_imap, lookup_gset_to_gmap.
    unfold band_domain, values_at. cbn [fmap list_fmap omap list_omap].
    rewrite Hr, union_list_cons, union_list_nil, (right_id_L ∅ (∪)).
    destruct (r !! p) as [v|] eqn:Ep.
    + rewrite option_guard_True by (apply elem_of_dom; eauto). reflexivity.
    + rewrite option_guard_False; [reflexivity|].
      rewrite elem_of_dom, Ep. intros [x Hx]. discriminate.
Qed.

(** X15: a date with a single contributing scene goes through the same
    coverage test, and its mosaic is that scene clipped to the region of
    interest (the median over one scene is the scene): its first band holds
    the scene's values at the pixels the region covers and nothing else. *)
Theorem mosaic_on_date_single_scene (dc : list (Image G)) (roi : G) (date : string)
    (img : Image G) :
  daily_scenes dc date = [img] →
  (is_Some (mosaic_on_date dc roi date)
   ↔ contains (dissolve (geom_union (footprint img) geom_empty)) roi 10 = true)
  ∧ ∀ m, mosaic_on_date dc roi date = Some m →
         band0 m = clip_raster (band0 img) roi
         ∧ get m "image_count" = Some (PNum 1).
Proof.
  intros Hdaily. split.
  - pose proof (mosaic_on_date_spec dc roi date) as Hs. rewrite Hdaily in Hs.
    cbn [collection_geometry foldr] in Hs.
    destruct (mosaic_on_date dc roi date) as [m|].
    + split; [intros _; apply Hs | intros _; eauto].
    + split; [intros [x Hx]; discriminate | congruence].
  - intros m Hm.
    destruct (mosaic_on_date_metadata _ _ _ _ Hm) as (Hcount & _ & _ & Hbands).
    rewrite Hdaily in Hcount, Hbands. split; [|exact Hcount].
    assert (Hb0 : band0 m = band0 (clip (median [img]) roi))
      by (unfold band0, clip; cbn [bands]; now rewrite Hbands).
    now rewrite Hb0, band0_clip, band0_median_single.
Qed.

(** X16: the mosaics are clipped: no band of any mosaic of the output has an
    unmasked pixel outside the region of interest. *)
Theorem mosaic_s2_clipped (collection : list (Image G)) (roi : G)
    (mosaics : list (Image G)) :
  mosaic_s2 collection roi = Ok mosaics →
  ∀ m b p v, m ∈ mosaics → b ∈ bands m → b.2 !! p = Some v → (0 < coverage roi p)%Q.
Proof.
  unfold mosaic_s2. destruct (mapM add_date collection) as [dc|]; [|discriminate].
  cbn [bind]. intros [= <-] m b p v Hm Hb Hp.
  apply list_elem_of_omap in Hm as (date & _ & Hmos).
  destruct (mosaic_on_date_metadata _ _ _ _ Hmos) as (_ & _ & _ & Hbands).
  rewrite Hbands in Hb. unfold map_bands in Hb.
  apply list_elem_of_fmap in Hb as ([n r] & -> & _). cbn [snd] in Hp.
  rewrite clip_raster_lookup in Hp.
  destruct (Qle_bool (coverage roi p) 0) eqn:E; [discriminate|].
  apply Qnot_le_lt. intros Hle. apply Qle_bool_iff in Hle. congruence.
Qed.

End MosaicExtra.

Section MosaicExtraExamples.
Import EE Mosaic Fixture Samples.

Lemma mosaic_s2_metadata_witness :
  ∃ date : string,
    get mosaic_16 "date" = Some (PStr date)
    ∧ get mosaic_16 "image_count"
      = Some (PNum (Z.of_nat (length (scenes_on prepared_scenes date))))
    ∧ (1 ≤ length (scenes_on prepared_scenes date))%nat
    ∧ get mosaic_16 "system:time_start" = PNum <$> Date_millis date
    ∧ (∀ key, key ∉ ["date"; "system:time_start"; "coverage"; "image_count"]%string →
              get mosaic_16 key = None).
Proof.
  apply (mosaic_s2_metadata prepared_scenes (rect 2 2) [mosaic_16] mosaic_16).
  - vm_compute. reflexivity.
  - apply list_elem_of_In. left. reflexivity.
Defined.

Lemma mosaic_on_date_single_scene_witness :
  (is_Some (mosaic_on_date dated_scenes (rect 2 2) "2023-07-18")
   ↔ contains (dissolve (geom_union (footprint scene_18) geom_empty)) (rect 2 2) 10
     = true)
  ∧ ∀ m, mosaic_on_date dated_scenes (rect 2 2) "2023-07-18" = Some m →
         band0 m = clip_raster (band0 scene_18) (rect 2 2)
         ∧ get m "image_count" = Some (PNum 1).
Proof.
  apply (mosaic_on_date_single_scene dated_scenes (rect 2 2) "2023-07-18" scene_18).
  vm_compute. reflexivity.
Defined.

Lemma mosaic_s2_clipped_witness : (0 < coverage (rect 2 2) (0%Z, 1%Z))%Q.
Proof.
  assert (Hm : mosaic_s2 prepared_scenes (rect 2 2) = Ok [mosaic_16])
    by (vm_compute; reflexivity).
  apply (mosaic_s2_clipped prepared_scenes (rect 2 2) [mosaic_16] Hm
           mosaic_16 ndwi_band_16 (0, 1) (2000 # 4000)).
  - apply elem_of_cons. left. reflexivity.
  - assert (Hb : bands mosaic_16 = ndwi_band_16 :: tail (bands mosaic_16))
      by (vm_compute; reflexivity).
    rewrite Hb. apply elem_of_cons. left. reflexivity.
  - vm_compute. reflexivity.
Defined.

End MosaicExtraExamples.

(** ** More on [opticalflood.py]: water index, masking, guard, metadata *)

Section PipelineExtra.
Import EE Filter Threshold Mosaic Upload Rename OpticalFlood.

Context {G : Type} {geo : Geometry G} {km : KMeans G} {rnd : Rounding}
        {cat : Catalogs G}.

Lemma normalized_difference_range (x y : Q) :
  (0 <= x)%Q → (0 <= y)%Q → ¬ (x + y == 0)%Q →
  (-1 <= (x - y) / (x + y) <= 1)%Q.
Proof.
  intros Hx Hy Hs.
  assert (Hpos : (0 < x + y)%Q).
  { apply Qle_lteq in Hx as [Hx | Hx], Hy as [Hy | Hy]; lra. }
  split.
  - apply Qle_shift_div_l; [exact Hpos | lra].
  - apply Qle_shift_div_r; [exact Hpos | lra].
Qed.

Lemma band0_prepare (img : Image G) :
  band0 (prepare img) = band0 (normalizedDifference img "B3" "B8").
Proof. reflexivity. Qed.

(** X17: the prepared scene has the water index as its first band, named
    ['NDWI'], followed by the cloud mask; every unmasked water-index value
    lies in [-1, 1]; and all the properties of the scene are carried over. *)
Theorem prepare_water_index (img : Image G) :
  (∀ p v, band0 (prepare img) !! p = Some v → (-1 <= v <= 1)%Q)
  ∧ (∃ ndwi, bands (prepare img) = ("NDWI"%string, ndwi) :: bands (mask_clouds img))
  ∧ (∀ key, get (prepare img) key = get img key).
Proof.
  split; [|split].
  - intros p v. rewrite band0_prepare.
    unfold normalizedDifference, band0 at 1. cbn [bands].
    rewrite map_lookup_imap.
    destruct (band0 (select img ["B3"%string]) !! p) as [x|]; [|discriminate].
    cbn [mbind option_bind].
    destruct (band0 (select img ["B8"%string]) !! p) as [y|]; [|discriminate].
    destruct (Qle_bool 0 x) eqn:Ex; [|discriminate].
    destruct (Qle_bool 0 y) eqn:Ey; [|discriminate].
    destruct (Qeq_bool (x + y) 0) eqn:Es; [discriminate|].
    cbn [andb negb]. intros [= <-].
    apply Qle_bool_iff in Ex, Ey. apply Qeq_bool_neq in Es.
    now apply normalized_difference_range.
  - eexists. reflexivity.
  - intros key. unfold get, prepare, copyProperties, addBands, rename,
      normalizedDifference. cbn [props]. now rewrite (right_id_L ∅ (∪)).
Qed.

Lemma band0_classify_and_mask (aoi : G) (permanent_water img cleaned : Image G) :
  classify_and_mask aoi permanent_water img = Ok cleaned →
  ∃ labelled,
    classify_kmeans (select img ["NDWI"%string]) aoi 2 = Ok labelled
    ∧ ∀ p, band0 cleaned !! p
           = match band0 labelled !! p with
             | Some l =>
                 if Qeq_bool l 1
                    && negb (same_value (band0 permanent_water) 1 p)
                    && negb (same_value (band0 (select img ["cloud_mask"%string])) 1 p)
                 then Some 1%Q else None
             | None => None
             end.
Proof.
  unfold classify_and_mask.
  destruct (classify_kmeans (select img ["NDWI"%string]) aoi 2) as [labelled|];
    [|discriminate].
  cbn [bind]. intros [= <-]. exists labelled. split; [reflexivity|]. intros p.
  unfold suppress_clouds, suppress_permanent_water.
  rewrite band0_set, band0_rename, band0_updateMask, updateMask_raster_lookup.
  rewrite band0_eq, eq_raster_lookup, !band0_where, !where_raster_lookup.
  rewrite !band0_eq, !eq_raster_nonzero, eq_raster_lookup, band0_rename.
  destruct (band0 labelled !! p) as [l|]; [|reflexivity].
  cbn [fmap option_fmap option_map].
  destruct (same_value (band0 (select img ["cloud_mask"%string])) 1 p),
    (same_value (band0 permanent_water) 1 p), (Qeq_bool l 1); reflexivity.
Qed.

(** X18: the classified and masked image holds only confirmed flood: a pixel
    is unmasked exactly when the classifier labelled it 1 and neither the
    permanent-water mask nor the cloud mask is 1 there, and its value is
    then 1; a cloud-flagged or permanently wet pixel is never reported. *)
Theorem classify_and_mask_pixels (aoi : G) (permanent_water img cleaned : Image G) :
  classify_and_mask aoi permanent_water img = Ok cleaned →
  ∃ labelled,
    classify_kmeans (select img ["NDWI"%string]) aoi 2 = Ok labelled
    ∧ ∀ p v,
        band0 cleaned !! p = Some v
        ↔ v = 1%Q
          ∧ same_value (band0 labelled) 1 p = true
          ∧ same_value (band0 permanent_water) 1 p = false
          ∧ same_value (band0 (select img ["cloud_mask"%string])) 1 p = false.
Proof.
  intros Hc. destruct (band0_classify_and_mask _ _ _ _ Hc) as (labelled & Hl & Hp).
  exists labelled. split; [exact Hl|]. intros p v. rewrite Hp.
  destruct (band0 labelled !! p) as [l|] eqn:El.
  - assert (Hsl : same_value (band0 labelled) 1 p = Qeq_bool l 1)
      by (unfold same_value; now rewrite El).
    rewrite Hsl.
    destruct (Qeq_bool l 1), (same_value (band0 permanent_water) 1 p),
      (same_value (band0 (select img ["cloud_mask"%string])) 1 p); cbn [andb negb];
      (split; [intros Hv | intros (Hv & H1 & H2 & H3)]); try discriminate.
    + injection Hv as <-. repeat split; reflexivity.
    + now subst v.
  - assert (Hsl : same_value (band0 labelled) 1 p = false)
      by (unfold same_value; now rewrite El).
    rewrite Hsl. split; [discriminate | intros (_ & [=] & _)].
Qed.

(** X19: the initialisation guard probes the backend on every call and
    calls [ee.Initialize()] only when the probe fails; it succeeds exactly
    when the session is initialised or can be; and after a success a second
    call only probes: it succeeds without initialising again. *)
Theorem ensure_ee_initialized_twice (s : Session) :
  let first := ensure_ee_initialized s in
  (snd first = Ok tt ↔ initialized s = true ∨ credentials s = true)
  ∧ (Initialize ∈ log (fst first) ↔ Initialize ∈ log s ∨ initialized s = false)
  ∧ (snd first = Ok tt →
     ensure_ee_initialized (fst first)
     = (mkSession true (credentials s) (log (fst first) ++ [GetInfo]), Ok tt)).
Proof.
  unfold ensure_ee_initialized.
  destruct (initialized s) eqn:Ei; cbn [fst snd log initialized credentials].
  - split; [|split].
    + split; [intros _; now left | reflexivity].
    + rewrite elem_of_app, list_elem_of_singleton.
      split; (intros [H | H]; [now left | discriminate]).
    + reflexivity.
  - assert (Hinit : Initialize ∈ (log s ++ [GetInfo]) ++ [Initialize])
      by (apply elem_of_app; right; now apply list_elem_of_singleton).
    destruct (credentials s) eqn:Ec; (split; [|split]).
    + split; [intros _; now right | reflexivity].
    + split; [intros _; now right | intros _; exact Hinit].
    + reflexivity.
    + split; [discriminate | intros [H | H]; discriminate].
    + split; [intros _; now right | intros _; exact Hinit].
    + discriminate.
Qed.

Lemma tag_lookup (add_metadata : option (gmap string PropVal)) (img : Image G)
    (key : string) :
  get (tag add_metadata img) key
  = match caller_value add_metadata key with
    | Some v => Some v
    | None =>
        if decide (key = "source"%string) then Some (PStr "S2")
        else if decide (key = "sensor"%string) then Some (PStr "Sentinel-2")
        else if decide (key = "algorithm"%string) then Some (PStr "kmeans_ndwi_v1")
        else get img key
    end.
Proof.
  set (defaults := <["source"%string := PStr "S2"]>
                     (<["sensor"%string := PStr "Sentinel-2"]>
                        (<["algorithm"%string := PStr "kmeans_ndwi_v1"]>
                           (∅ : gmap string PropVal)))).
  assert (Hdef : ∀ rest : option PropVal,
            (defaults !! key) ∪ rest
            = if decide (key = "source"%string) then Some (PStr "S2")
              else if decide (key = "sensor"%string) then Some (PStr "Sentinel-2")
              else if decide (key = "algorithm"%string) then Some (PStr "kmeans_ndwi_v1")
              else rest).
  { intros rest. unfold defaults.
    destruct (decide (key = "source"%string)) as [-> | H1].
    { rewrite lookup_insert_eq. now destruct rest. }
    rewrite lookup_insert_ne by congruence.
    destruct (decide (key = "sensor"%string)) as [-> | H2].
    { rewrite lookup_insert_eq. now destruct rest. }
    rewrite lookup_insert_ne by congruence.
    destruct (decide (key = "algorithm"%string)) as [-> | H3].
    { rewrite lookup_insert_eq. now destruct rest. }
    rewrite lookup_insert_ne by congruence. rewrite lookup_empty.
    now destruct rest. }
  unfold get, tag, caller_value. cbn [props]. fold defaults.
  destruct add_metadata as [extra|].
  - case_bool_decide as He.
    + subst extra. rewrite lookup_empty, lookup_union. apply Hdef.
    + rewrite !lookup_union. destruct (extra !! key) as [v|] eqn:Ev.
      * now destruct (defaults !! key), (props img !! key).
      * rewrite (left_id_L None (∪)). apply Hdef.
  - rewrite lookup_union. apply Hdef.
Qed.

(** X20: the tagging step gives the caller's metadata precedence over the
    three defaults and the defaults over the image's own properties; when
    the caller leaves the timestamp alone and the source is a string
    (["S2"] unless overridden), naming the layer succeeds and the name is
    the prefix, the date of the image's timestamp and the source in
    brackets, the bands being untouched. *)
Theorem tag_then_layer_name (add_metadata : option (gmap string PropVal))
    (img : Image G) (t : Z) (source prefix : string) :
  time_start img = Some t →
  caller_value add_metadata "system:time_start" = None →
  source_name add_metadata = Some source →
  ∃ out : Image G,
    set_layer_name prefix (tag add_metadata img) = Ok out
    ∧ get out "layer_name"
      = Some (PStr (prefix ++ Date_format t ++ " (" ++ source ++ ")"))
    ∧ get out "source" = Some (PStr source)
    ∧ (∀ key v, caller_value add_metadata key = Some v → key ≠ "layer_name"%string →
                get out key = Some v)
    ∧ bands out = bands img.
Proof.
  intros Ht Hts Hsrc.
  assert (Hts' : time_start (tag add_metadata img) = Some t).
  { unfold time_start in *. rewrite tag_lookup, Hts.
    repeat (case_decide as Hk; [discriminate Hk|]). exact Ht. }
  assert (Hs : get (tag add_metadata img) "source" = Some (PStr source)).
  { rewrite tag_lookup. unfold source_name in Hsrc.
    destruct (caller_value add_metadata "source") as [[s|n]|];
      [congruence | discriminate |].
    case_decide; [congruence | contradiction]. }
  unfold set_layer_name. rewrite Hts', Hs.
  eexists. split; [reflexivity|]. split; [apply get_set_eq|].
  split; [rewrite get_set_ne by discriminate; exact Hs|]. split.
  - intros key v Hv Hkey. rewrite get_set_ne by congruence.
    now rewrite tag_lookup, Hv.
  - reflexivity.
Qed.



Lemma set_layer_name_keeps (prefix : string) (img out : Image G) :
  set_layer_name prefix img = Ok out →
  bands out = bands img
  ∧ ∀ key, key ≠ "layer_name"%string → get out key = get img key.
Proof.
  unfold set_layer_name. destruct (time_start img); [|discriminate].
  destruct (get img "source") as [[s|n]|]; try discriminate.
  intros Heq.
  assert (Hout : out = set img "layer_name"
                   (Some (PStr (prefix ++ Date_format z ++ " (" ++ s ++ ")"))))
    by congruence.
  subst out. split; [reflexivity|].
  intros key Hkey. apply get_set_ne. congruence.
Qed.





Lemma mapM_elem {A B} (f : A → result B) (l : list A) (out : list B) :
  mapM f l = Ok out → ∀ o, o ∈ out → ∃ x, x ∈ l ∧ f x = Ok o.
Proof.
  revert out. induction l as [|a l IH]; intros out; cbn [mapM].
  - intros Heq o Ho. assert (out = []) by congruence. subst out.
    now apply elem_of_nil in Ho.
  - destruct (f a) as [b|] eqn:Hb; [|discriminate]. cbn [bind].
    destruct (mapM f l) as [bs|]; [|discriminate]. cbn [bind].
    intros Heq o Ho. assert (out = b :: bs) by congruence. subst out.
    apply elem_of_cons in Ho as [-> | Ho].
    + exists a. split; [now left | exact Hb].
    + destruct (IH bs eq_refl o Ho) as (x & Hx & Hfx).
      exists x. split; [now right | exact Hfx].
Qed.









Lemma get_process_image (roi : G) (min_area : Q) (image : Image G) (key : string) :
  get (process_image roi min_area image) key = get image key.
Proof.
  unfold process_image. destruct (decide (key = "date"%string)) as [-> | Hkey].
  - rewrite get_set_eq. reflexivity.
  - rewrite get_set_ne by congruence. reflexivity.
Qed.



Lemma toordinal_range (dt : datetime) :
  valid_date dt = true → 1 ≤ toordinal dt ≤ MAXORDINAL.
Proof.
  intros Hv. pose proof (toordinal_year_bounds dt Hv) as [Hlo Hhi].
  apply valid_date_spec in Hv as (Hy & _).
  pose proof (days_before_year_mono 1 (year dt) ltac:(lia)) as H1.
  pose proof (days_before_year_mono (year dt + 1) 10000 ltac:(lia)) as H2.
  change (days_before_year 1) with 0 in H1.
  change (days_before_year 10000) with MAXORDINAL in H2. lia.
Qed.

Lemma Date_millis_range (s : string) (a : Z) :
  Date_millis s = Some a →
  ∃ o, 1 ≤ o ≤ MAXORDINAL ∧ a = (o - EPOCH_ORDINAL) * MS_PER_DAY.
Proof.
  unfold Date_millis. destruct (strptime s) as [dt|] eqn:Hs; [|discriminate].
  intros [= <-]. exists (toordinal dt). split; [|reflexivity].
  apply toordinal_range. exact (strptime_valid _ _ Hs).
Qed.

Lemma load_s2_collection_elem (aoi : G) (start_date end_date : string)
    (cloud_threshold a b : Z) (out : list (Image G)) (x : Image G) :
  load_s2_collection aoi start_date end_date cloud_threshold = Ok out →
  Date_millis start_date = Some a → Date_millis end_date = Some b →
  x ∈ out →
  ∃ scene t,
    scene ∈ S2_SR_HARMONIZED
    ∧ geom_intersects (footprint scene) aoi = true
    ∧ time_start scene = Some t ∧ a ≤ t < b
    ∧ (∃ n, cloudy_pixel_percentage scene = Some n ∧ n < cloud_threshold)
    ∧ ∀ key, get x key = get scene key.
Proof.
  unfold load_s2_collection, filterDate. intros Hload Ha Hb. rewrite Ha, Hb in Hload.
  intros Hx.
  match type of Hload with Ok ?l = _ => assert (Hout : out = l) by congruence end.
  subst out. clear Hload.
  apply list_elem_of_fmap in Hx as (scene & -> & Hscene).
  apply list_elem_of_In, filter_In in Hscene as [Hscene Hcloud].
  apply filter_In in Hscene as [Hscene Hdate].
  apply filter_In in Hscene as [Hscene Hbounds].
  destruct (time_start scene) as [t|] eqn:Ht; [|discriminate].
  destruct (cloudy_pixel_percentage scene) as [n|] eqn:Hn; [|discriminate].
  apply andb_true_iff in Hdate as [H1 H2].
  exists scene, t. split; [now apply list_elem_of_In|].
  split; [exact Hbounds|]. split; [exact Ht|]. split; [lia|].
  split; [exists n; split; [exact Hn | lia]|].
  intros key. unfold get, copyProperties, clip, select. cbn [props].
  now rewrite (idemp_L (∪)).
Qed.

Lemma get_prepare (img : Image G) (key : string) : get (prepare img) key = get img key.
Proof.
  unfold get, prepare, copyProperties, addBands, rename, normalizedDifference.
  cbn [props]. now rewrite (right_id_L ∅ (∪)).
Qed.

Lemma mosaic_s2_elem (collection : list (Image G)) (roi : G)
    (mosaics : list (Image G)) (m : Image G) :
  mosaic_s2 collection roi = Ok mosaics →
  m ∈ mosaics →
  ∃ img t,
    img ∈ collection ∧ time_start img = Some t
    ∧ get m "system:time_start" = PNum <$> Date_millis (Date_format t).
Proof.
  unfold mosaic_s2. destruct (mapM add_date collection) as [dc|] eqn:Hdc; [|discriminate].
  cbn [bind]. intros Heq Hm.
  assert (Hmos : mosaics = omap (mosaic_on_date dc roi) (unique_dates dc)) by congruence.
  subst mosaics. pose proof (mapM_add_date_inv _ _ Hdc) as Hdated.
  apply list_elem_of_omap in Hm as (date & Hd & Hmos).
  destruct (mosaic_on_date_metadata _ _ _ _ Hmos) as (_ & Hts & _).
  unfold unique_dates in Hd. rewrite distinct_elem, (dated_date_strings _ _ Hdated) in Hd.
  apply list_elem_of_omap in Hd as (img & Hin & Hacq).
  unfold acquisition_date in Hacq.
  destruct (time_start img) as [t|] eqn:Ht; [|discriminate].
  exists img, t. split; [exact Hin|]. split; [exact Ht|].
  rewrite Hts. cbn in Hacq. congruence.
Qed.

Lemma classify_and_mask_time (aoi : G) (permanent_water img cleaned : Image G) :
  classify_and_mask aoi permanent_water img = Ok cleaned →
  get cleaned "system:time_start" = get img "system:time_start".
Proof.
  unfold classify_and_mask.
  destruct (classify_kmeans (select img ["NDWI"%string]) aoi 2) as [labelled|];
    [|discriminate].
  cbn [bind]. intros Heq.
  match type of Heq with Ok ?c = _ => assert (Hc : cleaned = c) by congruence end.
  subst cleaned. clear Heq.
  destruct (get img "system:time_start") as [v|] eqn:Hv.
  - apply get_set_eq.
  - unfold get, set. cbn [props]. apply lookup_delete_eq.
Qed.

(** X24: nothing outside the time window is ever reported. When the caller
    leaves the timestamp alone, every layer stems from a catalog scene that
    intersects the area of interest, has a cloud percentage strictly below
    the threshold and was acquired inside the window, start included and
    end excluded; the layer is stamped with the midnight that begins that
    scene's day, which lies inside the window as well. *)
Theorem flood_collection_window (aoi : G)
    (post_start_date post_end_date ref_start_date ref_end_date : string)
    (cloud_threshold : Z) (min_area : Q) (use_reference : bool)
    (add_metadata : option (gmap string PropVal)) (out : list (Image G))
    (window_start window_end : Z) (layer : Image G) :
  flood_collection aoi post_start_date post_end_date ref_start_date ref_end_date
    cloud_threshold min_area use_reference add_metadata = Ok out →
  Date_millis post_start_date = Some window_start →
  Date_millis post_end_date = Some window_end →
  caller_value add_metadata "system:time_start" = None →
  layer ∈ out →
  ∃ scene t,
    scene ∈ S2_SR_HARMONIZED
    ∧ geom_intersects (footprint scene) aoi = true
    ∧ time_start scene = Some t
    ∧ window_start ≤ t < window_end
    ∧ (∃ n, cloudy_pixel_percentage scene = Some n ∧ n < cloud_threshold)
    ∧ get layer "system:time_start" = Some (PNum (t / MS_PER_DAY * MS_PER_DAY))
    ∧ window_start ≤ t / MS_PER_DAY * MS_PER_DAY < window_end.
Proof.
  unfold flood_collection. intros Hrun Ha Hb Hcaller Hlayer.
  destruct (load_s2_collection _ _ _ _) as [s2|] eqn:Hload; [|discriminate].
  cbn [bind] in Hrun.
  destruct (if use_reference then _ else _) as [permanent_water|]; [|discriminate].
  cbn [bind] in Hrun.
  destruct (mosaic_s2 _ _) as [mosaicked|] eqn:Hmosaic; [|discriminate].
  cbn [bind] in Hrun.
  destruct (mapM _ mosaicked) as [flood_ic|] eqn:Hflood; [|discriminate].
  cbn [bind] in Hrun. unfold add_layer_name, remove_small_area in Hrun.
  destruct (mapM_elem _ _ _ Hrun layer Hlayer) as (tagged & Htagged & Hname).
  apply list_elem_of_fmap in Htagged as (filtered & -> & Hfiltered).
  apply list_elem_of_fmap in Hfiltered as (cleaned & -> & Hcleaned).
  destruct (mapM_elem _ _ _ Hflood cleaned Hcleaned) as (mosaic & Hmos & Hclean).
  destruct (mosaic_s2_elem _ _ _ _ Hmosaic Hmos) as (prepared & t & Hprep & Ht & Hstamp).
  apply list_elem_of_fmap in Hprep as (x & -> & Hx).
  destruct (load_s2_collection_elem _ _ _ _ _ _ _ _ Hload Ha Hb Hx)
    as (scene & t' & Hscene & Hbounds & Ht' & Hwin & Hcloud & Hkeys).
  assert (t' = t).
  { unfold time_start in Ht, Ht'. rewrite get_prepare, Hkeys in Ht.
    rewrite Ht in Ht'. congruence. }
  subst t'.
  destruct (Date_millis_range _ _ Ha) as (oa & Hoa & ->).
  destruct (Date_millis_range _ _ Hb) as (ob & Hob & ->).
  assert (Hday : oa ≤ EPOCH_ORDINAL + t / MS_PER_DAY < ob).
  { unfold MS_PER_DAY in *. Z.div_mod_to_equations. lia. }
  destruct (ord2ymd_valid (EPOCH_ORDINAL + t / MS_PER_DAY) ltac:(lia)) as [Hv Ho].
  assert (Hmillis : Date_millis (Date_format t) = Some (t / MS_PER_DAY * MS_PER_DAY)).
  { unfold Date_millis, Date_format.
    destruct (strptime_iso_format _ Hv) as [-> _]. rewrite Ho. f_equal. lia. }
  exists scene, t. repeat (split; [assumption || lia|]). split.
  - destruct (set_layer_name_keeps _ _ _ Hname) as [_ Hprops].
    rewrite Hprops by discriminate. rewrite tag_lookup, Hcaller.
    repeat (case_decide as Hk; [discriminate Hk|]).
    rewrite get_process_image, (classify_and_mask_time _ _ _ _ Hclean), Hstamp, Hmillis.
    reflexivity.
  - unfold MS_PER_DAY in *. lia.
Qed.

End PipelineExtra.

Section PipelineExtraExamples.
Import EE Filter Threshold Mosaic Upload Rename OpticalFlood Fixture Samples.

Lemma classify_and_mask_pixels_witness :
  ∃ labelled,
    classify_kmeans (select mosaic_16 ["NDWI"%string]) (rect 2 2) 2 = Ok labelled
    ∧ ∀ p v,
        band0 cleaned_16 !! p = Some v
        ↔ v = 1%Q
          ∧ same_value (band0 labelled) 1 p = true
          ∧ same_value (band0 permanent_water_16) 1 p = false
          ∧ same_value (band0 (select mosaic_16 ["cloud_mask"%string])) 1 p = false.
Proof.
  apply (classify_and_mask_pixels (rect 2 2) permanent_water_16 mosaic_16 cleaned_16).
  vm_compute. reflexivity.
Defined.

(** The wet left column of 16 July: (0, 0) is permanent water, (0, 1) is
    the only flood pixel. *)
Example cleaned_16_pixels : map_to_list (band0 cleaned_16) = [((0, 1), 1%Q)].
Proof. vm_compute. reflexivity. Qed.

Lemma tag_then_layer_name_witness :
  ∃ out : Image (gset pixel),
    set_layer_name "Flood extent on "
      (tag (Some {["source"%string := PStr "S2-test"; "run"%string := PNum 7]}) cleaned_16)
    = Ok out
    ∧ get out "layer_name"
      = Some (PStr ("Flood extent on " ++ Date_format 1689465600000
                    ++ " (" ++ "S2-test" ++ ")"))
    ∧ get out "source" = Some (PStr "S2-test")
    ∧ (∀ key v,
         caller_value (Some {["source"%string := PStr "S2-test"; "run"%string := PNum 7]})
           key = Some v →
         key ≠ "layer_name"%string → get out key = Some v)
    ∧ bands out = bands cleaned_16.
Proof.
  apply (tag_then_layer_name
           (Some {["source"%string := PStr "S2-test"; "run"%string := PNum 7]})
           cleaned_16 1689465600000 "S2-test" "Flood extent on ").
  - vm_compute. reflexivity.
  - vm_compute. reflexivity.
  - vm_compute. reflexivity.
Defined.


Example lag_two_selects_a_day :
  (λ r : result (list (Image (gset pixel))), summary <$> r)
    <$> snd (opticflood_s2 session (rect 2 2) "2023-07-15" 2 60 100 true None false)
  = Ok (Ok [(None, Some (PStr "Flood extent on 2023-07-16 (S2)"),
             [((0, 1), 1%Q)])]).
Proof. vm_compute. reflexivity. Qed.


Lemma flood_collection_window_witness :
  ∃ scene t,
    scene ∈ S2_SR_HARMONIZED
    ∧ geom_intersects (footprint scene) (rect 2 2) = true
    ∧ time_start scene = Some t
    ∧ 1689465600000 ≤ t < 1689552000000
    ∧ (∃ n, cloudy_pixel_percentage scene = Some n ∧ n < 60)
    ∧ get flood_layer "system:time_start" = Some (PNum (t / MS_PER_DAY * MS_PER_DAY))
    ∧ 1689465600000 ≤ t / MS_PER_DAY * MS_PER_DAY < 1689552000000.
Proof.
  apply (flood_collection_window (rect 2 2) "2023-07-16" "2023-07-17" "2023-06-15"
           "2023-07-14" 60 100 true None flood_layers 1689465600000 1689552000000
           flood_layer).
  - vm_compute. reflexivity.
  - vm_compute. reflexivity.
  - vm_compute. reflexivity.
  - reflexivity.
  - assert (Hl : flood_layers = [flood_layer]) by (vm_compute; reflexivity).
    rewrite Hl. apply list_elem_of_singleton. reflexivity.
Defined.

End PipelineExtraExamples.

